(** * Placeholder detection, HTML alignment and value injection

    A shallow embedding of [backend/detector.py], of the alignment and
    injection passes of [backend/main.py] and of the hint attachment of the
    upload path, with the properties the specification states about them.

    Python strings are sequences of Unicode code points: a [str] is a
    [list N], a character its code point.  Offsets, lengths and line
    numbers are natural numbers. *)

From Stdlib Require Import String Ascii.
From stdpp Require Import base numbers list option gmap pretty sorting.

Open Scope list_scope.

(** ** Strings *)

Abbreviation char := N (only parsing).
Abbreviation pystr := (list N) (only parsing).

(** A literal of the source, given by its ASCII text. *)
Definition py (s : string) : pystr :=
  List.map N_of_ascii (list_ascii_of_string s).

Definition NL : char := 10%N.
Definition TAB : char := 9%N.
Definition SP : char := 32%N.
Definition COLON : char := 58%N.
Definition DOLLAR : char := 36%N.
Definition LBRACKET : char := 91%N.
Definition RBRACKET : char := 93%N.
Definition LT : char := 60%N.
Definition GT : char := 62%N.
Definition AT : char := 64%N.

(** [str.isspace] on one character, which is also what [\s] matches in a
    [str] pattern: the code points CPython lists as whitespace. *)
Definition is_space (c : char) : bool :=
  ((9 <=? c) && (c <=? 13) || (28 <=? c) && (c <=? 32)
   || (c =? 133) || (c =? 160) || (c =? 5760)
   || (8192 <=? c) && (c <=? 8202)
   || (c =? 8232) || (c =? 8233) || (c =? 8239) || (c =? 8287)
   || (c =? 12288))%N.

(** [s[a:b]] for non-negative [a] and [b]; Python clamps both to [len(s)]. *)
Definition slice (a b : nat) (s : pystr) : pystr := take (b - a) (drop a s).

(** [k in s] at the front of [s]: [s.startswith(k)]. *)
Fixpoint startswith (k s : pystr) : bool :=
  match k, s with
  | [], _ => true
  | _ :: _, [] => false
  | a :: k', b :: s' => (a =? b)%N && startswith k' s'
  end.

(** [k in s] for strings. *)
Fixpoint contains (k s : pystr) : bool :=
  startswith k s || match s with [] => false | _ :: s' => contains k s' end.

(** [s.find(k)], [None] for Python's [-1]. *)
Fixpoint find (k s : pystr) : option nat :=
  if startswith k s then Some 0
  else match s with
       | [] => None
       | _ :: s' => S <$> find k s'
       end.

(** [s.rfind(k)], [None] for Python's [-1]: the largest offset at which
    [k] starts. *)
Fixpoint rfind (k s : pystr) : option nat :=
  match s with
  | [] => if startswith k [] then Some 0 else None
  | _ :: s' =>
      match rfind k s' with
      | Some i => Some (S i)
      | None => if startswith k s then Some 0 else None
      end
  end.

(** [s.count(c)] for a one-character [c]. *)
Definition count (c : char) (s : pystr) : nat :=
  length (filter (λ x, x = c) s).

(** [sep.join(parts)]. *)
Fixpoint join (sep : pystr) (parts : list pystr) : pystr :=
  match parts with
  | [] => []
  | [p] => p
  | p :: ps => p ++ sep ++ join sep ps
  end.

(** [s.lstrip()], [s.rstrip()], [s.strip()]. *)
Fixpoint lstrip (s : pystr) : pystr :=
  match s with
  | c :: s' => if is_space c then lstrip s' else s
  | [] => []
  end.

Definition rstrip (s : pystr) : pystr := rev (lstrip (rev s)).

Definition strip (s : pystr) : pystr := rstrip (lstrip s).

(** [s.split('\n')[-1]]: what follows the last [c] of [s], the whole of
    [s] when it has none. *)
Definition after_last (c : char) (s : pystr) : pystr :=
  match rfind [c] s with
  | Some i => drop (S i) s
  | None => s
  end.

(** [s.replace(k, v)]: the occurrences of [k] are found from the left,
    each search resuming after the last replaced occurrence; [skip] counts
    the characters of the occurrence that is being stepped over.  For an
    empty [k] Python puts [v] before every character and at the end. *)
Fixpoint replace_go (k v : pystr) (skip : nat) (s : pystr) : pystr :=
  match s with
  | [] => []
  | c :: s' =>
      match skip with
      | S n => replace_go k v n s'
      | 0 =>
          if startswith k s then v ++ replace_go k v (length k - 1) s'
          else c :: replace_go k v 0 s'
      end
  end.

Definition replace (k v s : pystr) : pystr :=
  match k with
  | [] => v ++ flat_map (λ c, c :: v) s
  | _ :: _ => replace_go k v 0 s
  end.

(** ** Regular expressions

    The patterns of the source are built from character classes with
    sequence, alternation and greedy repetition.  [re_match] is the
    backtracking matcher of Python's [re]: alternatives are tried left to
    right, a repetition takes as many iterations as it can and gives them
    back one at a time, and the first way to complete the whole pattern
    wins.  The continuation [k] receives what is left of the input. *)

Inductive regex : Type :=
| Eps
| Chr (p : char → bool)
| Cat (r1 r2 : regex)
| Alt (r1 r2 : regex)
| Star (r : regex).

Definition Opt (r : regex) : regex := Alt r Eps.
Definition Plus (r : regex) : regex := Cat r (Star r).

Fixpoint Lit (s : pystr) : regex :=
  match s with
  | [] => Eps
  | c :: s' => Cat (Chr (N.eqb c)) (Lit s')
  end.

(** Greedy repetition of a matcher [mr]: one more iteration first, the
    continuation when that fails.  An iteration must consume input, so
    [length s] iterations are enough from [s]. *)
Fixpoint star_loop (mr : pystr → (pystr → option pystr) → option pystr)
    (k : pystr → option pystr) (n : nat) (s : pystr) : option pystr :=
  match n with
  | 0 => k s
  | S n' =>
      match mr s (λ s', if length s' <? length s then star_loop mr k n' s'
                        else None) with
      | Some x => Some x
      | None => k s
      end
  end.

Fixpoint re_match (r : regex) (s : pystr) (k : pystr → option pystr)
  : option pystr :=
  match r with
  | Eps => k s
  | Chr p =>
      match s with
      | c :: s' => if p c then k s' else None
      | [] => None
      end
  | Cat r1 r2 => re_match r1 s (λ s', re_match r2 s' k)
  | Alt r1 r2 =>
      match re_match r1 s k with
      | Some x => Some x
      | None => re_match r2 s k
      end
  | Star r' => star_loop (re_match r') k (length s) s
  end.

(** The length of the match of [r] at the start of [s], if there is one. *)
Definition match_at (r : regex) (s : pystr) : option nat :=
  (λ rest, length s - length rest) <$> re_match r s Some.

(** [re.search]: the leftmost match, as a pair of offsets. *)
Fixpoint search_go (r : regex) (pos : nat) (s : pystr) : option (nat * nat) :=
  match match_at r s with
  | Some n => Some (pos, pos + n)
  | None =>
      match s with
      | [] => None
      | _ :: s' => search_go r (S pos) s'
      end
  end.

Definition search (r : regex) (s : pystr) : option (nat * nat) :=
  search_go r 0 s.

(** [re.finditer]: the successive non-overlapping matches, each search
    resuming where the previous match ended.  The patterns of the source
    never match the empty string. *)
Fixpoint finditer_go (r : regex) (skip pos : nat) (s : pystr)
  : list (nat * nat) :=
  match s with
  | [] => []
  | _ :: s' =>
      match skip with
      | S n => finditer_go r n (S pos) s'
      | 0 =>
          match match_at r s with
          | Some n => (pos, pos + n) :: finditer_go r (n - 1) (S pos) s'
          | None => finditer_go r 0 (S pos) s'
          end
      end
  end.

Definition finditer (r : regex) (s : pystr) : list (nat * nat) :=
  finditer_go r 0 0 s.

(** [re.sub(r, repl, s)] for a literal replacement. *)
Fixpoint sub_go (r : regex) (repl : pystr) (skip : nat) (s : pystr) : pystr :=
  match s with
  | [] => []
  | c :: s' =>
      match skip with
      | S n => sub_go r repl n s'
      | 0 =>
          match match_at r s with
          | Some n => repl ++ sub_go r repl (n - 1) s'
          | None => c :: sub_go r repl 0 s'
          end
      end
  end.

Definition re_sub (r : regex) (repl s : pystr) : pystr := sub_go r repl 0 s.

(** ** The document

    A paragraph exposes its text and the underline flag of each of its
    runs.  A container (the document body, or a table cell) holds
    paragraphs and tables; a table is a list of rows, a row a list of
    cells, and a cell is again a container. *)

Record run : Type := Run {
  underline : bool
}.

Record paragraph : Type := Paragraph {
  text : pystr;
  runs : list run
}.

#[warnings="-register-all"]
Inductive container : Type :=
| Container (paragraphs : list paragraph)
            (tables : list (list (list container))).

Definition paragraphs (c : container) : list paragraph :=
  match c with Container ps _ => ps end.

Definition tables (c : container) : list (list (list container)) :=
  match c with Container _ ts => ts end.

(** ** Fields *)

Record line_metadata : Type := Metadata {
  tabs : nat;
  spaces : nat;
  underlined : bool
}.

Inductive field_type : Type := bracketed | signature_line.

#[global] Instance field_type_eq_dec : EqDecision field_type.
Proof. solve_decision. Defined.

(** The dictionary a scanner appends: [value] is present for a bracketed
    field, [label] and [metadata] for a signature line. *)
Record field : Type := Field {
  type : field_type;
  value : pystr;
  label : pystr;
  start : nat;
  end_ : nat;
  line : nat;
  metadata : option line_metadata
}.

(** The same dictionary once [detect_placeholders] has attached [id] and
    [context].  The source also attaches [label_guess], a heuristic read
    off [context] that no other step of the program consults; it is left
    out here. *)
Record placeholder : Type := Placeholder {
  base : field;
  id : pystr;
  context : pystr
}.

(** ** detector.py *)

Definition CONTEXT_CHARS : nat := 500.

(** [\$?\[\s*[^\]\n]+\s*\]] *)
Definition bracket_re : regex :=
  Cat (Opt (Chr (N.eqb DOLLAR)))
   (Cat (Chr (N.eqb LBRACKET))
    (Cat (Star (Chr is_space))
     (Cat (Plus (Chr (λ c, negb (c =? RBRACKET)%N && negb (c =? NL)%N)))
      (Cat (Star (Chr is_space))
           (Chr (N.eqb RBRACKET)))))).

(** [full_text.count("\n", 0, pos) + 1] *)
Definition line_of (full_text : pystr) (pos : nat) : nat :=
  count NL (take pos full_text) + 1.

Definition detect_bracketed (full_text : pystr) : list field :=
  List.map
    (λ m : nat * nat,
       {| type := bracketed;
          value := slice m.1 m.2 full_text;
          label := [];
          start := m.1;
          end_ := m.2;
          line := line_of full_text m.1;
          metadata := None |})
    (finditer bracket_re full_text).

Fixpoint build_offsets_go (cur : nat) (para_texts : list pystr) : list nat :=
  match para_texts with
  | [] => []
  | [t] => [cur]
  | t :: rest => cur :: build_offsets_go (cur + length t + 1) rest
  end.

Definition build_offsets (para_texts : list pystr) : list nat :=
  build_offsets_go 0 para_texts.

Definition is_blank_char (c : char) : bool := (c =? SP)%N || (c =? TAB)%N.

(** One turn of the loop of [detect_signature_lines]: the field appended
    for the paragraph [para] with text [t] at index [para_idx], or [None]
    where the loop [continue]s. *)
Definition signature_line_of (para_offsets : list nat) (full_text : pystr)
    (para_idx : nat) (para : paragraph) (t : pystr) : option field :=
  match t with
  | [] => None
  | _ :: _ =>
      match rfind [COLON] t with
      | None => None
      | Some colon_pos =>
          let after_colon := drop (colon_pos + 1) t in
          if bool_decide (after_colon = [])
             || negb (forallb is_blank_char after_colon)
             || negb (bool_decide (TAB ∈ after_colon))
          then None
          else
            let label0 := strip (take colon_pos t) in
            let label1 :=
              if bool_decide (NL ∈ label0)
              then strip (after_last NL label0) else label0 in
            let has_underline := existsb underline (runs para) in
            let off := default 0 (para_offsets !! para_idx) in
            let padding_start := off + colon_pos + 1 in
            let padding_end := off + length t in
            Some {| type := signature_line;
                    value := [];
                    label := label1;
                    start := padding_start;
                    end_ := padding_end;
                    line := line_of full_text padding_start;
                    metadata := Some {| tabs := count TAB after_colon;
                                    spaces := count SP after_colon;
                                    underlined := has_underline |} |}
      end
  end.

Fixpoint signature_loop (para_offsets : list nat) (full_text : pystr)
    (para_idx : nat) (items : list (paragraph * pystr)) (results : list field)
  : list field :=
  match items with
  | [] => results
  | (para, t) :: rest =>
      let results' :=
        match signature_line_of para_offsets full_text para_idx para t with
        | Some f => results ++ [f]
        | None => results
        end in
      signature_loop para_offsets full_text (S para_idx) rest results'
  end.

Definition detect_signature_lines (paras : list paragraph)
    (para_texts : list pystr) (full_text : pystr) : list field :=
  signature_loop (build_offsets para_texts) full_text 0
                 (zip paras para_texts) [].

(** [list.sort(key=...)] is stable: an element goes before the first
    element of the sorted rest whose key is not smaller than its own. *)
Section sort_by.
Context {A : Type} (key : A → nat).

Fixpoint insert_by (x : A) (l : list A) : list A :=
  match l with
  | [] => [x]
  | y :: l' => if key x <=? key y then x :: l else y :: insert_by x l'
  end.

Definition sort_by (l : list A) : list A := foldr insert_by [] l.
End sort_by.

(** [f"{p['type']}@L{p['line']}@{idx}"] *)
Definition type_name (t : field_type) : pystr :=
  match t with
  | bracketed => py "bracketed"
  | signature_line => py "signature_line"
  end.

Definition str_of_nat (n : nat) : pystr := py (pretty n).

Definition field_id (p : field) (idx : nat) : pystr :=
  type_name (type p) ++ py "@L" ++ str_of_nat (line p) ++ py "@"
  ++ str_of_nat idx.

(** [[ \t]+] and [\n{3,}] *)
Definition blanks_re : regex := Plus (Chr is_blank_char).
Definition newlines3_re : regex :=
  Cat (Chr (N.eqb NL)) (Cat (Chr (N.eqb NL)) (Plus (Chr (N.eqb NL)))).

Definition context_of (full_text : pystr) (p : field) : pystr :=
  let a := start p - CONTEXT_CHARS in
  let b := min (length full_text) (end_ p + CONTEXT_CHARS) in
  let snippet := slice a b full_text in
  let snippet := re_sub blanks_re [SP] snippet in
  re_sub newlines3_re [NL; NL] snippet.

(** [for idx, p in enumerate(all_placeholders)] *)
Fixpoint attach (full_text : pystr) (idx : nat) (ps : list field)
  : list placeholder :=
  match ps with
  | [] => []
  | p :: rest =>
      {| base := p; id := field_id p idx; context := context_of full_text p |}
      :: attach full_text (S idx) rest
  end.

(** The paragraphs [detect_placeholders] reads: those of the body, then
    the paragraphs of each cell of each row of each table of the body. *)
Definition all_paragraphs (doc : container) : list paragraph :=
  paragraphs doc
  ++ flat_map (λ table, flat_map (λ row, flat_map paragraphs row) table)
              (tables doc).

Definition para_texts_of (doc : container) : list pystr :=
  List.map text (all_paragraphs doc).

Definition full_text_of (doc : container) : pystr :=
  join [NL] (para_texts_of doc).

Definition detect_placeholders (doc : container) : list placeholder :=
  let paras := all_paragraphs doc in
  let para_texts := List.map text paras in
  let full_text := join [NL] para_texts in
  let bracketed_fields := detect_bracketed full_text in
  let signature := detect_signature_lines paras para_texts full_text in
  let all_placeholders := sort_by start (bracketed_fields ++ signature) in
  attach full_text 0 all_placeholders.

(** ** main.py: the HTML aligner *)

Definition QUOTE : char := 34%N.

(** [<span class="field-marker" data-field-id="{field_id}">__MARKER_{field_id}__</span>] *)
Definition marker_of (field_id : pystr) : pystr :=
  py "<span class=" ++ [QUOTE] ++ py "field-marker" ++ [QUOTE]
  ++ py " data-field-id=" ++ [QUOTE] ++ field_id ++ [QUOTE] ++ py ">"
  ++ py "__MARKER_" ++ field_id ++ py "__</span>".

(** [(?:<[^>]+>)*] *)
Definition tag_re : regex :=
  Cat (Chr (N.eqb LT)) (Cat (Plus (Chr (λ c, negb (c =? GT)%N))) (Chr (N.eqb GT))).
Definition tags_re : regex := Star tag_re.

(** [(label:)((?:<[^>]+>|\s)+)]; the first group is the literal
    [label:], so [match.group(1)] is that text. *)
Definition signature_re (lbl : pystr) : regex :=
  Cat (Lit (lbl ++ [COLON])) (Plus (Alt tag_re (Chr is_space))).

Section Aligner.
(** The comparison of two characters under [re.IGNORECASE]. *)
Variable ci_eq : char → char → bool.

(** The pattern built character by character from a bracketed value;
    [in_bracket] is the flag the loop carries. *)
Fixpoint bracketed_pattern (in_bracket : bool) (v : pystr) : regex :=
  match v with
  | [] => Eps
  | c :: v' =>
      if (c =? LBRACKET)%N then
        Cat (Cat (Chr (N.eqb LBRACKET)) tags_re) (bracketed_pattern true v')
      else if (c =? RBRACKET)%N then
        Cat (Cat tags_re (Chr (N.eqb RBRACKET))) (bracketed_pattern false v')
      else if (c =? DOLLAR)%N then
        Cat (Cat (Chr (N.eqb DOLLAR)) tags_re) (bracketed_pattern in_bracket v')
      else if in_bracket
              && negb ((c =? SP)%N || (c =? TAB)%N || (c =? NL)%N) then
        Cat (Cat (Chr (ci_eq c)) tags_re) (bracketed_pattern in_bracket v')
      else
        Cat (Chr (ci_eq c)) (bracketed_pattern in_bracket v')
  end.

(** [html.replace(value, marker, 1)] *)
Definition replace_first (k v s : pystr) : pystr :=
  match find k s with
  | Some i => take i s ++ v ++ drop (i + length k) s
  | None => s
  end.

(** One turn of the loop over the sorted placeholders: the state is the
    evolving [html] and the dictionary [label_counts]. *)
Definition align_step (st : pystr * gmap pystr nat) (p : placeholder)
  : pystr * gmap pystr nat :=
  let html := st.1 in
  let label_counts := st.2 in
  let marker := marker_of (id p) in
  match type (base p) with
  | bracketed =>
      let v := value (base p) in
      match search (bracketed_pattern false v) html with
      | Some (a, b) => (take a html ++ marker ++ drop b html, label_counts)
      | None =>
          if contains v html then (replace_first v marker html, label_counts)
          else (html, label_counts)
      end
  | signature_line =>
      let lbl := label (base p) in
      let label_counts :=
        match label_counts !! lbl with
        | None => <[lbl := 0]> label_counts
        | Some _ => label_counts
        end in
      let n := default 0 (label_counts !! lbl) in
      let matches := finditer (signature_re lbl) html in
      match matches !! n with
      | Some (a, b) =>
          (take a html ++ (lbl ++ [COLON]) ++ [SP] ++ marker ++ drop b html,
           <[lbl := n + 1]> label_counts)
      | None => (html, label_counts)
      end
  end.

(** [create_marked_html] on the HTML the converter produced. *)
Definition align_from (st : pystr * gmap pystr nat) (ps : list placeholder)
  : pystr * gmap pystr nat :=
  foldl align_step st ps.

Definition create_marked_html (html : pystr) (placeholders : list placeholder)
  : pystr :=
  (align_from (html, ∅) (sort_by (λ p, start (base p)) placeholders)).1.
End Aligner.

(** The comparison of [re.IGNORECASE] on the ASCII letters. *)
Definition ascii_lower (c : char) : char :=
  if ((65 <=? c) && (c <=? 90))%N then (c + 32)%N else c.
Definition ascii_ci_eq (a b : char) : bool := (ascii_lower a =? ascii_lower b)%N.

(** ** main.py: the value injector *)

(** A field of the export payload: the detected field and the [input]
    key, absent ([None]) or a string. *)
Record filled_field : Type := FilledField {
  of_field : field;
  input : option pystr
}.

(** A Python [dict] with string keys, as its items in insertion order:
    assigning to a key that is present keeps the key in its place. *)
Fixpoint dict_set (k v : pystr) (d : list (pystr * pystr)) : list (pystr * pystr) :=
  match d with
  | [] => [(k, v)]
  | (k', v') :: d' =>
      if decide (k' = k) then (k, v) :: d' else (k', v') :: dict_set k v d'
  end.

(** The loop that builds [bracket_map] and [sig_map]. *)
Definition map_step (maps : list (pystr * pystr) * list (pystr * pystr))
    (p : filled_field) : list (pystr * pystr) * list (pystr * pystr) :=
  let user_val := strip (default [] (input p)) in
  match user_val with
  | [] => maps
  | _ :: _ =>
      match type (of_field p) with
      | bracketed => (dict_set (value (of_field p)) user_val maps.1, maps.2)
      | signature_line =>
          (maps.1, dict_set (label (of_field p) ++ [COLON]) user_val maps.2)
      end
  end.

Definition build_maps (placeholders : list filled_field)
  : list (pystr * pystr) * list (pystr * pystr) :=
  foldl map_step ([], []) placeholders.

(** The injector on the document as a value, the way a reader sees it
    through [paragraphs], [tables], [rows] and [cells].  This is what the
    injector computes when every paragraph is reached once and every
    character assigned is stored as it is; the injector on the stored
    document, with cells that a row yields more than once and with what
    an assignment does to a carriage return or a control character, is
    [replace_text_in_place] below, and [fill_docx_placeholders_view]
    relates the two.

    Assigning [para.text] replaces the runs of the paragraph by a single
    plain run holding the string. *)
Definition set_text (t : pystr) (para : paragraph) : paragraph :=
  Paragraph t [Run false].

Definition bracket_step (para : paragraph) (kv : pystr * pystr) : paragraph :=
  if contains kv.1 (text para)
  then set_text (replace kv.1 kv.2 (text para)) para
  else para.

(** [para.text.rsplit(k, 1)] has two parts when [k] occurs, cut at the
    last occurrence of [k]. *)
Definition sig_step (para : paragraph) (kv : pystr * pystr) : paragraph :=
  if contains kv.1 (text para)
  then match rfind kv.1 (text para) with
       | Some i => set_text (take i (text para) ++ kv.1 ++ [SP] ++ kv.2) para
       | None => set_text (text para) para
       end
  else para.

Definition fill_paragraph (bracket_map sig_map : list (pystr * pystr))
    (para : paragraph) : paragraph :=
  foldl sig_step (foldl bracket_step para bracket_map) sig_map.

(** [_replace_text_in_run_container] on a value: the paragraphs of the
    container, then every cell of every row of every table, recursively,
    each rewritten from what it was. *)
Fixpoint replace_text_in_run_container
    (bracket_map sig_map : list (pystr * pystr)) (c : container) : container :=
  match c with
  | Container ps ts =>
      Container
        (List.map (fill_paragraph bracket_map sig_map) ps)
        (List.map
           (List.map
              (List.map (replace_text_in_run_container bracket_map sig_map)))
           ts)
  end.

Definition fill_docx_placeholders (doc : container)
    (placeholders : list filled_field) : container :=
  let maps := build_maps placeholders in
  replace_text_in_run_container maps.1 maps.2 doc.

(** Every paragraph of a container, nested tables included, in the order
    the injector reaches them. *)
Fixpoint deep_paragraphs (c : container) : list paragraph :=
  match c with
  | Container ps ts =>
      ps ++ flat_map (flat_map (flat_map deep_paragraphs)) ts
  end.

(** ** ai_processor.py and the upload path *)

Inductive exn : Type :=
| HTTPException (status_code : nat)
| AttributeError
| ValueError.

Inductive result (A : Type) : Type :=
| Ok (a : A)
| Raise (e : exn).
Arguments Ok {A} a.
Arguments Raise {A} e.

#[global] Instance result_bind : MBind result :=
  λ A B f x, match x with Ok a => f a | Raise e => Raise e end.

(** A decoded JSON value; [JAtom] stands for null, a boolean or a number.
    An object is given by its items. *)
#[warnings="-register-all"]
Inductive json : Type :=
| JAtom
| JStr (s : pystr)
| JArr (items : list json)
| JObj (members : list (pystr * json)).

Fixpoint assoc {V : Type} (k : pystr) (d : list (pystr * V)) : option V :=
  match d with
  | [] => None
  | (k', v) :: d' => if decide (k' = k) then Some v else assoc k d'
  end.

(** [x.strip()] on a decoded value: only a string has the method. *)
Definition json_strip (j : json) : result pystr :=
  match j with
  | JStr s => Ok (strip s)
  | _ => Raise AttributeError
  end.

(** The dictionary stored for one field: keys [micro], [long], [demo]. *)
Record guidance : Type := Guidance {
  micro : pystr;
  long : pystr;
  demo : pystr
}.

(** [g = data.get(key)] followed by the test on [g] and the stripped
    entry; [None] when the test fails. *)
Definition guidance_entry (members : list (pystr * json)) (key : pystr)
  : result (option guidance) :=
  match assoc key members with
  | Some (JObj g) =>
      match assoc (py "micro") g, assoc (py "long") g with
      | Some gm, Some gl =>
          m ← json_strip gm ;
          l ← json_strip gl ;
          d ← json_strip (default (JStr []) (assoc (py "demo") g)) ;
          Ok (Some (Guidance m l d))
      | _, _ => Ok None
      end
  | _ => Ok None
  end.

(** The first loop of [generate_field_guidance], keyed by field id. *)
Fixpoint by_id (members : list (pystr * json)) (ps : list placeholder)
    (acc : gmap pystr guidance) : result (gmap pystr guidance) :=
  match ps with
  | [] => Ok acc
  | p :: rest =>
      g ← guidance_entry members (id p) ;
      by_id members rest
        (match g with Some e => <[id p := e]> acc | None => acc end)
  end.

(** The second loop, keyed by [str(i)] for [i] from [1]. *)
Fixpoint by_number (members : list (pystr * json)) (i : nat)
    (ps : list placeholder) (acc : gmap pystr guidance)
  : result (gmap pystr guidance) :=
  match ps with
  | [] => Ok acc
  | p :: rest =>
      g ← guidance_entry members (str_of_nat i) ;
      by_number members (S i) rest
        (match g with Some e => <[id p := e]> acc | None => acc end)
  end.

(** [generate_field_guidance]: [api_key] is the environment variable,
    [data] what [_call_model] returned, which is [{}] after any failure it
    caught.  [data.get] exists on an object only. *)
Definition generate_field_guidance (api_key : option pystr) (data : json)
    (placeholders : list placeholder) : result (gmap pystr guidance) :=
  match api_key with
  | None | Some [] => Ok ∅
  | Some (_ :: _) =>
      match data with
      | JObj members =>
          guidance_by_id ← by_id members placeholders ∅ ;
          if bool_decide (guidance_by_id = ∅)
          then by_number members 1 (take 120 placeholders) guidance_by_id
          else Ok guidance_by_id
      | _ =>
          match placeholders with
          | [] => Ok ∅
          | _ :: _ => Raise AttributeError
          end
      end
  end.

(** A placeholder of the upload response, with the three hint keys. *)
Record hinted : Type := Hinted {
  ph : placeholder;
  hint : pystr;
  hint_long : pystr;
  demo_value : pystr
}.

Definition attach_hints (g : gmap pystr guidance) (p : placeholder) : hinted :=
  let field_guidance := g !! id p in
  {| ph := p;
     hint := default [] (micro <$> field_guidance);
     hint_long := default [] (long <$> field_guidance);
     demo_value := default [] (demo <$> field_guidance) |}.

Record response : Type := Response {
  filename : pystr;
  placeholders : list hinted;
  marked_html : option pystr;
  ai_hints_enabled : bool
}.

(** [file.filename.endswith(".docx")] *)
Definition endswith (suffix s : pystr) : bool :=
  startswith (rev suffix) (rev s).

(** [_safe_name] *)
Definition safe_name (name : pystr) : pystr :=
  replace (py "\") (py "_") (replace (py "/") (py "_") name).

(** [upload_document]: [doc] is the parsed upload, [html] what the HTML
    converter returned, [None] when it raised. *)
Definition upload_document (ci_eq : char → char → bool) (name : pystr)
    (doc : container) (api_key : option pystr) (data : json)
    (html : option pystr) : result response :=
  if negb (endswith (py ".docx") name) then Raise (HTTPException 400)
  else
    let safe := safe_name name in
    let results := sort_by (λ p, line (base p)) (detect_placeholders doc) in
    g ← generate_field_guidance api_key data results ;
    let hinted_fields := List.map (attach_hints g) results in
    let marked := (λ h, create_marked_html ci_eq h results) <$> html in
    Ok {| filename := safe;
          placeholders := hinted_fields;
          marked_html := marked;
          ai_hints_enabled := bool_decide (g ≠ ∅) |}.

(** ** main.py: the injector on the document as python-docx holds it

    python-docx objects are views of one XML tree which the injector
    changes in place.  The paragraphs live in a store and are named by
    their index.  A container (the body, a cell) lists its own paragraphs
    and its tables; a table has its cells, each once, and a grid which
    gives, row by row and for each grid column, the index of the cell that
    [row.cells] yields there: a cell merged over several columns is
    yielded once per column, and the continuation of a vertical merge
    yields the cell above. *)
#[warnings="-register-all"]
Inductive tree : Type :=
| Tree (para_ids : list nat) (tbls : list (list tree * list (list nat))).

Record document : Type := Document {
  body : tree;
  store : list paragraph
}.

Definition CR : char := 13%N.

(** The characters a text node of the XML tree accepts: those of XML 1.0.
    The library refuses any other with [ValueError]. *)
Definition xml_char (c : char) : bool :=
  ((c =? 9) || (c =? 10) || (c =? 13)
   || (32 <=? c) && (c <=? 55295)
   || (57344 <=? c) && (c <=? 65533)
   || (65536 <=? c) && (c <=? 1114111))%N.

(** What [para.text] reads once a string has been assigned to it: a tab
    is stored as a tab element, a newline or a carriage return as a line
    break, and a line break reads as a newline. *)
Definition read_back (t : pystr) : pystr :=
  List.map (λ c, if (c =? CR)%N then NL else c) t.

(** [para.text = t]: the runs are replaced by one plain run. *)
Definition assign_text (t : pystr) (para : paragraph) : result paragraph :=
  if forallb xml_char t then Ok (Paragraph (read_back t) [Run false])
  else Raise ValueError.

Fixpoint foldlM {A B : Type} (f : B → A → result B) (b : B) (l : list A)
  : result B :=
  match l with
  | [] => Ok b
  | x :: l' => b' ← f b x ; foldlM f b' l'
  end.


Definition bracket_assign (para : paragraph) (kv : pystr * pystr)
  : result paragraph :=
  if contains kv.1 (text para)
  then assign_text (replace kv.1 kv.2 (text para)) para
  else Ok para.

(** [rsplit] refuses an empty separator. *)
Definition sig_assign (para : paragraph) (kv : pystr * pystr)
  : result paragraph :=
  if contains kv.1 (text para)
  then match kv.1 with
       | [] => Raise ValueError
       | _ :: _ =>
           match rfind kv.1 (text para) with
           | Some i =>
               assign_text (take i (text para) ++ kv.1 ++ [SP] ++ kv.2) para
           | None => assign_text (text para) para
           end
       end
  else Ok para.

(** The body of the loop over [container.paragraphs]. *)
Definition fill_paragraph_in_place (bracket_map sig_map : list (pystr * pystr))
    (para : paragraph) : result paragraph :=
  para' ← foldlM bracket_assign para bracket_map ;
  foldlM sig_assign para' sig_map.

Definition visit_paragraph (bracket_map sig_map : list (pystr * pystr))
    (st : list paragraph) (i : nat) : result (list paragraph) :=
  match st !! i with
  | Some para =>
      para' ← fill_paragraph_in_place bracket_map sig_map para ;
      Ok (<[i := para']> st)
  | None => Ok st
  end.

(** [_replace_text_in_run_container] on the store: the paragraphs of the
    container, then for each table, row by row, every cell the row
    yields. *)
Fixpoint replace_text_in_place (bracket_map sig_map : list (pystr * pystr))
    (c : tree) (st : list paragraph) : result (list paragraph) :=
  match c with
  | Tree ids tables =>
      st' ← foldlM (visit_paragraph bracket_map sig_map) st ids ;
      foldlM (λ st f, f st) st'
        (List.map
           (λ tb : list tree * list (list nat),
              let cell_fns :=
                List.map (replace_text_in_place bracket_map sig_map) tb.1 in
              λ st,
                foldlM (λ st idx, match cell_fns !! idx with
                                  | Some f => f st
                                  | None => Ok st
                                  end)
                       st (concat tb.2))
           tables)
  end.

Definition fill_docx_in_place (doc : document)
    (placeholders : list filled_field) : result document :=
  let maps := build_maps placeholders in
  st ← replace_text_in_place maps.1 maps.2 (body doc) (store doc) ;
  Ok (Document (body doc) st).

(** The paragraphs in the order the injector reaches them. *)
Fixpoint visits (c : tree) : list nat :=
  match c with
  | Tree ids tables =>
      ids ++ flat_map
               (λ tb : list tree * list (list nat),
                  let vs := List.map visits tb.1 in
                  flat_map (λ idx, default [] (vs !! idx)) (concat tb.2))
               tables
  end.

(** The document as python-docx yields it to a reader:
    [container.paragraphs], and [table.rows] with the [cells] of each
    row. *)
Fixpoint listing (st : list paragraph) (c : tree) : container :=
  match c with
  | Tree ids tables =>
      Container
        (omap (λ i, st !! i) ids)
        (List.map
           (λ tb : list tree * list (list nat),
              let cells := List.map (listing st) tb.1 in
              List.map (λ row, omap (λ idx, cells !! idx) row) tb.2)
           tables)
  end.

Definition view (doc : document) : container :=
  listing (store doc) (body doc).



(** ** Predicates of the specification *)

(** [k] occurs in [s] at offset [i]. *)
Definition occurs_at (k s : pystr) (i : nat) : Prop :=
  ∃ a b, s = a ++ k ++ b ∧ length a = i.

(** A block the signature-line scanner is to detect: the text is not
    empty, has a colon, and what follows its last colon is not empty, is
    made of spaces and tabs only and has a tab. *)
Definition is_signature_text (t : pystr) : Prop :=
  t ≠ [] ∧ COLON ∈ t ∧
  (∃ before after,
     t = before ++ COLON :: after ∧ (COLON ∉ after) ∧
     after ≠ [] ∧ Forall (λ c, c = SP ∨ c = TAB) after ∧ TAB ∈ after).

(** The words a pattern denotes. *)
Inductive matches : regex → pystr → Prop :=
| matches_eps : matches Eps []
| matches_chr p c : p c = true → matches (Chr p) [c]
| matches_cat r1 r2 w1 w2 :
    matches r1 w1 → matches r2 w2 → matches (Cat r1 r2) (w1 ++ w2)
| matches_alt_l r1 r2 w : matches r1 w → matches (Alt r1 r2) w
| matches_alt_r r1 r2 w : matches r2 w → matches (Alt r1 r2) w
| matches_star_nil r : matches (Star r) []
| matches_star_cons r w1 w2 :
    matches r w1 → matches (Star r) w2 → matches (Star r) (w1 ++ w2).

(** The shape of a bracketed token: an optional dollar sign, an opening
    bracket, a non-empty body without closing bracket, a closing bracket. *)
Definition is_token (w : pystr) : Prop :=
  ∃ pre body,
    w = pre ++ LBRACKET :: body ++ [RBRACKET] ∧
    (pre = [] ∨ pre = [DOLLAR]) ∧ body ≠ [] ∧ (RBRACKET ∉ body).

(** A decimal digit. *)
Definition is_digit (c : char) : Prop := (48 ≤ c ≤ 57)%N.

(** A document without tables, given by the texts of its paragraphs. *)
Definition doc_of_texts (ts : list pystr) : container :=
  Container (List.map (λ t, Paragraph t []) ts) [].

(** An [input] that is missing, empty or made of white space only. *)
Definition blank_input (i : option pystr) : Prop :=
  i = None ∨ ∃ s, i = Some s ∧ Forall (λ c, is_space c = true) s.


(** [t'] keeps [t] up to and including the last occurrence of [k] and
    continues with a space and [v]; it is [t] when [k] does not occur. *)
Definition appended_after_last (k v t t' : pystr) : Prop :=
  (∃ pre post,
     t = pre ++ k ++ post ∧
     (∀ j, length pre < j → ¬ occurs_at k t j) ∧
     t' = pre ++ k ++ [SP] ++ v)
  ∨ ((∀ i, ¬ occurs_at k t i) ∧ t' = t).

(** The stripped input of a payload field, and the key under which the
    injector files it. *)
Definition user_val (f : filled_field) : pystr := strip (default [] (input f)).

Definition key_of (f : filled_field) : pystr :=
  match type (of_field f) with
  | bracketed => value (of_field f)
  | signature_line => label (of_field f) ++ [COLON]
  end.

(** [k] is mapped to [v] by the fields [fs] of type [ty]: [v] is the
    non-empty stripped input of the last field of that type and key whose
    stripped input is not empty. *)
Definition entry_of (fs : list filled_field) (ty : field_type) (k v : pystr)
  : Prop :=
  ∃ fs1 f fs2,
    fs = fs1 ++ f :: fs2 ∧ type (of_field f) = ty ∧ key_of f = k ∧
    user_val f = v ∧ v ≠ [] ∧
    ∀ g, g ∈ fs2 → type (of_field g) = ty → key_of g = k → user_val g = [].






(** A property of every element holds of the whole list. *)
Fixpoint Forall_all {A : Type} (P : A → Prop) (f : ∀ x, P x) (l : list A)
  : Forall P l :=
  match l with
  | [] => List.Forall_nil P
  | x :: l' => List.Forall_cons P x l' (f x) (Forall_all P f l')
  end.

(** The match the signature branch of [align_step] takes for [p] in the
    state [st]: the one at the index the counter of the label gives. *)
Definition signature_match (st : pystr * gmap pystr nat) (p : placeholder)
  : option (nat * nat) :=
  finditer (signature_re (label (base p))) st.1
  !! default 0 (st.2 !! label (base p)).

(** The number of signature-line fields of [ps] with label [lbl] for
    which the pass, started in [st], inserts a marker. *)
Fixpoint markers_placed (ci_eq : char → char → bool)
    (st : pystr * gmap pystr nat) (lbl : pystr) (ps : list placeholder) : nat :=
  match ps with
  | [] => 0
  | q :: rest =>
      (if bool_decide (type (base q) = signature_line ∧ label (base q) = lbl
                       ∧ is_Some (signature_match st q))
       then 1 else 0)
      + markers_placed ci_eq (align_step ci_eq st q) lbl rest
  end.

(** The number of signature-line fields of [ps] with label [lbl]. *)
Definition fields_with_label (lbl : pystr) (ps : list placeholder) : nat :=
  length (filter (λ q, type (base q) = signature_line ∧ label (base q) = lbl)
                 ps).

(** The HTML a signature-line field [p] leaves when it is aligned to the
    [n]-th match of its pattern in [html], counting from [0]; [html]
    itself when there is no such match. *)
Definition aligned_to (html : pystr) (p : placeholder) (n : nat) : pystr :=
  match finditer (signature_re (label (base p))) html !! n with
  | Some (a, b) =>
      take a html ++ (label (base p) ++ [COLON]) ++ [SP] ++ marker_of (id p)
      ++ drop b html
  | None => html
  end.

(** The reading of the specification: each signature-line field is
    aligned to the match whose index is the number of earlier fields with
    its label. *)
Definition nth_field_takes_nth_match (ci_eq : char → char → bool)
    (html : pystr) (placeholders : list placeholder) : Prop :=
  ∀ i p,
    let sorted := sort_by (λ q, start (base q)) placeholders in
    sorted !! i = Some p →
    type (base p) = signature_line →
    let st := align_from ci_eq (html, ∅) (take i sorted) in
    (align_step ci_eq st p).1
    = aligned_to st.1 p (fields_with_label (label (base p)) (take i sorted)).

(** The part of the full text that precedes the paragraph of index [i]:
    the earlier paragraphs, each followed by a newline. *)
Definition preceding (i : nat) (texts : list pystr) : pystr :=
  flat_map (λ t, t ++ [NL]) (take i texts).


(** ** Further definitions *)

(** A token written on one line: an optional dollar sign, an opening
    bracket, a non-empty body without closing bracket or newline, a
    closing bracket. *)
Definition is_line_token (w : pystr) : Prop :=
  ∃ pre body,
    w = pre ++ LBRACKET :: body ++ [RBRACKET] ∧
    (pre = [] ∨ pre = [DOLLAR]) ∧ body ≠ [] ∧
    (RBRACKET ∉ body) ∧ (NL ∉ body).

(** The pattern has no empty word. *)
Definition nonempty_words (r : regex) : Prop := ∀ w, matches r w → w ≠ [].

(** ** Further definitions from the source *)

(** detector.py: the [summary] returned beside the placeholders.  The
    keys [bracketed] and [signature_lines] are the fields [n_bracketed]
    and [n_signature_lines]. *)
Record summary : Type := Summary {
  total : nat;
  n_bracketed : nat;
  n_signature_lines : nat
}.

Definition summary_of (all_placeholders : list placeholder) : summary :=
  {| total := length all_placeholders;
     n_bracketed :=
       length (filter (λ x, type (base x) = bracketed) all_placeholders);
     n_signature_lines :=
       length (filter (λ x, type (base x) = signature_line)
                      all_placeholders) |}.

(** [s[:m]] and [s[m:]] for an index of either sign: a negative index
    counts from the end, and both are clamped to the string. *)
Definition slice_to (m : Z) (s : pystr) : pystr :=
  if (m <? 0)%Z then take (Z.to_nat (Z.of_nat (length s) + m)) s
  else take (Z.to_nat m) s.

Definition slice_from (m : Z) (s : pystr) : pystr :=
  if (m <? 0)%Z then drop (Z.to_nat (Z.of_nat (length s) + m)) s
  else drop (Z.to_nat m) s.

(** ai_processor.py: the string put between head and tail by [trim], as
    the source file has it: a space, U+00E2, U+20AC, U+00A6, a space. *)
Definition ELISION : pystr := [32; 226; 8364; 166; 32]%N.

(** [trim]; [//] is floor division and [-max_chars//2] is
    [(-max_chars)//2]. *)
Definition trim (text : pystr) (max_chars : Z) : pystr :=
  match text with
  | [] => []
  | _ :: _ =>
      if (Z.of_nat (length text) <=? max_chars)%Z then text
      else
        let head := slice_to (max_chars / 2) text in
        let tail := slice_from ((- max_chars) / 2) text in
        head ++ ELISION ++ tail
  end.

Definition SLASH : char := 47%N.
Definition BACKSLASH : char := 92%N.
Definition UNDERSCORE : char := 95%N.

(** An answer of the model on which no [strip] fails: an object whose
    members that are objects hold strings only. *)
Definition strings_only (j : json) : Prop :=
  match j with
  | JObj g => ∀ k v, (k, v) ∈ g → ∃ s, v = JStr s
  | _ => True
  end.

Definition well_formed_answer (data : json) : Prop :=
  ∃ members, data = JObj members ∧ ∀ k j, (k, j) ∈ members → strings_only j.

(** The characters an assignment to [para.text] stores as they are. *)
Definition plain (c : char) : bool := xml_char c && negb (c =? CR)%N.

(** * Properties *)

(** ** Strings *)

Lemma startswith_app (k r : pystr) : startswith k (k ++ r) = true.
Proof.
  induction k as [|a k IH]; simpl; [done|].
  by rewrite N.eqb_refl, IH.
Qed.

Lemma startswith_inv (k s : pystr) :
  startswith k s = true → ∃ r, s = k ++ r.
Proof.
  revert s. induction k as [|a k IH]; intros s H.
  - by exists s.
  - destruct s as [|b s]; [done|]. simpl in H.
    apply andb_true_iff in H as [Hab Hk].
    apply N.eqb_eq in Hab as ->.
    destruct (IH _ Hk) as [r ->]. by exists r.
Qed.

Lemma startswith_iff (k s : pystr) :
  startswith k s = true ↔ ∃ r, s = k ++ r.
Proof.
  split; [apply startswith_inv|]. intros [r ->]. apply startswith_app.
Qed.

Lemma startswith_length (k s : pystr) :
  startswith k s = true → length k ≤ length s.
Proof.
  intros [r ->]%startswith_inv. rewrite length_app. lia.
Qed.

Lemma occurs_at_startswith (k s : pystr) (i : nat) :
  occurs_at k s i ↔ i ≤ length s ∧ startswith k (drop i s) = true.
Proof.
  split.
  - intros (a & b & -> & <-). split; [rewrite length_app; lia|].
    rewrite drop_app_length. apply startswith_app.
  - intros [Hi [r Hr]%startswith_inv].
    exists (take i s), r. split.
    + by rewrite <-Hr, take_drop.
    + rewrite length_take. lia.
Qed.

Lemma occurs_at_cons (k : pystr) (c : char) (s : pystr) (i : nat) :
  occurs_at k (c :: s) (S i) ↔ occurs_at k s i.
Proof.
  rewrite !occurs_at_startswith. simpl. split; intros [? ?]; split; auto; lia.
Qed.

Lemma occurs_at_0 (k s : pystr) :
  occurs_at k s 0 ↔ startswith k s = true.
Proof.
  rewrite occurs_at_startswith. simpl. split; [tauto|]. split; [lia|done].
Qed.

Lemma contains_iff (k s : pystr) :
  contains k s = true ↔ ∃ i, occurs_at k s i.
Proof.
  induction s as [|c s IH].
  - simpl. rewrite orb_false_r, <-occurs_at_0. split; [eauto|].
    intros [i Hi]. pose proof Hi as [Hle _]%occurs_at_startswith.
    simpl in Hle. by replace i with 0 in Hi by lia.
  - simpl. rewrite orb_true_iff, IH, <-occurs_at_0. split.
    + intros [?|[i Hi]]; [eauto|]. exists (S i). by rewrite occurs_at_cons.
    + intros [[|i] Hi]; [by left|]. right. exists i. by rewrite <-occurs_at_cons.
Qed.

Lemma rfind_None (k s : pystr) :
  rfind k s = None ↔ contains k s = false.
Proof.
  induction s as [|c s IH]; simpl.
  - rewrite orb_false_r. by destruct (startswith k []).
  - destruct (rfind k s) as [i|].
    + split; [done|]. intros [_ H]%orb_false_iff.
      destruct IH as [_ IH]. by specialize (IH H).
    + destruct IH as [IH _]. rewrite (IH eq_refl), orb_false_r.
      by destruct (startswith k (c :: s)).
Qed.

Lemma rfind_Some (k s : pystr) (i : nat) :
  rfind k s = Some i →
  occurs_at k s i ∧ ∀ j, i < j → ¬ occurs_at k s j.
Proof.
  revert i. induction s as [|c s IH]; intros i; simpl.
  - destruct (startswith k []) eqn:Hk; [|done]. intros [= <-]. split.
    + by apply occurs_at_0.
    + intros j Hj [Hle _]%occurs_at_startswith. simpl in Hle. lia.
  - destruct (rfind k s) as [i'|] eqn:Hr.
    + intros [= <-]. destruct (IH _ eq_refl) as [Ho Hmax]. split.
      * by rewrite occurs_at_cons.
      * intros [|j] Hj; [lia|]. rewrite occurs_at_cons. apply Hmax. lia.
    + destruct (startswith k (c :: s)) eqn:Hk; [|done]. intros [= <-]. split.
      * by apply occurs_at_0.
      * intros [|j] Hj; [lia|]. rewrite occurs_at_cons. intros Ho.
        apply rfind_None in Hr.
        assert (contains k s = true) by (apply contains_iff; eauto).
        congruence.
Qed.

Lemma occurs_at_char (c : char) (s : pystr) (i : nat) :
  occurs_at [c] s i ↔ s !! i = Some c.
Proof.
  split.
  - intros (a & b & -> & <-). simpl. by apply list_lookup_middle.
  - intros H. exists (take i s), (drop (S i) s). split.
    + simpl. by rewrite take_drop_middle.
    + apply lookup_lt_Some in H. rewrite length_take. lia.
Qed.

(** The last occurrence of a character splits the string around it. *)
Lemma rfind_char_Some (c : char) (s : pystr) (i : nat) :
  rfind [c] s = Some i →
  s = take i s ++ c :: drop (S i) s ∧ i < length s ∧ c ∉ drop (S i) s.
Proof.
  intros [Ho Hmax]%rfind_Some. apply occurs_at_char in Ho.
  split; [by rewrite take_drop_middle|].
  split; [by eapply lookup_lt_Some|].
  intros [j Hj]%list_elem_of_lookup. rewrite lookup_drop in Hj.
  apply (Hmax (S i + j)); [lia|]. by apply occurs_at_char.
Qed.

Lemma rfind_char_None (c : char) (s : pystr) :
  rfind [c] s = None ↔ c ∉ s.
Proof.
  rewrite rfind_None. split.
  - intros Hc [i Hi]%list_elem_of_lookup.
    assert (contains [c] s = true); [|congruence].
    apply contains_iff. exists i. by apply occurs_at_char.
  - intros Hn. destruct (contains [c] s) eqn:Hc; [|done].
    apply contains_iff in Hc as [i Hi%occurs_at_char].
    destruct Hn. by eapply list_elem_of_lookup_2.
Qed.

Lemma rfind_char_unique (c : char) (a b : pystr) :
  c ∉ b → rfind [c] (a ++ c :: b) = Some (length a).
Proof.
  intros Hb. destruct (rfind [c] (a ++ c :: b)) as [i|] eqn:Hr.
  - destruct (rfind_Some _ _ _ Hr) as [Ho Hmax].
    apply occurs_at_char in Ho.
    destruct (decide (i = length a)) as [->|Hne]; [done|].
    destruct (decide (i < length a)).
    + destruct (Hmax (length a)); [lia|].
      apply occurs_at_char. by rewrite list_lookup_middle.
    + rewrite lookup_app_r in Ho by lia.
      destruct (i - length a) as [|m] eqn:E; [lia|]. simpl in Ho.
      destruct Hb. by eapply list_elem_of_lookup_2.
  - apply rfind_char_None in Hr. destruct Hr. set_solver.
Qed.

Lemma count_blank (s : pystr) :
  forallb is_blank_char s = true → count TAB s + count SP s = length s.
Proof.
  unfold count. induction s as [|c s IH]; [done|]. simpl.
  intros [Hc Hs]%andb_true_iff. specialize (IH Hs).
  unfold is_blank_char in Hc. apply orb_true_iff in Hc.
  rewrite !filter_cons.
  destruct Hc as [->%N.eqb_eq| ->%N.eqb_eq];
    repeat case_decide; try done; simpl; lia.
Qed.

Lemma count_pos (c : char) (s : pystr) : c ∈ s → 1 ≤ count c s.
Proof.
  unfold count. intros H.
  assert (c ∈ filter (λ x, x = c) s) as Hf by (by apply list_elem_of_filter).
  destruct (filter _ s); [by apply elem_of_nil in Hf|simpl; lia].
Qed.

(** ** The signature-line scanner *)

Lemma forallb_blank (s : pystr) :
  forallb is_blank_char s = true ↔ Forall (λ c, c = SP ∨ c = TAB) s.
Proof.
  rewrite forallb_forall, Forall_forall. unfold is_blank_char.
  split; intros H c Hc.
  - apply list_elem_of_In, H in Hc.
    apply orb_true_iff in Hc as [?%N.eqb_eq|?%N.eqb_eq]; auto.
  - apply list_elem_of_In, H in Hc as [-> | ->]; by rewrite ?orb_true_r.
Qed.

(** What the loop body of [detect_signature_lines] appends, read off the
    text of the block. *)
Lemma signature_line_of_Some offs ft idx para (t : pystr) (f : field) :
  signature_line_of offs ft idx para t = Some f →
  ∃ colon_pos,
    rfind [COLON] t = Some colon_pos ∧
    let after_colon := drop (colon_pos + 1) t in
    after_colon ≠ [] ∧ forallb is_blank_char after_colon = true ∧
    TAB ∈ after_colon ∧
    type f = signature_line ∧
    start f = default 0 (offs !! idx) + colon_pos + 1 ∧
    end_ f = default 0 (offs !! idx) + length t ∧
    metadata f = Some {| tabs := count TAB after_colon;
                     spaces := count SP after_colon;
                     underlined := existsb underline (runs para) |}.
Proof.
  unfold signature_line_of. destruct t as [|c t]; [done|].
  destruct (rfind [COLON] (c :: t)) as [colon_pos|]; [|done].
  set (after := drop (colon_pos + 1) (c :: t)).
  destruct (bool_decide (after = [])) eqn:H1; [done|].
  destruct (forallb is_blank_char after) eqn:H2; [|done].
  destruct (bool_decide (TAB ∈ after)) eqn:H3; [|done].
  simpl. intros [= <-]. exists colon_pos. simpl.
  apply bool_decide_eq_false in H1. apply bool_decide_eq_true in H3.
  done.
Qed.

Lemma signature_line_of_is_Some offs ft idx para (t : pystr) :
  is_Some (signature_line_of offs ft idx para t) ↔ is_signature_text t.
Proof.
  split.
  - intros [f Hf]. apply signature_line_of_Some in Hf
      as (colon_pos & Hr & Hne & Hall & Htab & _).
    apply rfind_char_Some in Hr as (Ht & Hlt & Hnot).
    replace (colon_pos + 1) with (S colon_pos) in * by lia.
    split; [intros ->; simpl in Hlt; lia|].
    split; [rewrite Ht; set_solver|].
    exists (take colon_pos t), (drop (S colon_pos) t).
    by rewrite <-forallb_blank.
  - intros (Hne & _ & before & after & Ht & Hnot & Hane & Hall & Htab).
    assert (rfind [COLON] t = Some (length before)) as Hr
      by (rewrite Ht; by apply rfind_char_unique).
    assert (drop (length before + 1) t = after) as Hd.
    { rewrite Ht, drop_app_ge by lia.
      by replace (length before + 1 - length before) with 1 by lia. }
    clear Ht. destruct t as [|c t]; [done|].
    unfold signature_line_of. rewrite Hr, Hd.
    rewrite bool_decide_eq_false_2 by done.
    apply forallb_blank in Hall. rewrite Hall.
    rewrite bool_decide_eq_true_2 by done. simpl. eauto.
Qed.

Lemma signature_loop_spec offs ft idx items results :
  signature_loop offs ft idx items results
  = results
    ++ omap (λ o, o) (imap (λ i pt, signature_line_of offs ft (idx + i) pt.1 pt.2)
                     items).
Proof.
  revert idx results. induction items as [|[para t] items IH];
    intros idx results; simpl.
  - by rewrite app_nil_r.
  - rewrite IH, Nat.add_0_r.
    assert (imap (λ i pt, signature_line_of offs ft (S idx + i) pt.1 pt.2) items
            = imap ((λ i pt, signature_line_of offs ft (idx + i) pt.1 pt.2) ∘ S)
                   items) as ->
      by (apply imap_ext; intros; simpl; f_equal; lia).
    destruct (signature_line_of offs ft idx para t); simpl;
      [by rewrite <-app_assoc|done].
Qed.

(** ** The signature-line scanner emits a field exactly for the blocks
    the specification describes *)

(** Claim C4.  One turn of the scanner's loop yields a field if and only
    if the block's text is non-empty, contains a colon and is followed,
    after its last colon, by a non-empty run of spaces and tabs with at
    least one tab; the scanner's result is the list of those fields, block
    by block, so a paragraph contributes at most one; and a block whose
    last colon is followed by no tab is not detected. *)
Theorem signature_scanner_detects_exactly
    (paras : list paragraph) (para_texts : list pystr) (full_text : pystr) :
  let offs := build_offsets para_texts in
  (∀ idx para t,
     is_Some (signature_line_of offs full_text idx para t)
     ↔ is_signature_text t)
  ∧ detect_signature_lines paras para_texts full_text
    = omap (λ o, o) (imap (λ i pt, signature_line_of offs full_text i pt.1 pt.2)
                    (zip paras para_texts))
  ∧ (∀ idx para before after,
       COLON ∉ after → TAB ∉ after →
       signature_line_of offs full_text idx para (before ++ COLON :: after)
       = None).
Proof.
  intros offs. split; [|split].
  - intros. apply signature_line_of_is_Some.
  - unfold detect_signature_lines. by rewrite signature_loop_spec.
  - intros idx para before after Hc Ht.
    apply eq_None_not_Some. rewrite signature_line_of_is_Some.
    intros (_ & _ & b' & a' & E & Hc' & _ & _ & Ht').
    assert (length b' = length before) as Hlen.
    { pose proof (rfind_char_unique COLON before after Hc) as H1.
      pose proof (rfind_char_unique COLON b' a' Hc') as H2.
      rewrite E in H1. congruence. }
    apply app_inj_1 in E as [_ [= <-]]; done.
Qed.

(** ** The matcher finds words of the pattern *)

Lemma star_loop_sound (r : regex)
    (mr : pystr → (pystr → option pystr) → option pystr) :
  (∀ s k x, mr s k = Some x →
            ∃ w s', s = w ++ s' ∧ matches r w ∧ k s' = Some x) →
  ∀ n s k x, star_loop mr k n s = Some x →
             ∃ w s', s = w ++ s' ∧ matches (Star r) w ∧ k s' = Some x.
Proof.
  intros Hmr n. induction n as [|n IH]; intros s k x; simpl.
  - intros Hk. exists [], s. eauto using matches.
  - destruct (mr s _) as [y|] eqn:E.
    + intros [= ->]. apply Hmr in E as (w1 & s1 & -> & Hw1 & Hk).
      destruct (_ <? _); [|done].
      apply IH in Hk as (w2 & s2 & -> & Hw2 & Hk).
      exists (w1 ++ w2), s2. rewrite <-app_assoc. eauto using matches.
    + intros Hk. exists [], s. eauto using matches.
Qed.

Lemma re_match_sound (r : regex) (s : pystr) k (x : pystr) :
  re_match r s k = Some x →
  ∃ w s', s = w ++ s' ∧ matches r w ∧ k s' = Some x.
Proof.
  revert s k x. induction r as [|p|r1 IH1 r2 IH2|r1 IH1 r2 IH2|r IH];
    intros s k x; simpl.
  - intros Hk. exists [], s. eauto using matches.
  - destruct s as [|c s]; [done|]. destruct (p c) eqn:Hp; [|done].
    intros Hk. exists [c], s. eauto using matches.
  - intros (w1 & s1 & -> & Hw1 & H)%IH1.
    apply IH2 in H as (w2 & s2 & -> & Hw2 & Hk).
    exists (w1 ++ w2), s2. rewrite <-app_assoc. eauto using matches.
  - destruct (re_match r1 s k) as [y|] eqn:E.
    + intros [= ->]. apply IH1 in E as (w & s' & -> & Hw & Hk).
      exists w, s'. eauto using matches.
    + intros (w & s' & -> & Hw & Hk)%IH2. exists w, s'. eauto using matches.
  - apply star_loop_sound. apply IH.
Qed.

Lemma match_at_sound (r : regex) (s : pystr) (n : nat) :
  match_at r s = Some n →
  n ≤ length s ∧ matches r (take n s).
Proof.
  unfold match_at. destruct (re_match r s Some) as [rest|] eqn:E; [|done].
  simpl. intros [= <-].
  apply re_match_sound in E as (w & s' & -> & Hw & [= ->]).
  rewrite length_app. replace (length w + length rest - length rest)
    with (length w) by lia.
  split; [lia|]. by rewrite take_app_length.
Qed.

(** Every pair [finditer] yields is a match of the pattern at its offset,
    and lies where the scan has not been yet. *)
Lemma finditer_go_sound (r : regex) (s : pystr) (skip pos a b : nat) :
  (a, b) ∈ finditer_go r skip pos s →
  pos + skip ≤ a ∧ a ≤ b ∧ b ≤ pos + length s ∧
  match_at r (drop (a - pos) s) = Some (b - a).
Proof.
  revert skip pos. induction s as [|c s IH]; intros skip pos; simpl.
  - by intros ?%elem_of_nil.
  - destruct skip as [|skip].
    + destruct (match_at r (c :: s)) as [n|] eqn:E.
      * intros [[= -> ->]|H]%elem_of_cons.
        -- apply match_at_sound in E as H'. destruct H' as [Hn _].
           simpl in Hn. rewrite Nat.sub_diag. simpl.
           replace (pos + n - pos) with n by lia. repeat split; [lia..|done].
        -- apply IH in H as (H1 & H2 & H3 & H4).
           replace (a - pos) with (S (a - S pos)) by lia. simpl.
           repeat split; [lia..|done].
      * intros H. apply IH in H as (H1 & H2 & H3 & H4).
        replace (a - pos) with (S (a - S pos)) by lia. simpl.
        repeat split; [lia..|done].
    + intros H. apply IH in H as (H1 & H2 & H3 & H4).
      replace (a - pos) with (S (a - S pos)) by lia. simpl.
      repeat split; [lia..|done].
Qed.

Lemma finditer_sound (r : regex) (s : pystr) (a b : nat) :
  (a, b) ∈ finditer r s →
  a ≤ b ∧ b ≤ length s ∧ matches r (slice a b s).
Proof.
  intros (H1 & H2 & H3 & H4)%finditer_go_sound.
  rewrite Nat.sub_0_r in H4. apply match_at_sound in H4 as [_ H4].
  simpl in H3. by unfold slice.
Qed.

(** Successive matches do not overlap: each begins where the previous
    one ended, or later. *)
Lemma finditer_go_ordered (r : regex) (s : pystr) (skip pos : nat) :
  ∀ i j a b a' b',
    finditer_go r skip pos s !! i = Some (a, b) →
    finditer_go r skip pos s !! j = Some (a', b') →
    i < j → a < b → b ≤ a'.
Proof.
  revert skip pos. induction s as [|c s IH]; intros skip pos; simpl.
  - intros i j a b a' b' H. by rewrite lookup_nil in H.
  - destruct skip as [|skip]; [|by apply IH].
    destruct (match_at r (c :: s)) as [n|] eqn:E; [|by apply IH].
    intros [|i] [|j] a b a' b' Hi Hj Hij Hab; try lia; simpl in *.
    + injection Hi as <- <-.
      apply list_elem_of_lookup_2, finditer_go_sound in Hj. lia.
    + eapply IH; eauto. lia.
Qed.

(** ** The words of the bracket pattern *)

Lemma matches_chr_inv p (w : pystr) :
  matches (Chr p) w → ∃ c, w = [c] ∧ p c = true.
Proof. inversion 1; eauto. Qed.

Lemma matches_cat_inv r1 r2 (w : pystr) :
  matches (Cat r1 r2) w → ∃ w1 w2, w = w1 ++ w2 ∧ matches r1 w1 ∧ matches r2 w2.
Proof. inversion 1; eauto. Qed.

Lemma matches_star_chr p (w : pystr) :
  matches (Star (Chr p)) w → Forall (λ c, p c = true) w.
Proof.
  intros H. remember (Star (Chr p)) as r eqn:Hr.
  induction H as [| | | | | |r w1 w2 H1 _ H2 IH2]; try done.
  injection Hr as ->. apply matches_chr_inv in H1 as (c & -> & Hc).
  constructor; auto.
Qed.

Lemma matches_plus_chr p (w : pystr) :
  matches (Plus (Chr p)) w → w ≠ [] ∧ Forall (λ c, p c = true) w.
Proof.
  intros (w1 & w2 & -> & (c & -> & Hc)%matches_chr_inv & H2%matches_star_chr)
    %matches_cat_inv.
  split; [done|]. by constructor.
Qed.

Lemma matches_opt_chr p (w : pystr) :
  matches (Opt (Chr p)) w → w = [] ∨ ∃ c, w = [c] ∧ p c = true.
Proof.
  inversion 1 as [| | |? ? ? H1|? ? ? H1| |]; subst.
  - right. by apply matches_chr_inv.
  - left. by inversion H1.
Qed.

Lemma matches_lit (k w : pystr) : matches (Lit k) w → w = k.
Proof.
  revert w. induction k as [|c k IH]; intros w; simpl.
  - by inversion 1.
  - intros (w1 & w2 & -> & (d & -> & Hd%N.eqb_eq)%matches_chr_inv & H2)
      %matches_cat_inv.
    subst. simpl. f_equal. by apply IH.
Qed.

Lemma is_space_not_rbracket (c : char) : is_space c = true → c ≠ RBRACKET.
Proof. intros H ->. by vm_compute in H. Qed.

Lemma bracket_re_token (w : pystr) : matches bracket_re w → is_token w.
Proof.
  unfold bracket_re.
  intros (w0 & wa & -> & H0%matches_opt_chr & H)%matches_cat_inv.
  apply matches_cat_inv in H
    as (w1 & wb & -> & (c1 & -> & Hc1%N.eqb_eq)%matches_chr_inv & H).
  apply matches_cat_inv in H as (w2 & wc & -> & H2%matches_star_chr & H).
  apply matches_cat_inv in H as (w3 & wd & -> & [H3 H3']%matches_plus_chr & H).
  apply matches_cat_inv in H
    as (w4 & we & -> & H4%matches_star_chr
        & (c5 & -> & Hc5%N.eqb_eq)%matches_chr_inv).
  subst. exists w0, (w2 ++ w3 ++ w4). split; [by rewrite <-!app_assoc|].
  split; [|split].
  - destruct H0 as [->|(c & -> & ->%N.eqb_eq)]; auto.
  - by destruct w2, w3.
  - rewrite !elem_of_app. intros [H|[H|H]].
    + eapply Forall_forall in H2; [|done]. by apply is_space_not_rbracket in H2.
    + eapply Forall_forall in H3'; [|done]. by vm_compute in H3'.
    + eapply Forall_forall in H4; [|done]. by apply is_space_not_rbracket in H4.
Qed.

Lemma is_token_length (w : pystr) : is_token w → 3 ≤ length w.
Proof.
  intros (pre & body & -> & _ & Hb & _). destruct body; [done|].
  rewrite length_app. simpl. rewrite length_app. simpl. lia.
Qed.

Lemma is_token_head (w : pystr) :
  is_token w → ∃ c w', w = c :: w' ∧ (c = LBRACKET ∨ c = DOLLAR).
Proof.
  intros (pre & body & -> & [->| ->] & _); simpl; eauto.
Qed.

(** What [detect_bracketed] returns: fields of type bracketed whose value
    is the matched text, a token, at the offsets of the match. *)
Lemma detect_bracketed_spec (full_text : pystr) (f : field) :
  f ∈ detect_bracketed full_text →
  type f = bracketed ∧
  value f = slice (start f) (end_ f) full_text ∧
  is_token (value f) ∧
  start f < end_ f ∧ end_ f ≤ length full_text ∧
  (start f, end_ f) ∈ finditer bracket_re full_text.
Proof.
  unfold detect_bracketed. intros Hf.
  apply list_elem_of_In, in_map_iff in Hf as ([a b] & <- & Hm). simpl.
  apply list_elem_of_In in Hm. pose proof Hm as (H1 & H2 & H3)%finditer_sound.
  apply bracket_re_token in H3. pose proof (is_token_length _ H3) as Hl.
  unfold slice in Hl. rewrite length_take, length_drop in Hl.
  repeat split; [done|lia|done..].
Qed.

(** ** Offsets of the paragraphs in the full text *)

Lemma build_offsets_go_lookup (texts : list pystr) (cur i : nat) (t : pystr) :
  texts !! i = Some t →
  ∃ post,
    join [NL] texts = preceding i texts ++ t ++ post ∧
    build_offsets_go cur texts !! i = Some (cur + length (preceding i texts)).
Proof.
  revert cur i. induction texts as [|t0 rest IH]; intros cur i; [done|].
  destruct rest as [|t1 rest].
  - destruct i as [|i]; [|done]. intros [= ->]. exists [].
    simpl. by rewrite app_nil_r, Nat.add_0_r.
  - destruct i as [|i].
    + intros [= ->]. exists (NL :: join [NL] (t1 :: rest)).
      split; [done|]. simpl. by rewrite Nat.add_0_r.
    + intros Hi. change ((t0 :: t1 :: rest) !! S i) with ((t1 :: rest) !! i) in Hi.
      destruct (IH (cur + length t0 + 1) i Hi) as (post & Hj & Ho).
      exists post. split.
      * change (join [NL] (t0 :: t1 :: rest))
          with (t0 ++ [NL] ++ join [NL] (t1 :: rest)).
        rewrite Hj. unfold preceding. simpl. by rewrite <-!app_assoc.
      * change (build_offsets_go cur (t0 :: t1 :: rest) !! S i)
          with (build_offsets_go (cur + length t0 + 1) (t1 :: rest) !! i).
        rewrite Ho. f_equal. unfold preceding. simpl.
        rewrite !length_app. simpl. lia.
Qed.

Lemma build_offsets_lookup (texts : list pystr) (i : nat) (t : pystr) :
  texts !! i = Some t →
  ∃ post,
    join [NL] texts = preceding i texts ++ t ++ post ∧
    build_offsets texts !! i = Some (length (preceding i texts)).
Proof. apply build_offsets_go_lookup. Qed.

(** The index the scanner's loop reads in [para_offsets] is in range. *)
Lemma detect_signature_lines_inv paras (texts : list pystr) (ft : pystr)
    (f : field) :
  f ∈ detect_signature_lines paras texts ft →
  ∃ i para t,
    texts !! i = Some t ∧
    signature_line_of (build_offsets texts) ft i para t = Some f.
Proof.
  unfold detect_signature_lines. rewrite signature_loop_spec. simpl.
  intros (o & Ho & Hf)%list_elem_of_omap. subst o.
  apply elem_of_lookup_imap in Ho as (i & [para t] & Hs & Hz).
  apply lookup_zip_Some in Hz as [_ Ht].
  simpl in Hs. eauto.
Qed.

Lemma slice_middle (pre t post : pystr) (c : nat) :
  c ≤ length t →
  slice (length pre + c) (length pre + length t) (pre ++ t ++ post) = drop c t.
Proof.
  intros Hc. unfold slice.
  rewrite drop_app_ge by lia.
  replace (length pre + c - length pre) with c by lia.
  rewrite drop_app_le by lia.
  replace (length pre + length t - (length pre + c)) with (length (drop c t))
    by (rewrite length_drop; lia).
  by rewrite take_app_length.
Qed.

(** A signature-line field spans the padding of its block. *)
Lemma signature_field_spec paras (texts : list pystr) (f : field) :
  f ∈ detect_signature_lines paras texts (join [NL] texts) →
  ∃ padding,
    slice (start f) (end_ f) (join [NL] texts) = padding ∧
    length padding = end_ f - start f ∧
    start f < end_ f ∧ end_ f ≤ length (join [NL] texts) ∧
    padding ≠ [] ∧ Forall (λ c, c = SP ∨ c = TAB) padding ∧
    type f = signature_line ∧
    ∃ u, metadata f = Some {| tabs := count TAB padding;
                          spaces := count SP padding;
                          underlined := u |} ∧ TAB ∈ padding.
Proof.
  intros (i & para & t & Ht & Hf)%detect_signature_lines_inv.
  apply signature_line_of_Some in Hf
    as (c & Hr & Hne & Hall & Htab & Hty & Hs & He & Hm).
  apply build_offsets_lookup in Ht as (post & Hj & Ho).
  rewrite Ho in Hs, He. simpl in Hs, He.
  apply rfind_char_Some in Hr as (_ & Hlt & _).
  assert (c + 1 < length t) as Hlt'.
  { destruct (decide (c + 1 < length t)); [done|].
    destruct Hne. apply drop_ge. lia. }
  exists (drop (c + 1) t). rewrite Hj, Hs, He, <-Nat.add_assoc.
  rewrite slice_middle by lia. rewrite length_drop, !length_app.
  split; [done|]. split; [lia|]. split; [lia|]. split; [lia|].
  split; [done|]. split; [by apply forallb_blank|]. split; [done|].
  eexists. split; [exact Hm|exact Htab].
Qed.

(** ** Sorting and numbering *)

Lemma insert_by_Permutation {A} (key : A → nat) (x : A) (l : list A) :
  insert_by key x l ≡ₚ x :: l.
Proof.
  induction l as [|y l IH]; simpl; [done|].
  destruct (key x <=? key y); [done|]. rewrite IH. apply perm_swap.
Qed.

Lemma sort_by_Permutation {A} (key : A → nat) (l : list A) :
  sort_by key l ≡ₚ l.
Proof.
  induction l as [|x l IH]; simpl; [done|].
  by rewrite insert_by_Permutation, IH.
Qed.

Lemma attach_base (ft : pystr) (idx : nat) (ps : list field) :
  List.map base (attach ft idx ps) = ps.
Proof.
  revert idx. induction ps as [|p ps IH]; intros idx; simpl; [done|].
  by rewrite IH.
Qed.

Lemma attach_lookup (ft : pystr) (idx i : nat) (ps : list field) p :
  attach ft idx ps !! i = Some p →
  ps !! i = Some (base p) ∧ id p = field_id (base p) (idx + i).
Proof.
  revert idx i. induction ps as [|q ps IH]; intros idx i; simpl; [done|].
  destruct i as [|i]; simpl.
  - intros [= <-]. simpl. by rewrite Nat.add_0_r.
  - intros [H1 H2]%IH. split; [done|]. rewrite H2. f_equal. lia.
Qed.

(** Every placeholder comes from one of the two scanners. *)
Lemma detect_placeholders_base (doc : container) p :
  p ∈ detect_placeholders doc →
  base p ∈ detect_bracketed (full_text_of doc)
  ∨ base p ∈ detect_signature_lines (all_paragraphs doc) (para_texts_of doc)
               (full_text_of doc).
Proof.
  unfold detect_placeholders. intros [i Hi]%list_elem_of_lookup.
  apply attach_lookup in Hi as [Hi _].
  apply list_elem_of_lookup_2 in Hi. rewrite sort_by_Permutation in Hi.
  by apply elem_of_app in Hi.
Qed.

(** ** Scenarios A and B of the specification *)

Example scenario_B :
  List.map (λ p, (value (base p), start (base p), id p))
    (detect_placeholders
       (doc_of_texts [py "Please fill $[Amount] by [Date]."]))
  = [ (py "$[Amount]", 12, py "bracketed@L1@0");
      (py "[Date]", 25, py "bracketed@L1@1") ].
Proof. vm_compute. reflexivity. Qed.

Example scenario_A :
  List.map (λ p, (label (base p), tabs <$> metadata (base p), start (base p),
                  end_ (base p)))
    (detect_placeholders
       (doc_of_texts [py "Name: " ++ [TAB; TAB]; py "Date: " ++ [TAB; TAB]]))
  = [ (py "Name", Some 2, 5, 8); (py "Date", Some 2, 14, 17) ].
Proof. vm_compute. reflexivity. Qed.

(** ** Offsets of the detected fields *)

(** Claim C1.  Every field [detect_placeholders] returns lies inside the
    full text with [start < end]; the text between its offsets is its
    [value] for a bracketed field and is made of spaces and tabs only for
    a signature line. *)
Theorem detected_field_offsets (doc : container) (p : placeholder) :
  p ∈ detect_placeholders doc →
  0 ≤ start (base p) ∧
  start (base p) < end_ (base p) ∧
  end_ (base p) ≤ length (full_text_of doc) ∧
  match type (base p) with
  | bracketed =>
      slice (start (base p)) (end_ (base p)) (full_text_of doc)
      = value (base p)
  | signature_line =>
      Forall (λ c, c = SP ∨ c = TAB)
             (slice (start (base p)) (end_ (base p)) (full_text_of doc))
  end.
Proof.
  intros [H|H]%detect_placeholders_base.
  - apply detect_bracketed_spec in H as (Hty & Hv & _ & Hlt & Hle & _).
    rewrite Hty. repeat split; [lia|done..].
  - apply signature_field_spec in H
      as (padding & Hs & _ & Hlt & Hle & _ & Hall & Hty & _).
    rewrite Hty. unfold full_text_of. rewrite Hs. repeat split; [lia|done..].
Qed.

Lemma detected_field_offsets_witness :
  let doc := doc_of_texts [py "Pay $[Amount]"; py "By:" ++ [TAB]] in
  let p := {| base := {| type := signature_line; value := []; label := py "By";
                         start := 17; end_ := 18; line := 2;
                         metadata := Some (Metadata 1 0 false) |};
              id := py "signature_line@L2@1";
              context := py "Pay $[Amount]" ++ [NL] ++ py "By: " |} in
  p ∈ detect_placeholders doc ∧
  start (base p) < end_ (base p) ∧
  Forall (λ c, c = SP ∨ c = TAB)
         (slice (start (base p)) (end_ (base p)) (full_text_of doc)).
Proof.
  intros doc p.
  assert (p ∈ detect_placeholders doc) as Hp
    by (vm_compute; apply list_elem_of_further, list_elem_of_here).
  split; [exact Hp|].
  destruct (detected_field_offsets doc p Hp) as (_ & Hlt & _ & Hs).
  split; [exact Hlt|exact Hs].
Defined.

(** ** Metadata of signature lines *)

(** Claim C9.  For every detected signature line the counts of tabs and
    spaces in [metadata] add up to [end - start], and there is at least
    one tab. *)
Theorem signature_metadata_counts (doc : container) (p : placeholder) :
  p ∈ detect_placeholders doc →
  type (base p) = signature_line →
  ∃ m, metadata (base p) = Some m
       ∧ tabs m + spaces m = end_ (base p) - start (base p)
       ∧ 1 ≤ tabs m.
Proof.
  intros [H|H]%detect_placeholders_base Hty.
  - apply detect_bracketed_spec in H as (Hty' & _). congruence.
  - apply signature_field_spec in H
      as (padding & _ & Hlen & _ & _ & _ & Hall & _ & u & Hm & Htab).
    eexists. split; [done|]. simpl. split.
    + rewrite <-Hlen. by apply count_blank, forallb_blank.
    + by apply count_pos.
Qed.

Lemma signature_metadata_counts_witness :
  let doc := doc_of_texts [py "Pay $[Amount]"; py "By:" ++ [TAB; SP; TAB]] in
  let p := {| base := {| type := signature_line; value := []; label := py "By";
                         start := 17; end_ := 20; line := 2;
                         metadata := Some (Metadata 2 1 false) |};
              id := py "signature_line@L2@1";
              context := py "Pay $[Amount]" ++ [NL] ++ py "By: " |} in
  p ∈ detect_placeholders doc ∧
  ∃ m, metadata (base p) = Some m
       ∧ tabs m + spaces m = end_ (base p) - start (base p)
       ∧ 1 ≤ tabs m.
Proof.
  intros doc p.
  assert (p ∈ detect_placeholders doc) as Hp
    by (vm_compute; apply list_elem_of_further, list_elem_of_here).
  split; [exact Hp|].
  exact (signature_metadata_counts doc p Hp eq_refl).
Defined.

(** ** Identifiers *)

Lemma py_inj (s1 s2 : string) : py s1 = py s2 → s1 = s2.
Proof.
  unfold py. intros H.
  rewrite <-(string_of_list_ascii_of_string s1),
          <-(string_of_list_ascii_of_string s2).
  f_equal. revert H.
  generalize (list_ascii_of_string s1) (list_ascii_of_string s2).
  intros l1. induction l1 as [|a l1 IH]; intros [|b l2]; simpl; try done.
  intros [= Hab Hl]. f_equal; [|by apply IH].
  by rewrite <-(ascii_N_embedding a), <-(ascii_N_embedding b), Hab.
Qed.

Lemma str_of_nat_inj (n m : nat) : str_of_nat n = str_of_nat m → n = m.
Proof. intros H%py_inj. by apply (inj pretty) in H. Qed.

Lemma pretty_N_char_digit (x : N) : is_digit (N_of_ascii (pretty_N_char x)).
Proof.
  unfold pretty_N_char, is_digit. repeat case_match; simpl; lia.
Qed.

Lemma pretty_N_go_digits (x : N) (s : string) :
  Forall is_digit (py s) → Forall is_digit (py (pretty_N_go x s)).
Proof.
  revert s. induction (N.lt_wf_0 x) as [x _ IH]; intros s Hs.
  destruct (decide (x = 0)%N) as [->|Hx]; [by rewrite pretty_N_go_0|].
  rewrite pretty_N_go_step by lia. apply IH.
  - apply N.div_lt; lia.
  - unfold py. simpl. constructor; [apply pretty_N_char_digit|done].
Qed.

Lemma str_of_nat_digits (n : nat) : Forall is_digit (str_of_nat n).
Proof.
  unfold str_of_nat, pretty, pretty_nat, pretty, pretty_N.
  case_decide.
  - repeat constructor; unfold is_digit; simpl; lia.
  - apply pretty_N_go_digits. constructor.
Qed.

Lemma str_of_nat_no_at (n : nat) : AT ∉ str_of_nat n.
Proof.
  intros H. pose proof (str_of_nat_digits n) as Hd.
  eapply Forall_forall in Hd; [|done]. unfold is_digit, AT in Hd. lia.
Qed.

(** Two strings that agree end alike after their last [c]. *)
Lemma after_last_char_inj (c : char) (x a y b : pystr) :
  x ++ c :: a = y ++ c :: b → c ∉ a → c ∉ b → a = b.
Proof.
  intros E Ha Hb.
  pose proof (rfind_char_unique c x a Ha) as H1.
  pose proof (rfind_char_unique c y b Hb) as H2.
  rewrite E in H1. assert (length x = length y) as Hlen by congruence.
  apply app_inj_1 in E as [_ [= <-]]; done.
Qed.

Lemma field_id_inj (p q : field) (i j : nat) :
  field_id p i = field_id q j → i = j.
Proof.
  unfold field_id. intros E. apply str_of_nat_inj.
  apply (after_last_char_inj AT
           (type_name (type p) ++ py "@L" ++ str_of_nat (line p)) _
           (type_name (type q) ++ py "@L" ++ str_of_nat (line q)) _);
    [|apply str_of_nat_no_at..].
  rewrite <-!app_assoc. exact E.
Qed.

(** Claim C2.  The [id] strings [detect_placeholders] assigns are
    pairwise distinct, whatever the types, lines and texts of the fields. *)
Theorem detected_ids_distinct (doc : container) :
  NoDup (List.map id (detect_placeholders doc)).
Proof.
  apply NoDup_alt. intros i j x Hi Hj.
  change (List.map id (detect_placeholders doc))
    with (id <$> detect_placeholders doc) in Hi, Hj.
  rewrite list_lookup_fmap in Hi, Hj.
  destruct (detect_placeholders doc !! i) as [p|] eqn:Ep; [|done].
  destruct (detect_placeholders doc !! j) as [q|] eqn:Eq; [|done].
  simpl in Hi, Hj. injection Hi as Hi. injection Hj as Hj.
  apply attach_lookup in Ep as [_ Ep]. apply attach_lookup in Eq as [_ Eq].
  simpl in Ep, Eq. rewrite Ep in Hi. rewrite Eq in Hj.
  eapply field_id_inj. by rewrite Hi, Hj.
Qed.

(** ** Bracketed tokens and line ends *)

(** Claim C3, at the document made of the two paragraphs "[" and "A]".
    The pattern lets its white space match the newline that joins the two
    paragraphs: the scanner reports one token whose text holds a newline,
    although the body class of the pattern excludes that character. *)
Theorem bracket_match_crosses_newline :
  let doc := doc_of_texts [py "["; py "A]"] in
  full_text_of doc = LBRACKET :: NL :: py "A]"
  ∧ detect_bracketed (full_text_of doc)
    = [ {| type := bracketed; value := LBRACKET :: NL :: py "A]"; label := [];
           start := 0; end_ := 4; line := 1; metadata := None |} ]
  ∧ List.map (λ p, (type (base p), value (base p), start (base p),
                    end_ (base p)))
             (detect_placeholders doc)
    = [ (bracketed, LBRACKET :: NL :: py "A]", 0, 4) ]
  ∧ NL ∈ LBRACKET :: NL :: py "A]".
Proof.
  repeat split; [vm_compute; reflexivity..|].
  apply list_elem_of_further, list_elem_of_here.
Qed.

(** Such a token is out of reach of the injector, which looks every key
    up paragraph by paragraph. *)
Lemma token_across_paragraphs_not_filled :
  let f := {| type := bracketed; value := LBRACKET :: NL :: py "A]";
              label := []; start := 0; end_ := 4; line := 1;
              metadata := None |} in
  para_texts_of
    (fill_docx_placeholders (doc_of_texts [py "["; py "A]"])
                            [FilledField f (Some (py "x"))])
  = [py "["; py "A]"].
Proof. vm_compute. reflexivity. Qed.

(** The matches the scanner reports are tokens, in increasing order and
    without overlap. *)
Lemma bracket_matches_disjoint (full_text : pystr) (i j : nat) (f g : field) :
  detect_bracketed full_text !! i = Some f →
  detect_bracketed full_text !! j = Some g →
  i < j → end_ f ≤ start g.
Proof.
  unfold detect_bracketed. intros Hi Hj Hij.
  change (List.map ?h ?l) with (h <$> l) in Hi, Hj.
  rewrite list_lookup_fmap in Hi, Hj.
  destruct (finditer bracket_re full_text !! i) as [[a b]|] eqn:Ei; [|done].
  destruct (finditer bracket_re full_text !! j) as [[a' b']|] eqn:Ej; [|done].
  simpl in Hi, Hj. injection Hi as <-. injection Hj as <-. simpl.
  eapply (finditer_go_ordered bracket_re full_text 0 0 i j); eauto.
  apply list_elem_of_lookup_2, finditer_sound in Ei as (_ & _ & Hm).
  apply bracket_re_token, is_token_length in Hm.
  unfold slice in Hm. rewrite length_take, length_drop in Hm. lia.
Qed.

(** ** The replacement maps of the injector *)

Lemma lstrip_spaces (s : pystr) :
  Forall (λ c, is_space c = true) s → lstrip s = [].
Proof.
  induction 1 as [|c s Hc _ IH]; simpl; [done|]. by rewrite Hc.
Qed.

Lemma strip_spaces (s : pystr) :
  Forall (λ c, is_space c = true) s → strip s = [].
Proof. intros H. unfold strip. by rewrite (lstrip_spaces s H). Qed.

Lemma blank_input_user_val (i : option pystr) :
  blank_input i → strip (default [] i) = [].
Proof.
  intros [->|(s & -> & Hs)]; [done|]. by apply strip_spaces.
Qed.

Lemma build_maps_snoc (fs : list filled_field) (f : filled_field) :
  build_maps (fs ++ [f]) = map_step (build_maps fs) f.
Proof. unfold build_maps. by rewrite foldl_app. Qed.

Lemma map_step_blank maps (f : filled_field) :
  strip (default [] (input f)) = [] → map_step maps f = maps.
Proof. intros H. unfold map_step. by rewrite H. Qed.

(** ** Blank inputs *)

(** Claim C10.  A field whose [input] is missing, empty or made of white
    space only adds nothing to the replacement maps: the maps, and so the
    filled document, are those obtained without that field. *)
Theorem blank_input_is_skipped (doc : container)
    (before after : list filled_field) (f : filled_field) :
  blank_input (input f) →
  build_maps (before ++ f :: after) = build_maps (before ++ after)
  ∧ fill_docx_placeholders doc (before ++ f :: after)
    = fill_docx_placeholders doc (before ++ after).
Proof.
  intros Hb%blank_input_user_val.
  assert (build_maps (before ++ f :: after) = build_maps (before ++ after)) as E.
  { unfold build_maps. rewrite !foldl_app. simpl.
    by rewrite (map_step_blank _ f Hb). }
  split; [done|]. unfold fill_docx_placeholders. by rewrite E.
Qed.

Lemma blank_input_is_skipped_witness :
  let doc := doc_of_texts [py "Pay [Sum] to [Name]"] in
  let f := {| type := bracketed; value := py "[Sum]"; label := [];
              start := 4; end_ := 9; line := 1; metadata := None |} in
  let g := {| type := bracketed; value := py "[Name]"; label := [];
              start := 13; end_ := 19; line := 1; metadata := None |} in
  blank_input (Some [SP; TAB; NL])
  ∧ fill_docx_placeholders doc [FilledField f (Some [SP; TAB; NL]);
                                FilledField g (Some (py "Ann"))]
    = fill_docx_placeholders doc [FilledField g (Some (py "Ann"))].
Proof.
  intros doc f g.
  assert (blank_input (Some [SP; TAB; NL])) as Hb.
  { right. eexists. split; [reflexivity|]. repeat constructor. }
  split; [exact Hb|].
  exact (proj2 (blank_input_is_skipped doc []
                  [FilledField g (Some (py "Ann"))]
                  (FilledField f (Some [SP; TAB; NL])) Hb)).
Defined.

(** ** Replacing and appending in one paragraph *)



Lemma replace_go_miss (k v : pystr) (c : char) (s : pystr) :
  startswith k (c :: s) = false →
  replace_go k v 0 (c :: s) = c :: replace_go k v 0 s.
Proof. intros H. simpl replace_go. by rewrite H. Qed.





Lemma replace_absent (k v t : pystr) :
  contains k t = false → replace k v t = t.
Proof.
  intros Hc. destruct k as [|c k']; [by destruct t|].
  unfold replace. induction t as [|d t IH]; [done|].
  simpl in Hc. apply orb_false_iff in Hc as [H1 H2].
  rewrite replace_go_miss by done. by rewrite IH.
Qed.

Lemma bracket_step_text (p : paragraph) (k v : pystr) :
  text (bracket_step p (k, v)) = replace k v (text p).
Proof.
  unfold bracket_step. simpl. destruct (contains k (text p)) eqn:E; [done|].
  by rewrite replace_absent.
Qed.

Lemma sig_step_spec (p : paragraph) (k v : pystr) :
  appended_after_last k v (text p) (text (sig_step p (k, v))).
Proof.
  unfold sig_step. simpl. destruct (contains k (text p)) eqn:E.
  - left. destruct (rfind k (text p)) as [i|] eqn:Hr.
    + destruct (rfind_Some _ _ _ Hr) as [(a & b & Ht & Hlen) Hmax].
      exists a, b. split; [done|]. subst i. split; [done|]. simpl.
      by rewrite Ht, take_app_length.
    + apply rfind_None in Hr. congruence.
  - right. split; [|done]. intros i Hi.
    assert (contains k (text p) = true); [|congruence].
    apply contains_iff. eauto.
Qed.

(** ** Induction on nested containers *)

Lemma container_nested_ind (P : container → Prop) :
  (∀ ps ts, Forall (Forall (Forall P)) ts → P (Container ps ts)) →
  ∀ c, P c.
Proof.
  intros H. fix IH 1. intros [ps ts]. apply H.
  apply Forall_all. intros table. apply Forall_all. intros row.
  apply Forall_all. exact IH.
Qed.



(** ** The entries of the replacement maps *)

Lemma dict_set_elem (k v k' v' : pystr) (d : list (pystr * pystr)) :
  NoDup d.*1 →
  (k', v') ∈ dict_set k v d
  ↔ (k' = k ∧ v' = v) ∨ (k' ≠ k ∧ (k', v') ∈ d).
Proof.
  induction d as [|[k0 v0] d IH]; simpl; intros Hnd.
  - rewrite list_elem_of_singleton. split.
    + intros [= -> ->]. by left.
    + intros [[-> ->]|[_ H]]; [done|by apply elem_of_nil in H].
  - apply NoDup_cons in Hnd as [Hk0 Hnd]. case_decide as E.
    + subst k0. rewrite !elem_of_cons. split.
      * intros [[= -> ->]|H]; [by left|]. right. split; [|by right].
        intros ->. destruct Hk0. apply list_elem_of_fmap. by exists (k, v').
      * intros [[-> ->]|[Hne [[= -> ->]|H]]]; [by left|done|by right].
    + rewrite !elem_of_cons, (IH Hnd). split.
      * intros [[= -> ->]|[[-> ->]|[Hne H]]]; [right|left|right]; auto.
      * intros [[-> ->]|[Hne [[= -> ->]|H]]]; auto.
Qed.

Lemma dict_set_keys (k v : pystr) (d : list (pystr * pystr)) :
  NoDup d.*1 → NoDup (dict_set k v d).*1.
Proof.
  induction d as [|[k0 v0] d IH]; simpl; intros Hnd.
  - apply NoDup_singleton.
  - apply NoDup_cons in Hnd as [Hk0 Hnd]. case_decide as E.
    + subst. simpl. by apply NoDup_cons.
    + simpl. apply NoDup_cons. split; [|auto].
      intros [[k1 v1] [Hk1 H]]%list_elem_of_fmap. simpl in Hk1. subst k1.
      apply (dict_set_elem _ _ _ _ _ Hnd) in H as [[-> _]|[_ H]]; [done|].
      destruct Hk0. apply list_elem_of_fmap. by exists (k0, v1).
Qed.

Lemma entry_of_snoc (fs : list filled_field) (f : filled_field)
    (ty : field_type) (k v : pystr) :
  entry_of (fs ++ [f]) ty k v
  ↔ (type (of_field f) = ty ∧ key_of f = k ∧ user_val f = v ∧ v ≠ [])
    ∨ (entry_of fs ty k v
       ∧ (type (of_field f) = ty → key_of f = k → user_val f = [])).
Proof.
  split.
  - intros (fs1 & g & fs2 & E & Hty & Hk & Hv & Hne & Hlater).
    destruct fs2 as [|x fs2 _] using rev_ind.
    + apply app_inj_tail in E as [_ <-]. by left.
    + rewrite app_comm_cons, app_assoc in E.
      apply app_inj_tail in E as [-> <-]. right. split.
      * exists fs1, g, fs2. repeat split; try done.
        intros h Hh. apply Hlater. apply elem_of_app. by left.
      * apply Hlater. apply elem_of_app. right. apply list_elem_of_here.
  - intros [(Hty & Hk & Hv & Hne)|[(fs1 & g & fs2 & -> & Hty & Hk & Hv & Hne & Hl) Hf]].
    + exists fs, f, []. repeat split; try done. by intros h ?%elem_of_nil.
    + exists fs1, g, (fs2 ++ [f]). rewrite <-app_assoc. repeat split; try done.
      intros h [Hh|Hh%list_elem_of_singleton]%elem_of_app; [auto|by subst].
Qed.

Lemma entry_of_nil (ty : field_type) (k v : pystr) : ¬ entry_of [] ty k v.
Proof. intros (fs1 & f & fs2 & E & _). by destruct fs1. Qed.

Lemma build_maps_entries (fs : list filled_field) :
  NoDup (build_maps fs).1.*1 ∧ NoDup (build_maps fs).2.*1 ∧
  (∀ k v, (k, v) ∈ (build_maps fs).1 ↔ entry_of fs bracketed k v) ∧
  (∀ k v, (k, v) ∈ (build_maps fs).2 ↔ entry_of fs signature_line k v).
Proof.
  induction fs as [|f fs IH] using rev_ind.
  - repeat split; try apply NoDup_nil_2;
      try (by intros ?%elem_of_nil); by intros ?%entry_of_nil.
  - destruct IH as (N1 & N2 & H1 & H2). rewrite build_maps_snoc.
    unfold map_step. fold (user_val f).
    destruct (user_val f) as [|c u] eqn:Hu.
    + repeat split; try done.
      * intros H%H1. apply entry_of_snoc. by right.
      * intros [(_ & _ & <- & Hne)|[H _]]%entry_of_snoc; [done|by apply H1].
      * intros H%H2. apply entry_of_snoc. by right.
      * intros [(_ & _ & <- & Hne)|[H _]]%entry_of_snoc; [done|by apply H2].
    + assert (key_of f = match type (of_field f) with
                         | bracketed => value (of_field f)
                         | signature_line => label (of_field f) ++ [COLON]
                         end) as Hkey by done.
      destruct (type (of_field f)) eqn:Hty; simpl.
      * split; [by apply dict_set_keys|]. split; [done|]. split.
        -- intros k v. rewrite (dict_set_elem _ _ _ _ _ N1), entry_of_snoc, H1.
           rewrite Hty, Hkey, Hu. split.
           ++ intros [[-> ->]|[Hne H]]; [by left|]. right. split; [done|].
              intros _ E. by destruct Hne.
           ++ intros [(_ & <- & <- & _)|[H Hf]]; [by left|]. right.
              split; [|done]. intros ->. by specialize (Hf eq_refl eq_refl).
        -- intros k v. rewrite entry_of_snoc, H2, Hty. split.
           ++ intros H. right. by split.
           ++ intros [(? & _)|[H _]]; done.
      * split; [done|]. split; [by apply dict_set_keys|]. split.
        -- intros k v. rewrite entry_of_snoc, H1, Hty. split.
           ++ intros H. right. by split.
           ++ intros [(? & _)|[H _]]; done.
        -- intros k v. rewrite (dict_set_elem _ _ _ _ _ N2), entry_of_snoc, H2.
           rewrite Hty, Hkey, Hu. split.
           ++ intros [[-> ->]|[Hne H]]; [by left|]. right. split; [done|].
              intros _ E. by destruct Hne.
           ++ intros [(_ & <- & <- & _)|[H Hf]]; [by left|]. right.
              split; [|done]. intros ->. by specialize (Hf eq_refl eq_refl).
Qed.

(** ** What the injector does to a document *)

Lemma tree_nested_ind (P : tree → Prop) :
  (∀ ids tables, Forall (λ tb, Forall P tb.1) tables → P (Tree ids tables)) →
  ∀ c, P c.
Proof.
  intros H. fix IH 1. intros [ids tables]. apply H.
  apply Forall_all. intros [cells grid]. simpl. apply Forall_all. exact IH.
Qed.

Lemma foldlM_app {A B} (f : B → A → result B) (b : B) (l1 l2 : list A) :
  foldlM f b (l1 ++ l2) = (b' ← foldlM f b l1 ; foldlM f b' l2).
Proof.
  revert b. induction l1 as [|x l1 IH]; intros b; simpl; [done|].
  destruct (f b x) as [b'|e]; simpl; [apply IH|done].
Qed.


(** The recursion over containers reaches the paragraphs in the order
    [visits] gives, and rewrites the stored paragraph at each visit. *)
Lemma replace_text_in_place_visits bm sm (c : tree) (st : list paragraph) :
  replace_text_in_place bm sm c st
  = foldlM (visit_paragraph bm sm) st (visits c).
Proof.
  revert st. induction c as [ids tables IH] using tree_nested_ind.
  intros st. cbn [replace_text_in_place visits]. rewrite foldlM_app.
  destruct (foldlM (visit_paragraph bm sm) st ids) as [st'|e]; [|done].
  simpl. clear st. revert st'.
  induction IH as [|[cells grid] tables Hcells _ IHt]; intros st; [done|].
  cbn [List.map flat_map foldlM]. rewrite foldlM_app. simpl in Hcells.
  assert (∀ l st,
            foldlM (λ st idx,
                      match List.map (replace_text_in_place bm sm) cells !! idx
                      with Some f => f st | None => Ok st end) st l
            = foldlM (visit_paragraph bm sm) st
                (flat_map (λ idx, default [] (List.map visits cells !! idx)) l))
    as Hg.
  { clear -Hcells. induction l as [|idx l IHl]; intros st; [done|].
    cbn [flat_map foldlM]. rewrite foldlM_app.
    change (List.map ?h ?k) with (h <$> k). rewrite !list_lookup_fmap.
    destruct (cells !! idx) as [cell|] eqn:E; simpl.
    - rewrite (proj1 (Forall_forall _ _) Hcells cell
                 (list_elem_of_lookup_2 _ _ _ E)).
      destruct (foldlM _ st (visits cell)); simpl; [apply IHl|done].
    - apply IHl. }
  simpl. rewrite Hg.
  destruct (foldlM (visit_paragraph bm sm) st _) as [st'|e]; [|done].
  simpl. apply IHt.
Qed.








Lemma elem_of_flat_map {A B} (f : A → list B) (l : list A) (y : B) :
  y ∈ flat_map f l ↔ ∃ x, x ∈ l ∧ y ∈ f x.
Proof.
  rewrite list_elem_of_In, in_flat_map. split.
  - intros (x & H1 & H2). exists x. by rewrite !list_elem_of_In.
  - intros (x & H1 & H2). exists x. by rewrite <-!list_elem_of_In.
Qed.


Lemma forallb_eq_true {A} (f : A → bool) (l : list A) :
  forallb f l = true ↔ Forall (λ c, f c = true) l.
Proof.
  induction l as [|x l IH]; simpl; [by split; [constructor|]|].
  rewrite andb_true_iff, IH, Forall_cons. done.
Qed.




(** *** The order of the entries *)






(** Texts of plain characters: XML characters other than the carriage
    return.  An assignment of such a text is never refused and is read
    back as it is. *)
Lemma replace_go_elem (k v : pystr) (skip : nat) (s : pystr) (c : char) :
  c ∈ replace_go k v skip s → c ∈ v ∨ c ∈ s.
Proof.
  revert skip. induction s as [|x s IH]; intros skip; [by right|].
  cbn [replace_go]. destruct skip as [|n].
  - destruct (startswith k (x :: s)).
    + intros [?|H]%elem_of_app; [by left|].
      destruct (IH _ H); [by left|right; by apply list_elem_of_further].
    + intros [->|H]%elem_of_cons; [right; apply list_elem_of_here|].
      destruct (IH _ H); [by left|right; by apply list_elem_of_further].
  - intros H. destruct (IH _ H); [by left|right; by apply list_elem_of_further].
Qed.

Lemma replace_elem (k v s : pystr) (c : char) :
  c ∈ replace k v s → c ∈ v ∨ c ∈ s.
Proof.
  unfold replace. destruct k as [|d k]; [|apply replace_go_elem].
  intros [?|H]%elem_of_app; [by left|].
  apply elem_of_flat_map in H as (x & Hx & [->|H]%elem_of_cons);
    [by right|by left].
Qed.

Lemma read_back_plain (t : pystr) :
  Forall (λ c, plain c = true) t → read_back t = t.
Proof.
  unfold read_back. induction 1 as [|c t Hc _ IH]; [done|].
  cbn [List.map]. rewrite IH. unfold plain in Hc.
  apply andb_true_iff in Hc as [_ Hc]. by destruct (c =? CR)%N.
Qed.

Lemma assign_text_plain (t : pystr) (para : paragraph) :
  Forall (λ c, plain c = true) t → assign_text t para = Ok (set_text t para).
Proof.
  intros Ht. unfold assign_text, set_text. rewrite read_back_plain by done.
  rewrite (proj2 (forallb_eq_true xml_char t)); [done|].
  eapply Forall_impl; [exact Ht|]. simpl. unfold plain.
  by intros c [? _]%andb_true_iff.
Qed.

Lemma bracket_assign_plain (para : paragraph) (kv : pystr * pystr) :
  Forall (λ c, plain c = true) (text para) →
  Forall (λ c, plain c = true) kv.2 →
  bracket_assign para kv = Ok (bracket_step para kv)
  ∧ Forall (λ c, plain c = true) (text (bracket_step para kv)).
Proof.
  intros Ht Hv. unfold bracket_assign, bracket_step.
  destruct (contains kv.1 (text para)); [|done].
  assert (Forall (λ c, plain c = true) (replace kv.1 kv.2 (text para))) as Hr.
  { apply Forall_forall. intros c [H|H]%replace_elem.
    - by apply (proj1 (Forall_forall _ _) Hv).
    - by apply (proj1 (Forall_forall _ _) Ht). }
  split; [by apply assign_text_plain|done].
Qed.

Lemma sig_assign_plain (para : paragraph) (kv : pystr * pystr) :
  kv.1 ≠ [] →
  Forall (λ c, plain c = true) (text para) →
  Forall (λ c, plain c = true) kv.2 →
  sig_assign para kv = Ok (sig_step para kv)
  ∧ Forall (λ c, plain c = true) (text (sig_step para kv)).
Proof.
  intros Hk Ht Hv. unfold sig_assign, sig_step.
  destruct (contains kv.1 (text para)) eqn:Hc; [|done].
  destruct kv.1 as [|d k] eqn:Ek; [done|].
  destruct (rfind (d :: k) (text para)) as [i|] eqn:Hr.
  - assert (Forall (λ c, plain c = true)
              (take i (text para) ++ (d :: k) ++ [SP] ++ kv.2)) as Hs.
    { destruct (rfind_Some _ _ _ Hr) as [(a & b & Hab & Hlen) _].
      rewrite Hab in Ht. apply Forall_app in Ht as [Ha Ht].
      apply Forall_app in Ht as [Hkk _].
      rewrite Hab, <-Hlen, take_app_length.
      apply Forall_app. split; [done|]. apply Forall_app. split; [done|].
      apply Forall_app. split; [|done]. by repeat constructor. }
    split; [by apply assign_text_plain|done].
  - split; [by apply assign_text_plain|done].
Qed.

Lemma fill_paragraph_plain_text bm sm (para : paragraph) :
  Forall (λ kv, Forall (λ c, plain c = true) kv.2) (bm ++ sm) →
  Forall (λ kv, kv.1 ≠ []) sm →
  Forall (λ c, plain c = true) (text para) →
  fill_paragraph_in_place bm sm para = Ok (fill_paragraph bm sm para)
  ∧ Forall (λ c, plain c = true) (text (fill_paragraph bm sm para)).
Proof.
  intros [Hbm Hsm]%Forall_app Hks Ht.
  unfold fill_paragraph_in_place, fill_paragraph.
  assert (foldlM bracket_assign para bm = Ok (foldl bracket_step para bm)
          ∧ Forall (λ c, plain c = true) (text (foldl bracket_step para bm)))
    as [-> Ht'].
  { clear Hsm Hks. revert para Ht.
    induction Hbm as [|kv bm Hkv _ IH]; intros para Ht; [done|]. simpl.
    destruct (bracket_assign_plain para kv Ht Hkv) as [-> Ht']. simpl.
    by apply IH. }
  simpl. generalize dependent (foldl bracket_step para bm). clear Ht para.
  induction Hsm as [|kv sm Hkv _ IH]; intros para Ht; [done|]. simpl.
  apply Forall_cons in Hks as [Hk Hks].
  destruct (sig_assign_plain para kv Hk Ht Hkv) as [-> Ht']. simpl.
  by apply IH.
Qed.

Lemma fill_paragraph_plain bm sm (para : paragraph) :
  Forall (λ kv, Forall (λ c, plain c = true) kv.2) (bm ++ sm) →
  Forall (λ kv, kv.1 ≠ []) sm →
  Forall (λ c, plain c = true) (text para) →
  fill_paragraph_in_place bm sm para = Ok (fill_paragraph bm sm para).
Proof. intros. by apply fill_paragraph_plain_text. Qed.

Lemma sig_keys_not_empty (fs : list filled_field) :
  Forall (λ kv, kv.1 ≠ []) (build_maps fs).2.
Proof.
  apply Forall_forall. intros [k v] Hkv.
  apply (proj2 (proj2 (proj2 (build_maps_entries fs)))) in Hkv
    as (fs1 & f & fs2 & _ & Hty & Hk & _).
  unfold key_of in Hk. rewrite Hty in Hk. simpl. rewrite <-Hk.
  by destruct (label (of_field f)).
Qed.




(** ** The injector on values

    [fill_docx_placeholders] computes on the document as a reader sees
    it.  It gives what the injector leaves in place when every paragraph
    is visited once, which is so when no row yields a cell twice, and
    every character assigned is stored as it is. *)

Lemma visits_once bm sm (l : list nat) (st : list paragraph) :
  NoDup l →
  (∀ i para, i ∈ l → st !! i = Some para →
     fill_paragraph_in_place bm sm para = Ok (fill_paragraph bm sm para)) →
  ∃ st', foldlM (visit_paragraph bm sm) st l = Ok st'
         ∧ length st' = length st
         ∧ ∀ i, st' !! i = if decide (i ∈ l)
                           then fill_paragraph bm sm <$> st !! i
                           else st !! i.
Proof.
  intros Hnd. revert st. induction Hnd as [|j l Hj Hnd IH]; intros st HF.
  { exists st. split; [done|]. split; [done|]. intros i.
    by destruct (decide _) as [?%elem_of_nil|]. }
  cbn [foldlM].
  destruct (st !! j) as [pj|] eqn:Ej.
  - assert (visit_paragraph bm sm st j
            = Ok (<[j := fill_paragraph bm sm pj]> st)) as ->.
    { unfold visit_paragraph. rewrite Ej.
      by rewrite (HF j pj (list_elem_of_here _ _) Ej). }
    simpl.
    destruct (IH (<[j := fill_paragraph bm sm pj]> st))
      as (st' & -> & Hlen & Hall).
    { intros i para Hi Hl. apply (HF i); [by apply list_elem_of_further|].
      rewrite list_lookup_insert_ne in Hl; [done|]. by intros ->. }
    exists st'. split; [done|]. rewrite length_insert in Hlen.
    split; [done|]. intros i. rewrite Hall.
    destruct (decide (i = j)) as [->|Hne].
    + rewrite decide_False by done.
      rewrite decide_True by apply list_elem_of_here. rewrite Ej. simpl.
      apply list_lookup_insert_eq. by eapply lookup_lt_Some.
    + rewrite list_lookup_insert_ne by done.
      destruct (decide (i ∈ l)) as [Hi|Hi].
      * by rewrite decide_True by by apply list_elem_of_further.
      * rewrite decide_False; [done|]. by intros [?|?]%elem_of_cons.
  - assert (visit_paragraph bm sm st j = Ok st) as ->
      by (unfold visit_paragraph; by rewrite Ej).
    simpl. destruct (IH st) as (st' & -> & Hlen & Hall).
    { intros i para Hi Hl. apply (HF i); [by apply list_elem_of_further|done]. }
    exists st'. split; [done|]. split; [done|]. intros i. rewrite Hall.
    destruct (decide (i = j)) as [->|Hne].
    + rewrite decide_False by done.
      rewrite decide_True by apply list_elem_of_here. by rewrite Ej.
    + destruct (decide (i ∈ l)) as [Hi|Hi].
      * by rewrite decide_True by by apply list_elem_of_further.
      * rewrite decide_False; [done|]. by intros [?|?]%elem_of_cons.
Qed.

Lemma omap_lookup_rewrite (G : paragraph → paragraph)
    (st st' : list paragraph) (ids : list nat) :
  (∀ i, i ∈ ids → st' !! i = G <$> st !! i) →
  omap (λ i, st' !! i) ids = List.map G (omap (λ i, st !! i) ids).
Proof.
  induction ids as [|i ids IH]; intros H; [done|]. cbn [omap list_omap].
  rewrite (H i) by apply list_elem_of_here.
  destruct (st !! i); simpl; rewrite IH; try done;
    intros j Hj; by apply H, list_elem_of_further.
Qed.

(** When every paragraph the injector reaches has been rewritten once,
    the reader sees the value-level result. *)
Lemma listing_rewrite bm sm (st st' : list paragraph) (c : tree) :
  (∀ i, i ∈ visits c → st' !! i = fill_paragraph bm sm <$> st !! i) →
  listing st' c = replace_text_in_run_container bm sm (listing st c).
Proof.
  induction c as [ids tbs IH] using tree_nested_ind. intros H.
  cbn [listing replace_text_in_run_container]. f_equal.
  - apply omap_lookup_rewrite. intros i Hi. apply H. cbn [visits].
    apply elem_of_app. by left.
  - rewrite List.map_map. apply map_ext_in. intros tb Htb%list_elem_of_In.
    rewrite List.map_map. apply map_ext_in. intros row Hrow%list_elem_of_In.
    pose proof (proj1 (Forall_forall _ _) IH tb Htb) as IHtb.
    assert (∀ idx, idx ∈ row →
              (List.map (listing st') tb.1) !! idx
              = replace_text_in_run_container bm sm
                <$> (List.map (listing st) tb.1) !! idx) as Hcell.
    { intros idx Hidx. change (List.map ?h ?k) with (h <$> k).
      rewrite !list_lookup_fmap.
      destruct (tb.1 !! idx) as [cell|] eqn:E; [|done]. simpl. f_equal.
      apply (proj1 (Forall_forall _ _) IHtb cell
               (list_elem_of_lookup_2 _ _ _ E)).
      intros i Hi. apply H. cbn [visits]. apply elem_of_app. right.
      apply elem_of_flat_map. exists tb. split; [done|].
      apply elem_of_flat_map. exists idx. split.
      - apply list_elem_of_In, in_concat. exists row.
        by rewrite <-!list_elem_of_In.
      - change (List.map ?h ?k) with (h <$> k).
        by rewrite list_lookup_fmap, E. }
    clear -Hcell. induction row as [|idx row IHr]; [done|].
    cbn [omap list_omap]. rewrite (Hcell idx) by apply list_elem_of_here.
    destruct (List.map (listing st) tb.1 !! idx); simpl; rewrite IHr;
      try done; intros j Hj; by apply Hcell, list_elem_of_further.
Qed.

(** The value-level injector gives the view of the document the
    injector leaves, for a document in which no paragraph is reached
    twice and for texts and inputs of plain characters. *)
Lemma fill_docx_placeholders_view (doc : document) (fs : list filled_field) :
  NoDup (visits (body doc)) →
  Forall (λ para, Forall (λ c, plain c = true) (text para)) (store doc) →
  Forall (λ kv, Forall (λ c, plain c = true) kv.2)
         ((build_maps fs).1 ++ (build_maps fs).2) →
  ∃ doc', fill_docx_in_place doc fs = Ok doc'
          ∧ view doc' = fill_docx_placeholders (view doc) fs.
Proof.
  intros Hnd Hst Hmaps. unfold fill_docx_in_place, fill_docx_placeholders.
  rewrite replace_text_in_place_visits.
  destruct (visits_once (build_maps fs).1 (build_maps fs).2
              (visits (body doc)) (store doc) Hnd) as (st' & -> & Hlen & Hall).
  { intros i para _ Hi.
    apply fill_paragraph_plain; [done|apply sig_keys_not_empty|].
    apply (proj1 (Forall_forall _ _) Hst). by eapply list_elem_of_lookup_2. }
  simpl. eexists. split; [done|]. unfold view. simpl.
  apply listing_rewrite. intros i Hi. rewrite Hall.
  by rewrite decide_True by done.
Qed.

Example injector_example :
  let f := {| type := bracketed; value := py "[Co]"; label := [];
              start := 0; end_ := 4; line := 1; metadata := None |} in
  let g := {| type := signature_line; value := []; label := py "By";
              start := 12; end_ := 14; line := 2; metadata := None |} in
  let inner := ([Tree [1] []], [[0]]) in
  let doc := Document (Tree [0] [([Tree [] [inner]], [[0]])])
               [Paragraph (py "[Co] and [Co]") [];
                Paragraph (py "By:" ++ [TAB; TAB]) [Run true]] in
  let fs := [FilledField f (Some (py " Acme "));
             FilledField g (Some (py "Ann"))] in
  ∃ doc',
    fill_docx_in_place doc fs = Ok doc'
    ∧ List.map text (store doc') = [py "Acme and Acme"; py "By: Ann"]
    ∧ view doc' = fill_docx_placeholders (view doc) fs.
Proof.
  intros f g inner doc fs. eexists.
  split; [vm_compute; reflexivity|]. split; vm_compute; reflexivity.
Qed.

(** ** The upload path without hints *)

Lemma by_id_no_members (ps : list placeholder) (acc : gmap pystr guidance) :
  by_id [] ps acc = Ok acc.
Proof. revert acc. induction ps as [|p ps IH]; intros acc; simpl; auto. Qed.

Lemma by_number_no_members (i : nat) (ps : list placeholder)
    (acc : gmap pystr guidance) :
  by_number [] i ps acc = Ok acc.
Proof.
  revert i acc. induction ps as [|p ps IH]; intros i acc; simpl; auto.
Qed.

(** Without an API key, or when the model call gave [{}], the hint
    generator returns the empty mapping. *)
Lemma generate_field_guidance_empty (api_key : option pystr) (data : json)
    (ps : list placeholder) :
  api_key = None ∨ api_key = Some [] ∨ data = JObj [] →
  generate_field_guidance api_key data ps = Ok ∅.
Proof.
  intros [->|[->| ->]]; [done..|].
  unfold generate_field_guidance. destruct api_key as [[|c k]|]; [done| |done].
  rewrite by_id_no_members. simpl.
  rewrite bool_decide_eq_true_2 by done. apply by_number_no_members.
Qed.

(** A model answer that decodes to something other than an object is not
    an empty mapping: the first [data.get] raises. *)
Lemma generate_field_guidance_not_object (key : pystr) (p : placeholder)
    (ps : list placeholder) :
  key ≠ [] →
  generate_field_guidance (Some key) (JArr []) (p :: ps) = Raise AttributeError.
Proof. intros Hk. by destruct key. Qed.

Lemma attach_hints_empty (p : placeholder) :
  attach_hints ∅ p = Hinted p [] [] [].
Proof. unfold attach_hints. by rewrite lookup_empty. Qed.

(** Where the hint generator does return an empty mapping, the upload
    of a [.docx] file completes, returns every detected field, and gives
    each of them the empty string for [hint], [hint_long] and
    [demo_value]. *)
Theorem upload_tolerates_missing_hints (ci_eq : char → char → bool)
    (name : pystr) (doc : container) (api_key : option pystr) (data : json)
    (html : option pystr) :
  endswith (py ".docx") name = true →
  generate_field_guidance api_key data
    (sort_by (λ p, line (base p)) (detect_placeholders doc)) = Ok ∅ →
  ∃ resp,
    upload_document ci_eq name doc api_key data html = Ok resp
    ∧ List.map ph (placeholders resp)
      = sort_by (λ p, line (base p)) (detect_placeholders doc)
    ∧ Forall (λ h, hint h = [] ∧ hint_long h = [] ∧ demo_value h = [])
             (placeholders resp)
    ∧ ai_hints_enabled resp = false.
Proof.
  intros Hname Hg. unfold upload_document. rewrite Hname, Hg. simpl.
  eexists. split; [reflexivity|]. simpl. split; [|split].
  - rewrite List.map_map. simpl. apply List.map_id.
  - apply Forall_forall. intros h Hh.
    apply list_elem_of_In, in_map_iff in Hh as (p & <- & _).
    by rewrite attach_hints_empty.
  - by apply bool_decide_eq_false_2; intros [].
Qed.

Lemma upload_tolerates_missing_hints_witness :
  let doc := doc_of_texts [py "Pay [Sum]"; py "By:" ++ [TAB]] in
  ∃ resp,
    upload_document ascii_ci_eq (py "form.docx") doc None JAtom
                    (Some (py "<p>Pay [Sum]</p>")) = Ok resp
    ∧ List.map ph (placeholders resp)
      = sort_by (λ p, line (base p)) (detect_placeholders doc)
    ∧ Forall (λ h, hint h = [] ∧ hint_long h = [] ∧ demo_value h = [])
             (placeholders resp)
    ∧ ai_hints_enabled resp = false.
Proof.
  intros doc.
  exact (upload_tolerates_missing_hints ascii_ci_eq (py "form.docx") doc None
           JAtom (Some (py "<p>Pay [Sum]</p>")) eq_refl eq_refl).
Defined.

(** Claim C8.  A malformed answer of the model is not swallowed.  With
    an API key set and a document with one field, an answer that decodes
    to a JSON array, or to an object whose entry for the field has [null]
    for [micro], makes [generate_field_guidance] raise [AttributeError]
    ([data.get] on a list, [strip] on [None]) instead of returning the
    empty mapping, and the upload, which calls it outside any [try],
    raises with it and returns no response.  The same upload with the
    answer [{}] returns its response. *)
Theorem upload_raises_on_malformed_answer :
  let doc := doc_of_texts [py "Pay [Sum]"] in
  let ps := sort_by (λ p, line (base p)) (detect_placeholders doc) in
  let key := Some (py "sk-test") in
  let null_micro :=
    JObj [(py "bracketed@L1@0",
           JObj [(py "micro", JAtom); (py "long", JStr (py "The sum"))])] in
  List.map id ps = [py "bracketed@L1@0"]
  ∧ generate_field_guidance key (JArr []) ps = Raise AttributeError
  ∧ upload_document ascii_ci_eq (py "form.docx") doc key (JArr [])
      (Some (py "<p>Pay [Sum]</p>")) = Raise AttributeError
  ∧ generate_field_guidance key null_micro ps = Raise AttributeError
  ∧ upload_document ascii_ci_eq (py "form.docx") doc key null_micro
      (Some (py "<p>Pay [Sum]</p>")) = Raise AttributeError
  ∧ ∃ resp,
      upload_document ascii_ci_eq (py "form.docx") doc key (JObj [])
        (Some (py "<p>Pay [Sum]</p>")) = Ok resp
      ∧ Forall (λ h, hint h = [] ∧ hint_long h = [] ∧ demo_value h = [])
               (placeholders resp).
Proof.
  intros doc ps key null_micro.
  do 5 (split; [vm_compute; reflexivity|]).
  eexists. split; [vm_compute; reflexivity|].
  repeat constructor.
Qed.

(** ** Alignment of signature lines *)

Section AlignerProperties.
Variable ci_eq : char → char → bool.

Lemma align_from_app st (l1 l2 : list placeholder) :
  align_from ci_eq st (l1 ++ l2) = align_from ci_eq (align_from ci_eq st l1) l2.
Proof. unfold align_from. apply foldl_app. Qed.

(** The signature branch reads the counter of the label, [0] when the
    label is new, and takes the match at that index. *)
Lemma align_step_signature st (p : placeholder) :
  type (base p) = signature_line →
  (align_step ci_eq st p).1
  = aligned_to st.1 p (default 0 (st.2 !! label (base p))).
Proof.
  intros Hty. unfold align_step, aligned_to. rewrite Hty.
  destruct (st.2 !! label (base p)) as [n|] eqn:E; simpl.
  - rewrite E. simpl. by destruct (finditer _ _ !! n) as [[a b]|].
  - rewrite lookup_insert_eq. simpl.
    by destruct (finditer _ _ !! 0) as [[a b]|].
Qed.

Lemma align_step_counter st (q : placeholder) (lbl : pystr) :
  default 0 ((align_step ci_eq st q).2 !! lbl)
  = default 0 (st.2 !! lbl)
    + (if bool_decide (type (base q) = signature_line
                       ∧ label (base q) = lbl
                       ∧ is_Some (signature_match st q))
       then 1 else 0).
Proof.
  unfold align_step, signature_match.
  destruct (type (base q)) eqn:Hty.
  - rewrite bool_decide_eq_false_2 by (by intros [? _]).
    destruct (search _ _) as [[a b]|]; simpl; [lia|].
    destruct (contains _ _); simpl; lia.
  - set (l := label (base q)).
    set (n := default 0 (st.2 !! l)).
    assert (∃ lc, (match st.2 !! l with
                   | None => <[l := 0]> st.2
                   | Some _ => st.2
                   end) = lc
                  ∧ default 0 (lc !! l) = n
                  ∧ ∀ k, k ≠ l → lc !! k = st.2 !! k) as (lc & -> & Hn & Hk).
    { eexists. split; [done|]. subst n. destruct (st.2 !! l) eqn:E.
      - by rewrite E.
      - rewrite lookup_insert_eq. split; [done|].
        intros k Hne. by rewrite lookup_insert_ne. }
    rewrite Hn. destruct (decide (l = lbl)) as [<-|Hne].
    + destruct (finditer (signature_re l) st.1 !! n) as [[a b]|] eqn:Em;
        simpl.
      * rewrite lookup_insert_eq, bool_decide_eq_true_2 by eauto. simpl. lia.
      * rewrite bool_decide_eq_false_2
          by (intros (_ & _ & [? ?]); congruence).
        rewrite Hn. lia.
    + rewrite bool_decide_eq_false_2 by (by intros (_ & ? & _)).
      destruct (finditer (signature_re l) st.1 !! n) as [[a b]|]; simpl.
      * rewrite lookup_insert_ne by done. rewrite Hk by done. lia.
      * rewrite Hk by done. lia.
Qed.

(** The counter of a label is the number of markers inserted for it. *)
Lemma align_from_counter (ps : list placeholder) st (lbl : pystr) :
  default 0 ((align_from ci_eq st ps).2 !! lbl)
  = default 0 (st.2 !! lbl) + markers_placed ci_eq st lbl ps.
Proof.
  revert st. induction ps as [|q ps IH]; intros st; simpl; [lia|].
  change (align_from ci_eq st (q :: ps))
    with (align_from ci_eq (align_step ci_eq st q) ps).
  rewrite IH, align_step_counter. lia.
Qed.

Lemma markers_placed_app st (lbl : pystr) (l1 l2 : list placeholder) :
  markers_placed ci_eq st lbl (l1 ++ l2)
  = markers_placed ci_eq st lbl l1
    + markers_placed ci_eq (align_from ci_eq st l1) lbl l2.
Proof.
  revert st. induction l1 as [|q l1 IH]; intros st; simpl; [done|].
  rewrite IH.
  change (align_from ci_eq st (q :: l1))
    with (align_from ci_eq (align_step ci_eq st q) l1). lia.
Qed.

(** What the loop does for a signature line.  Fields are taken in
    ascending [start] order over the HTML as rewritten so far.  A field
    with label [L] takes the match of its pattern whose index, counted
    from [0], is the number of earlier fields with label [L] that
    received a marker: that match is replaced by [L:], a space and the
    marker of the field.  When there is no match at that index the HTML
    stays as it is.  The index of the next field with label [L] is one
    more exactly when a marker was inserted. *)
Theorem signature_alignment_follows_counter (html : pystr)
    (placeholders : list placeholder) (i : nat) (p : placeholder) :
  let sorted := sort_by (λ q, start (base q)) placeholders in
  sorted !! i = Some p →
  type (base p) = signature_line →
  let lbl := label (base p) in
  let st := align_from ci_eq (html, ∅) (take i sorted) in
  let c := markers_placed ci_eq (html, ∅) lbl (take i sorted) in
  let st' := align_step ci_eq st p in
  st'.1 = aligned_to st.1 p c
  ∧ markers_placed ci_eq (html, ∅) lbl (take (S i) sorted)
    = c + match finditer (signature_re lbl) st.1 !! c with
          | Some _ => 1
          | None => 0
          end
  ∧ create_marked_html ci_eq html placeholders
    = (align_from ci_eq st' (drop (S i) sorted)).1.
Proof.
  intros sorted Hi Hty lbl st c st'.
  assert (default 0 (st.2 !! label (base p)) = c) as Hc.
  { subst st c lbl. rewrite align_from_counter. simpl.
    by rewrite lookup_empty. }
  split; [|split].
  - subst st'. by rewrite align_step_signature, Hc.
  - subst lbl. rewrite (take_S_r _ _ _ Hi), markers_placed_app.
    fold st c. simpl. f_equal.
    unfold signature_match. rewrite Hc.
    destruct (finditer (signature_re (label (base p))) st.1 !! c)
      as [m|] eqn:E.
    + rewrite bool_decide_eq_true_2; [done|]. by eauto.
    + rewrite bool_decide_eq_false_2; [done|].
      intros (_ & _ & [? ?]). congruence.
  - unfold create_marked_html. fold sorted.
    rewrite <-(take_drop_middle sorted i p Hi) at 1.
    by rewrite align_from_app.
Qed.
End AlignerProperties.

Lemma signature_alignment_follows_counter_witness :
  let html := py "<p>By:" ++ [TAB] ++ py "</p>" in
  let p := {| base := {| type := signature_line; value := []; label := py "By";
                         start := 3; end_ := 4; line := 1;
                         metadata := Some (Metadata 1 0 false) |};
              id := py "signature_line@L1@0";
              context := py "By: " |} in
  sort_by (λ q, start (base q)) [p] !! 0 = Some p
  ∧ (align_step ascii_ci_eq (html, ∅) p).1 = aligned_to html p 0
  ∧ create_marked_html ascii_ci_eq html [p]
    = py "<p>By: " ++ marker_of (py "signature_line@L1@0").
Proof.
  intros html p.
  destruct (signature_alignment_follows_counter ascii_ci_eq html [p] 0 p
              eq_refl eq_refl) as (H1 & _ & H3).
  split; [reflexivity|]. split; [exact H1|].
  rewrite H3. vm_compute. reflexivity.
Defined.

(** Scenario D of the specification: three lines labelled "Signature"
    take the three matches in order. *)
Example scenario_D :
  let line := py "Signature:" ++ [TAB] in
  let html := py "<p>" ++ line ++ py "</p><p>" ++ line ++ py "</p><p>" ++ line
              ++ py "</p>" in
  create_marked_html ascii_ci_eq html
    (detect_placeholders (doc_of_texts [line; line; line]))
  = py "<p>Signature: " ++ marker_of (py "signature_line@L1@0")
    ++ py "Signature: " ++ marker_of (py "signature_line@L2@1")
    ++ py "Signature: " ++ marker_of (py "signature_line@L3@2").
Proof. vm_compute. reflexivity. Qed.

(** Claim C5.  The code does not do what the claim and its own
    comments say.  The document has the paragraphs "A :<tab>", "A:[X]"
    and "A :<tab>".  The first signature line finds no match of its
    pattern, and the counter of its label stays at [0] although a field
    with that label has been seen.  The marker of the bracketed token then
    makes "A:" followed by a tag.  The second signature line, the second
    field with label "A", takes match [0]: "A:" and the opening tag of
    the marker of the bracketed field, which holds no white space after
    the colon.  The tag is overwritten, so the marker of the bracketed
    field is gone from the result, and the marker of the signature line
    stands in the paragraph of the bracketed field. *)
Theorem second_field_takes_first_match :
  let doc := doc_of_texts [py "A :" ++ [TAB]; py "A:[X]"; py "A :" ++ [TAB]] in
  let html := py "<p>A :" ++ [TAB] ++ py "</p><p>A:[X]</p><p>A :" ++ [TAB]
              ++ py "</p>" in
  let sorted := sort_by (λ q, start (base q)) (detect_placeholders doc) in
  let st := align_from ascii_ci_eq (html, ∅) (take 2 sorted) in
  let result := create_marked_html ascii_ci_eq html (detect_placeholders doc) in
  List.map (λ q, (type (base q), label (base q), id q)) sorted
  = [(signature_line, py "A", py "signature_line@L1@0");
     (bracketed, [], py "bracketed@L2@1");
     (signature_line, py "A", py "signature_line@L3@2")]
  ∧ finditer (signature_re (py "A")) html = []
  ∧ st.2 !! py "A" = Some 0
  ∧ finditer (signature_re (py "A")) st.1 = [(14, 74)]
  ∧ slice 14 74 st.1
    = py "A:<span class=" ++ [QUOTE] ++ py "field-marker" ++ [QUOTE]
      ++ py " data-field-id=" ++ [QUOTE] ++ py "bracketed@L2@1" ++ [QUOTE]
      ++ py ">"
  ∧ result
    = py "<p>A :" ++ [TAB] ++ py "</p><p>A: "
      ++ marker_of (py "signature_line@L3@2")
      ++ py "__MARKER_bracketed@L2@1__</span></p><p>A :" ++ [TAB] ++ py "</p>"
  ∧ contains (marker_of (py "bracketed@L2@1")) st.1 = true
  ∧ contains (marker_of (py "bracketed@L2@1")) result = false
  ∧ contains (marker_of (py "signature_line@L1@0")) result = false
  ∧ ¬ nth_field_takes_nth_match ascii_ci_eq html (detect_placeholders doc).
Proof.
  intros doc html sorted st result.
  do 9 (split; [vm_compute; reflexivity|]).
  intros H. red in H.
  destruct (sort_by (λ q, start (base q)) (detect_placeholders doc) !! 2)
    as [p|] eqn:E; [|by vm_compute in E].
  specialize (H 2 p E). vm_compute in E. injection E as <-.
  specialize (H eq_refl). apply (f_equal length) in H.
  vm_compute in H. discriminate H.
Qed.

(** ** Replacing a token that sits in the text *)








(** ** Detection after filling *)




(** A bracketed field starts at a dollar sign or an opening bracket. *)
Lemma detect_bracketed_head (full_text : pystr) (f : field) :
  f ∈ detect_bracketed full_text →
  ∃ c, full_text !! start f = Some c ∧ (c = LBRACKET ∨ c = DOLLAR).
Proof.
  intros (_ & Hv & Htok & _)%detect_bracketed_spec.
  apply is_token_head in Htok as (c & w & E & Hc).
  exists c. split; [|done]. rewrite Hv in E. unfold slice in E.
  assert (take (end_ f - start f) (drop (start f) full_text) !! 0 = Some c)
    as H0 by (by rewrite E).
  apply lookup_take_Some in H0 as [H0 _]. rewrite lookup_drop in H0.
  by rewrite Nat.add_0_r in H0.
Qed.

(** *** The document a reader sees, before and after *)







(** *** One paragraph under the two loops *)











(** * Further properties *)

(** ** The matcher finds a match where the pattern has a word *)

Lemma star_loop_S (mr : pystr → (pystr → option pystr) → option pystr)
    (k : pystr → option pystr) (n : nat) (s : pystr) :
  star_loop mr k (S n) s
  = match mr s (λ s', if length s' <? length s then star_loop mr k n s'
                      else None) with
    | Some x => Some x
    | None => k s
    end.
Proof. reflexivity. Qed.

Lemma star_loop_complete (r : regex)
    (mr : pystr → (pystr → option pystr) → option pystr) :
  (∀ w, matches r w →
        ∀ s' k, is_Some (k s') → is_Some (mr (w ++ s') k)) →
  ∀ w, matches (Star r) w →
       ∀ n s' k, length (w ++ s') ≤ n → is_Some (k s') →
                 is_Some (star_loop mr k n (w ++ s')).
Proof.
  intros Hmr w Hw. remember (Star r) as r' eqn:Er.
  induction Hw as [| | | | |r0|r0 w1 w2 H1 _ H2 IH2]; try done.
  - intros [|n] s' k _ Hk; simpl; [done|]. by destruct (mr s' _).
  - injection Er as ->. specialize (IH2 eq_refl).
    intros n s' k Hn Hk. destruct w1 as [|c w1]; [by apply IH2|].
    destruct n as [|n]; [simpl in Hn; lia|]. rewrite star_loop_S.
    rewrite <-app_assoc.
    destruct (Hmr (c :: w1) H1 (w2 ++ s')
                (λ s'', if length s'' <? length ((c :: w1) ++ w2 ++ s')
                        then star_loop mr k n s'' else None)) as [x Hx].
    + rewrite (proj2 (Nat.ltb_lt _ _))
        by (rewrite (length_app (c :: w1)); simpl; lia).
      apply IH2; [|done]. rewrite <-app_assoc in Hn.
      rewrite (length_app (c :: w1)) in Hn. simpl in Hn. lia.
    + by rewrite Hx.
Qed.

Lemma re_match_complete (r : regex) (w : pystr) :
  matches r w →
  ∀ s' k, is_Some (k s') → is_Some (re_match r (w ++ s') k).
Proof.
  revert w. induction r as [|p|r1 IH1 r2 IH2|r1 IH1 r2 IH2|r IH];
    intros w Hw s' k Hk.
  - inversion Hw; subst. done.
  - apply matches_chr_inv in Hw as (c & -> & Hc). simpl. by rewrite Hc.
  - apply matches_cat_inv in Hw as (w1 & w2 & -> & H1 & H2).
    simpl. rewrite <-app_assoc. apply IH1; [done|]. by apply IH2.
  - simpl. inversion Hw as [| | |? ? ? H1|? ? ? H2| |]; subst.
    + destruct (IH1 _ H1 s' k Hk) as [x ->]. done.
    + destruct (re_match r1 (w ++ s') k); [done|]. by apply IH2.
  - simpl. by apply (star_loop_complete r _ IH).
Qed.

Lemma match_at_complete (r : regex) (w rest : pystr) :
  matches r w → is_Some (match_at r (w ++ rest)).
Proof.
  intros Hw. unfold match_at.
  destruct (re_match_complete r w Hw rest Some) as [x ->]; [done|]. done.
Qed.

Lemma match_at_positive (r : regex) (s : pystr) (n : nat) :
  nonempty_words r → match_at r s = Some n → 0 < n.
Proof.
  intros Hr [Hn Hm]%match_at_sound. apply Hr in Hm.
  destruct n; [|lia]. by rewrite take_0 in Hm.
Qed.

(** [re.search] finds a match at or before any place where a word of
    the pattern begins. *)
Lemma search_go_complete (r : regex) (s : pystr) (pos p : nat)
    (w rest : pystr) :
  drop p s = w ++ rest → p ≤ length s → matches r w →
  ∃ a b, search_go r pos s = Some (a, b) ∧ a ≤ pos + p.
Proof.
  revert pos p. induction s as [|c s IH]; intros pos p Hd Hp Hw.
  - rewrite drop_nil in Hd. symmetry in Hd.
    apply app_eq_nil in Hd as [-> ->].
    destruct (match_at_complete r [] [] Hw) as [n Hn]. simpl in Hn.
    simpl. rewrite Hn. eexists _, _. split; [done|lia].
  - simpl. destruct (match_at r (c :: s)) as [n|] eqn:E.
    + eexists _, _. split; [done|lia].
    + destruct p as [|p].
      * simpl in Hd. rewrite Hd in E.
        destruct (match_at_complete r w rest Hw) as [n Hn]. congruence.
      * simpl in Hd, Hp.
        destruct (IH (S pos) p Hd ltac:(lia) Hw) as (a & b & Hs & Ha).
        exists a, b. split; [done|lia].
Qed.

(** [re.finditer] leaves no word of the pattern outside its matches: a
    place where a word begins lies inside one of them. *)
Lemma finditer_go_complete (r : regex) (s : pystr) (skip pos p : nat)
    (w rest : pystr) :
  nonempty_words r →
  drop p s = w ++ rest → matches r w → skip ≤ p →
  ∃ a b, (a, b) ∈ finditer_go r skip pos s ∧ a ≤ pos + p ∧ pos + p < b.
Proof.
  intros Hr. revert skip pos p. induction s as [|c s IH];
    intros skip pos p Hd Hw Hskip.
  - rewrite drop_nil in Hd. symmetry in Hd.
    apply app_eq_nil in Hd as [-> _]. by apply Hr in Hw.
  - simpl. destruct skip as [|skip].
    + destruct (match_at r (c :: s)) as [n|] eqn:E.
      * pose proof (match_at_positive _ _ _ Hr E) as Hn.
        destruct (decide (p < n)) as [Hlt|Hge].
        -- exists pos, (pos + n). split; [apply list_elem_of_here|lia].
        -- destruct p as [|p]; [lia|]. simpl in Hd.
           destruct (IH (n - 1) (S pos) p Hd Hw ltac:(lia))
             as (a & b & Hin & Ha & Hb).
           exists a, b. split; [by apply list_elem_of_further|lia].
      * destruct p as [|p].
        -- simpl in Hd. rewrite Hd in E.
           destruct (match_at_complete r w rest Hw) as [n Hn]. congruence.
        -- simpl in Hd.
           destruct (IH 0 (S pos) p Hd Hw ltac:(lia))
             as (a & b & Hin & Ha & Hb).
           exists a, b. split; [done|lia].
    + destruct p as [|p]; [lia|]. simpl in Hd.
      destruct (IH skip (S pos) p Hd Hw ltac:(lia))
        as (a & b & Hin & Ha & Hb).
      exists a, b. split; [done|lia].
Qed.

(** ** No bracketed token is missed *)

Lemma matches_star_chr_all p (w : pystr) :
  Forall (λ c, p c = true) w → matches (Star (Chr p)) w.
Proof.
  induction 1 as [|c w Hc _ IH]; [apply matches_star_nil|].
  apply (matches_star_cons (Chr p) [c] w); [by apply matches_chr|done].
Qed.

Lemma matches_plus_chr_all p (w : pystr) :
  w ≠ [] → Forall (λ c, p c = true) w → matches (Plus (Chr p)) w.
Proof.
  intros Hne Hall. destruct w as [|c w]; [done|].
  apply Forall_cons in Hall as [Hc Hall].
  apply (matches_cat (Chr p) (Star (Chr p)) [c] w);
    [by apply matches_chr|by apply matches_star_chr_all].
Qed.

Lemma matches_lit_self (k : pystr) : matches (Lit k) k.
Proof.
  induction k as [|c k IH]; simpl; [apply matches_eps|].
  apply (matches_cat _ _ [c] k); [|done].
  apply matches_chr, N.eqb_refl.
Qed.

Lemma line_token_matches (w : pystr) :
  is_line_token w → matches bracket_re w.
Proof.
  intros (pre & body & -> & Hpre & Hne & Hrb & Hnl). unfold bracket_re.
  apply matches_cat.
  { destruct Hpre as [->| ->].
    - apply matches_alt_r, matches_eps.
    - apply matches_alt_l, matches_chr, N.eqb_refl. }
  apply (matches_cat _ _ [LBRACKET]); [apply matches_chr, N.eqb_refl|].
  apply (matches_cat _ _ []); [apply matches_star_nil|].
  apply matches_cat.
  { apply matches_plus_chr_all; [done|]. apply Forall_forall. intros c Hc.
    apply andb_true_iff. split; apply negb_true_iff, N.eqb_neq; by intros ->. }
  apply (matches_cat _ _ []); [apply matches_star_nil|].
  apply matches_chr, N.eqb_refl.
Qed.

Lemma bracket_re_nonempty : nonempty_words bracket_re.
Proof.
  intros w Hw%bracket_re_token%is_token_length ->. simpl in Hw. lia.
Qed.

(** The first occurrence of a character splits a string in one way. *)
Lemma first_char_split (c : char) (a x b y : pystr) :
  a ++ c :: x = b ++ c :: y → c ∉ a → c ∉ b → a = b.
Proof.
  revert b. induction a as [|d a IH]; intros [|e b] E Ha Hb; simplify_eq/=.
  - done.
  - destruct Hb. apply list_elem_of_here.
  - destruct Ha. apply list_elem_of_here.
  - f_equal. eapply IH; [done|..].
    + intros ?. apply Ha. by apply list_elem_of_further.
    + intros ?. apply Hb. by apply list_elem_of_further.
Qed.

Lemma token_prefix_unique (w1 w2 r1 r2 : pystr) :
  is_token w1 → is_token w2 → w1 ++ r1 = w2 ++ r2 → w1 = w2.
Proof.
  intros (p1 & b1 & -> & Hp1 & _ & Hb1) (p2 & b2 & -> & Hp2 & _ & Hb2) E.
  assert (p1 = p2) as <-.
  { destruct Hp1 as [->| ->], Hp2 as [->| ->]; simpl in E; try done;
      injection E as E _; by vm_compute in E. }
  rewrite <-!app_assoc in E. apply app_inv_head in E.
  simpl in E. injection E as E. rewrite <-!app_assoc in E. simpl in E.
  by rewrite (first_char_split _ _ _ _ _ E Hb1 Hb2).
Qed.

Lemma line_token_is_token (w : pystr) : is_line_token w → is_token w.
Proof.
  intros (pre & body & -> & Hpre & Hne & Hrb & _). by exists pre, body.
Qed.

(** Property X1.  Wherever the full text holds a token written on one
    line, a bracketed field covers the place where it begins; a field
    that begins at that very place has the token as its [value]. *)
Theorem line_tokens_are_detected (before w after : pystr) :
  is_line_token w →
  ∃ f, f ∈ detect_bracketed (before ++ w ++ after)
       ∧ start f ≤ length before ∧ length before < end_ f
       ∧ (start f = length before → value f = w).
Proof.
  intros Hw. set (ft := before ++ w ++ after).
  destruct (finditer_go_complete bracket_re ft 0 0 (length before) w after)
    as (a & b & Hin & Ha & Hb).
  - apply bracket_re_nonempty.
  - unfold ft. by rewrite drop_app_length.
  - by apply line_token_matches.
  - lia.
  - exists {| type := bracketed; value := slice a b ft; label := [];
              start := a; end_ := b; line := line_of ft a;
              metadata := None |}.
    split; [|simpl; split; [lia|split; [lia|]]].
    + unfold detect_bracketed. apply list_elem_of_In, in_map_iff.
      exists (a, b). split; [done|]. by apply list_elem_of_In.
    + intros ->. apply finditer_sound in Hin as (Hab & Hble & Hm).
      apply bracket_re_token in Hm.
      apply (token_prefix_unique _ _
               (drop (b - length before) (w ++ after)) after);
        [done|by apply line_token_is_token|].
      unfold slice, ft. rewrite drop_app_length. apply take_drop.
Qed.

Lemma line_tokens_are_detected_witness :
  is_line_token (py "$[Sum]")
  ∧ ∃ f, f ∈ detect_bracketed (py "Pay " ++ py "$[Sum]" ++ py " now")
         ∧ start f ≤ 4 ∧ 4 < end_ f
         ∧ (start f = 4 → value f = py "$[Sum]").
Proof.
  assert (is_line_token (py "$[Sum]")) as Hw.
  { exists [DOLLAR], (py "Sum"). split; [reflexivity|].
    split; [by right|]. split; [done|].
    split; apply (bool_decide_unpack _); vm_compute; exact I. }
  split; [exact Hw|].
  exact (line_tokens_are_detected (py "Pay ") (py "$[Sum]") (py " now") Hw).
Defined.

(** ** Alignment finds what is there *)

Section AlignerCompleteness.
Variable ci_eq : char → char → bool.
Hypothesis ci_eq_refl : ∀ c, ci_eq c c = true.

Lemma matches_tags_nil : matches tags_re [].
Proof. apply matches_star_nil. Qed.

(** The pattern built from a value matches the value itself. *)
Lemma bracketed_pattern_self (in_bracket : bool) (v : pystr) :
  matches (bracketed_pattern ci_eq in_bracket v) v.
Proof.
  revert in_bracket. induction v as [|c v IH]; intros in_bracket; simpl.
  - apply matches_eps.
  - assert (∀ (p : char → bool) r, p c = true → matches r v →
              matches (Cat (Cat (Chr p) tags_re) r) (c :: v)) as Hhead.
    { intros p r Hp Hr. apply (matches_cat _ _ [c] v); [|done].
      apply (matches_cat _ _ [c] []);
        [by apply matches_chr|apply matches_tags_nil]. }
    destruct (c =? LBRACKET)%N eqn:E1.
    { apply Hhead; [|done]. by rewrite N.eqb_sym. }
    destruct (c =? RBRACKET)%N eqn:E2.
    { apply (matches_cat _ _ [c] v); [|done].
      apply (matches_cat _ _ [] [c]); [apply matches_tags_nil|].
      apply matches_chr. by rewrite N.eqb_sym. }
    destruct (c =? DOLLAR)%N eqn:E3.
    { apply Hhead; [|done]. by rewrite N.eqb_sym. }
    destruct (in_bracket && _).
    + by apply Hhead.
    + apply (matches_cat _ _ [c] v); [by apply matches_chr|done].
Qed.
(** Property X2.  When the value of a bracketed field occurs in the HTML,
    the tag-tolerant pattern matches at or before its first occurrence
    and the marker replaces that match: the literal replacement that
    follows in the source is never reached. *)
Theorem bracketed_value_is_marked (st : pystr * gmap pystr nat)
    (p : placeholder) :
  type (base p) = bracketed →
  contains (value (base p)) st.1 = true →
  ∃ a b,
    search (bracketed_pattern ci_eq false (value (base p))) st.1 = Some (a, b)
    ∧ align_step ci_eq st p
      = (take a st.1 ++ marker_of (id p) ++ drop b st.1, st.2)
    ∧ ∀ i, occurs_at (value (base p)) st.1 i → a ≤ i.
Proof.
  intros Hty [i0 Hi0]%contains_iff.
  assert (∀ i, occurs_at (value (base p)) st.1 i →
            ∃ a b, search (bracketed_pattern ci_eq false (value (base p))) st.1
                   = Some (a, b) ∧ a ≤ i) as Hall.
  { intros i (x & y & E & Hlen).
    destruct (search_go_complete
                (bracketed_pattern ci_eq false (value (base p))) st.1 0 i
                (value (base p)) y) as (a & b & Hs & Ha).
    - by rewrite E, <-Hlen, drop_app_length.
    - rewrite E, length_app. lia.
    - apply bracketed_pattern_self.
    - exists a, b. split; [done|lia]. }
  destruct (Hall i0 Hi0) as (a & b & Hs & _). exists a, b.
  split; [done|]. split.
  - unfold align_step. by rewrite Hty, Hs.
  - intros i Hi. destruct (Hall i Hi) as (a' & b' & Hs' & Hle). congruence.
Qed.

Lemma signature_re_prefix (lbl w : pystr) :
  matches (signature_re lbl) w → ∃ w', w = (lbl ++ [COLON]) ++ w' ∧ w' ≠ [].
Proof.
  intros (w1 & w2 & -> & ->%matches_lit & H2)%matches_cat_inv.
  exists w2. split; [done|].
  apply matches_cat_inv in H2 as (u1 & u2 & -> & H1 & _).
  inversion H1 as [| | |? ? ? Ht|? ? ? Hs| |]; subst.
  - apply matches_cat_inv in Ht as (t1 & t2 & -> & (c & -> & _)%matches_chr_inv & _).
    done.
  - by apply matches_chr_inv in Hs as (c & -> & _).
Qed.

Lemma signature_re_nonempty (lbl : pystr) : nonempty_words (signature_re lbl).
Proof.
  intros w (w' & -> & _)%signature_re_prefix. by destruct lbl.
Qed.

(** Property X3.  The first signature line with a given label receives
    a marker whenever the HTML holds the label, a colon and a white-space
    character: the match taken begins at or before that place, begins
    with the label and the colon, and the counter of the label becomes 1. *)
Theorem new_label_is_marked (st : pystr * gmap pystr nat) (p : placeholder)
    (x y : pystr) (c : char) :
  type (base p) = signature_line →
  st.2 !! label (base p) = None →
  st.1 = x ++ (label (base p) ++ [COLON]) ++ c :: y →
  is_space c = true →
  ∃ a b,
    align_step ci_eq st p
    = (take a st.1 ++ (label (base p) ++ [COLON]) ++ [SP] ++ marker_of (id p)
       ++ drop b st.1,
       <[label (base p) := 1]> (<[label (base p) := 0]> st.2))
    ∧ a ≤ length x ∧ a < b ∧ b ≤ length st.1
    ∧ startswith (label (base p) ++ [COLON]) (slice a b st.1) = true.
Proof.
  intros Hty Hnew Hhtml Hc. set (lbl := label (base p)) in *.
  set (w := (lbl ++ [COLON]) ++ [c]).
  assert (matches (signature_re lbl) w) as Hw.
  { apply matches_cat; [apply matches_lit_self|].
    apply (matches_cat _ _ [c] []); [|apply matches_star_nil].
    apply matches_alt_r. by apply matches_chr. }
  destruct (finditer_go_complete (signature_re lbl) st.1 0 0 (length x) w y)
    as (a' & b' & Hin & Ha' & Hb').
  { apply signature_re_nonempty. }
  { rewrite Hhtml, drop_app_length. unfold w. by rewrite <-!app_assoc. }
  { done. }
  { lia. }
  fold (finditer (signature_re lbl) st.1) in Hin.
  destruct (finditer (signature_re lbl) st.1) as [|[a b] ms] eqn:Em;
    [by apply elem_of_nil in Hin|].
  assert ((a, b) ∈ finditer (signature_re lbl) st.1) as Hab
    by (rewrite Em; apply list_elem_of_here).
  pose proof Hab as (Hle & Hble & Hm)%finditer_sound.
  pose proof Hm as (w' & Ew & Hne)%signature_re_prefix.
  assert (a < b) as Hlt.
  { destruct (decide (a < b)); [done|]. exfalso.
    apply (signature_re_nonempty lbl _ Hm). unfold slice.
    replace (b - a) with 0 by lia. apply take_0. }
  exists a, b. split; [|split; [|split; [done|split; [done|]]]].
  - unfold align_step. rewrite Hty. fold lbl. rewrite Hnew.
    rewrite lookup_insert_eq. simpl. by rewrite Em.
  - apply elem_of_cons in Hin as [[= -> ->]|Hin]; [lia|].
    apply list_elem_of_lookup in Hin as [j Hj].
    pose proof (finditer_go_ordered (signature_re lbl) st.1 0 0 0 (S j)
                  a b a' b') as Hord.
    fold (finditer (signature_re lbl) st.1) in Hord. rewrite Em in Hord.
    specialize (Hord eq_refl Hj ltac:(lia) Hlt). lia.
  - rewrite Ew. apply startswith_app.
Qed.
End AlignerCompleteness.

Lemma bracketed_value_is_marked_witness :
  let p := {| base := {| type := bracketed; value := py "[Sum]"; label := [];
                         start := 4; end_ := 9; line := 1;
                         metadata := None |};
              id := py "bracketed@L1@0"; context := py "Pay [Sum]" |} in
  let st : pystr * gmap pystr nat := (py "<p>Pay <b>[Sum]</b></p>", ∅) in
  contains (value (base p)) st.1 = true
  ∧ ∃ a b,
      search (bracketed_pattern ascii_ci_eq false (value (base p))) st.1
      = Some (a, b)
      ∧ align_step ascii_ci_eq st p
        = (take a st.1 ++ marker_of (id p) ++ drop b st.1, st.2)
      ∧ ∀ i, occurs_at (value (base p)) st.1 i → a ≤ i.
Proof.
  intros p st. split; [reflexivity|].
  exact (bracketed_value_is_marked ascii_ci_eq (λ c, N.eqb_refl _) st p
           eq_refl eq_refl).
Defined.

Lemma new_label_is_marked_witness :
  let p := {| base := {| type := signature_line; value := []; label := py "By";
                         start := 3; end_ := 4; line := 1;
                         metadata := Some (Metadata 1 0 false) |};
              id := py "signature_line@L1@0"; context := py "By: " |} in
  let st : pystr * gmap pystr nat := (py "<p>By:" ++ [TAB] ++ py "</p>", ∅) in
  is_space TAB = true
  ∧ ∃ a b,
      align_step ascii_ci_eq st p
      = (take a st.1 ++ (label (base p) ++ [COLON]) ++ [SP]
         ++ marker_of (id p) ++ drop b st.1,
         <[label (base p) := 1]> (<[label (base p) := 0]> st.2))
      ∧ a ≤ 3 ∧ a < b ∧ b ≤ length st.1
      ∧ startswith (label (base p) ++ [COLON]) (slice a b st.1) = true.
Proof.
  intros p st. split; [reflexivity|].
  exact (new_label_is_marked ascii_ci_eq st p (py "<p>") (py "</p>") TAB
           eq_refl (lookup_empty _) eq_refl eq_refl).
Defined.

(** ** The order of the detected fields *)

Lemma insert_by_sorted {A} (key : A → nat) (x : A) (l : list A) :
  StronglySorted (λ y z, key y ≤ key z) l →
  StronglySorted (λ y z, key y ≤ key z) (insert_by key x l).
Proof.
  induction 1 as [|y l Hl IH Hy]; simpl.
  - repeat constructor.
  - destruct (key x <=? key y) eqn:E.
    + apply Nat.leb_le in E. constructor; [by constructor|].
      constructor; [done|]. eapply Forall_impl; [exact Hy|].
      simpl. intros z Hz. lia.
    + apply Nat.leb_gt in E. constructor; [done|].
      rewrite insert_by_Permutation. constructor; [lia|done].
Qed.

Lemma sort_by_sorted {A} (key : A → nat) (l : list A) :
  StronglySorted (λ y z, key y ≤ key z) (sort_by key l).
Proof.
  induction l as [|x l IH]; simpl; [constructor|]. by apply insert_by_sorted.
Qed.

(** Sorting a list that is in order leaves it as it is. *)
Lemma sort_by_sorted_id {A} (key : A → nat) (l : list A) :
  StronglySorted (λ y z, key y ≤ key z) l → sort_by key l = l.
Proof.
  induction 1 as [|x l Hl IH Hx]; simpl; [done|]. rewrite IH.
  destruct l as [|y l]; [done|]. simpl.
  apply Forall_cons in Hx as [Hxy _].
  by rewrite (proj2 (Nat.leb_le _ _) Hxy).
Qed.

Lemma sorted_strict {A} (key : A → nat) (l : list A) :
  StronglySorted (λ y z, key y ≤ key z) l → NoDup (List.map key l) →
  StronglySorted (λ y z, key y < key z) l.
Proof.
  induction 1 as [|x l Hl IH Hx]; simpl; intros Hnd; [constructor|].
  apply NoDup_cons in Hnd as [Hx' Hnd]. constructor; [by apply IH|].
  apply Forall_forall. intros y Hy.
  pose proof (proj1 (Forall_forall _ _) Hx y Hy) as Hle. simpl in Hle.
  destruct (decide (key x = key y)) as [E|]; [|lia].
  destruct Hx'. rewrite E. apply list_elem_of_In, in_map, list_elem_of_In, Hy.
Qed.

Lemma strict_NoDup {A} (key : A → nat) (l : list A) :
  StronglySorted (λ y z, key y < key z) l → NoDup (List.map key l).
Proof.
  induction 1 as [|x l Hl IH Hx]; simpl; [constructor|].
  apply NoDup_cons. split; [|done].
  intros Hin. apply list_elem_of_In, in_map_iff in Hin as (y & E & Hy).
  apply list_elem_of_In in Hy.
  pose proof (proj1 (Forall_forall _ _) Hx y Hy) as Hlt. simpl in Hlt. lia.
Qed.

Lemma preceding_S (i : nat) (texts : list pystr) (t : pystr) :
  texts !! i = Some t →
  length (preceding (S i) texts) = length (preceding i texts) + length t + 1.
Proof.
  intros Hi. unfold preceding. rewrite (take_S_r _ _ _ Hi).
  rewrite flat_map_app. cbn [flat_map]. rewrite app_nil_r, !length_app.
  cbn [length]. lia.
Qed.

Lemma signature_loop_sorted (texts : list pystr) (ft : pystr)
    (items : list (paragraph * pystr)) (idx : nat) (results : list field) :
  (∀ k pt, items !! k = Some pt → texts !! (idx + k) = Some pt.2) →
  StronglySorted (λ f g, start f < start g) results →
  (∀ f, f ∈ results → start f < length (preceding idx texts)) →
  StronglySorted (λ f g, start f < start g)
    (signature_loop (build_offsets texts) ft idx items results).
Proof.
  revert idx results. induction items as [|[para t] items IH];
    intros idx results Hitems Hs Hb; simpl; [done|].
  assert (texts !! idx = Some t) as Ht.
  { specialize (Hitems 0 (para, t) eq_refl). by rewrite Nat.add_0_r in Hitems. }
  pose proof (preceding_S _ _ _ Ht) as HP.
  apply IH.
  - intros k pt Hk. replace (S idx + k) with (idx + S k) by lia.
    by apply Hitems.
  - destruct (signature_line_of _ _ _ _ _) as [f|] eqn:E; [|done].
    apply signature_line_of_Some in E as (c & _ & _ & _ & _ & _ & Hst & _).
    destruct (build_offsets_lookup _ _ _ Ht) as (post & _ & Ho).
    rewrite Ho in Hst. simpl in Hst.
    apply StronglySorted_app_2; [|done|repeat constructor].
    intros f1 f2 Hf1 Hf2%list_elem_of_singleton. subst f2.
    apply Hb in Hf1. lia.
  - intros f Hf. destruct (signature_line_of _ _ _ _ _) as [g|] eqn:E.
    + apply elem_of_app in Hf as [Hf|Hf%list_elem_of_singleton].
      * apply Hb in Hf. lia.
      * subst f. apply signature_line_of_Some in E
          as (c & Hr & _ & _ & _ & _ & Hst & _).
        apply rfind_char_Some in Hr as (_ & Hlt & _).
        destruct (build_offsets_lookup _ _ _ Ht) as (post & _ & Ho).
        rewrite Ho in Hst. simpl in Hst. lia.
    + apply Hb in Hf. lia.
Qed.

Lemma detect_signature_lines_sorted paras (texts : list pystr) (ft : pystr) :
  StronglySorted (λ f g, start f < start g)
    (detect_signature_lines paras texts ft).
Proof.
  apply signature_loop_sorted.
  - intros k [para t] Hk. by apply lookup_zip_Some in Hk as [_ Hk].
  - constructor.
  - by intros f ?%elem_of_nil.
Qed.

Lemma detect_bracketed_sorted (ft : pystr) :
  StronglySorted (λ f g, start f < start g) (detect_bracketed ft).
Proof.
  assert (∀ s skip pos,
            StronglySorted (λ m m' : nat * nat, m.1 < m'.1)
              (finditer_go bracket_re skip pos s)
            ∧ Forall (λ m, pos + skip ≤ m.1) (finditer_go bracket_re skip pos s))
    as H.
  { induction s as [|c s IH]; intros skip pos; simpl;
      [split; constructor|].
    destruct skip as [|skip].
    - destruct (match_at bracket_re (c :: s)) as [n|] eqn:E.
      + pose proof (match_at_positive _ _ _ bracket_re_nonempty E) as Hn.
        destruct (IH (n - 1) (S pos)) as [H1 H2]. split.
        * constructor; [done|]. eapply Forall_impl; [exact H2|].
          simpl. intros m Hm. lia.
        * constructor; [simpl; lia|]. eapply Forall_impl; [exact H2|].
          simpl. intros m Hm. lia.
      + destruct (IH 0 (S pos)) as [H1 H2]. split; [done|].
        eapply Forall_impl; [exact H2|]. simpl. intros m Hm. lia.
    - destruct (IH skip (S pos)) as [H1 H2]. split; [done|].
      eapply Forall_impl; [exact H2|]. simpl. intros m Hm. lia. }
  unfold detect_bracketed, finditer.
  destruct (H ft 0 0) as [Hs _]. revert Hs.
  generalize (finditer_go bracket_re 0 0 ft). intros l.
  induction 1 as [|m l Hl IH Hm]; simpl; constructor; [done|].
  apply Forall_forall. intros f Hf.
  apply list_elem_of_In, in_map_iff in Hf as (m' & <- & Hm').
  simpl. apply list_elem_of_In in Hm'.
  by apply (proj1 (Forall_forall _ _) Hm).
Qed.

(** A signature line starts at a space or a tab of the full text. *)
Lemma signature_field_head paras (texts : list pystr) (f : field) :
  f ∈ detect_signature_lines paras texts (join [NL] texts) →
  ∃ c, join [NL] texts !! start f = Some c ∧ (c = SP ∨ c = TAB).
Proof.
  intros (padding & Hs & _ & _ & _ & Hne & Hall & _)%signature_field_spec.
  destruct padding as [|c padding]; [done|].
  apply Forall_cons in Hall as [Hc _]. exists c. split; [|done].
  unfold slice in Hs.
  assert (take (end_ f - start f) (drop (start f) (join [NL] texts)) !! 0
          = Some c) as H0 by (by rewrite Hs).
  apply lookup_take_Some in H0 as [H0 _]. rewrite lookup_drop in H0.
  by rewrite Nat.add_0_r in H0.
Qed.

Lemma scanner_starts_distinct (doc : container) :
  NoDup (List.map start
           (detect_bracketed (full_text_of doc)
            ++ detect_signature_lines (all_paragraphs doc) (para_texts_of doc)
                 (full_text_of doc))).
Proof.
  rewrite List.map_app. apply NoDup_app. split; [|split].
  - apply strict_NoDup, detect_bracketed_sorted.
  - intros x Hb Hs.
    apply list_elem_of_In, in_map_iff in Hb as (f & <- & Hf).
    apply list_elem_of_In, in_map_iff in Hs as (g & Hfg & Hg).
    apply list_elem_of_In, detect_bracketed_head in Hf as (c & Hc & Hcc).
    apply list_elem_of_In, signature_field_head in Hg as (d & Hd & Hdd).
    unfold full_text_of in Hc. rewrite Hfg in Hd.
    change (List.map text (all_paragraphs doc)) with (para_texts_of doc) in *.
    rewrite Hc in Hd. injection Hd as <-.
    destruct Hcc as [->| ->], Hdd as [Hd|Hd]; by vm_compute in Hd.
  - apply strict_NoDup, detect_signature_lines_sorted.
Qed.

Lemma attach_sorted (ft : pystr) (idx : nat) (ps : list field) :
  StronglySorted (λ f g, start f < start g) ps →
  StronglySorted (λ p q, start (base p) < start (base q)) (attach ft idx ps).
Proof.
  intros H. revert idx. induction H as [|f ps Hps IH Hf]; intros idx; simpl;
    constructor; [done|].
  apply Forall_forall. intros q Hq.
  assert (base q ∈ ps) as Hq'.
  { rewrite <-(attach_base ft (S idx) ps).
    by apply list_elem_of_In, in_map, list_elem_of_In. }
  simpl. by apply (proj1 (Forall_forall _ _) Hf).
Qed.

Lemma detect_placeholders_sorted (doc : container) :
  StronglySorted (λ p q, start (base p) < start (base q))
    (detect_placeholders doc).
Proof.
  unfold detect_placeholders. apply attach_sorted, sorted_strict.
  - apply sort_by_sorted.
  - pose proof (scanner_starts_distinct doc) as Hnd.
    unfold full_text_of, para_texts_of in Hnd.
    by rewrite (Permutation_map start (sort_by_Permutation start _)).
Qed.

(** Property X4.  The list [detect_placeholders] returns holds exactly
    the fields of the two scanners, each once, in strictly increasing
    order of [start]: no two fields begin at the same offset. *)
Theorem detected_fields_in_order (doc : container) :
  List.map base (detect_placeholders doc)
  ≡ₚ detect_bracketed (full_text_of doc)
     ++ detect_signature_lines (all_paragraphs doc) (para_texts_of doc)
          (full_text_of doc)
  ∧ StronglySorted (λ p q, start (base p) < start (base q))
      (detect_placeholders doc).
Proof.
  split; [|apply detect_placeholders_sorted].
  unfold detect_placeholders. rewrite attach_base. apply sort_by_Permutation.
Qed.

(** ** Line numbers and the order of the upload response *)

Lemma line_of_mono (ft : pystr) (p q : nat) :
  p ≤ q → line_of ft p ≤ line_of ft q.
Proof.
  intros Hpq. unfold line_of, count.
  replace (take q ft) with (take p ft ++ take (q - p) (drop p ft)).
  - rewrite filter_app, length_app. lia.
  - rewrite <-(take_drop p (take q ft)), take_take, skipn_firstn_comm.
    by rewrite Nat.min_l by lia.
Qed.

Lemma signature_line_of_line offs ft idx para (t : pystr) (f : field) :
  signature_line_of offs ft idx para t = Some f →
  line f = line_of ft (start f).
Proof.
  unfold signature_line_of. destruct t as [|c t]; [done|].
  destruct (rfind [COLON] (c :: t)) as [colon_pos|]; [|done].
  destruct (_ || _); [done|]. by intros [= <-].
Qed.

Lemma detected_line (doc : container) (p : placeholder) :
  p ∈ detect_placeholders doc →
  line (base p) = line_of (full_text_of doc) (start (base p)).
Proof.
  intros [H|H]%detect_placeholders_base.
  - unfold detect_bracketed in H.
    by apply list_elem_of_In, in_map_iff in H as (m & <- & _).
  - apply detect_signature_lines_inv in H as (i & para & t & _ & H).
    by apply signature_line_of_line in H.
Qed.

Lemma lines_sorted_of_starts (ft : pystr) (l : list placeholder) :
  StronglySorted (λ p q, start (base p) < start (base q)) l →
  Forall (λ p, line (base p) = line_of ft (start (base p))) l →
  StronglySorted (λ p q, line (base p) ≤ line (base q)) l.
Proof.
  induction 1 as [|p l Hl IH Hp]; [constructor|].
  intros [Hp0 Hall]%Forall_cons. constructor; [by apply IH|].
  apply Forall_forall. intros q Hq.
  rewrite Hp0, (proj1 (Forall_forall _ _) Hall q Hq).
  apply line_of_mono.
  pose proof (proj1 (Forall_forall _ _) Hp q Hq) as Hlt. simpl in Hlt. lia.
Qed.

Lemma detect_placeholders_lines_sorted (doc : container) :
  StronglySorted (λ p q, line (base p) ≤ line (base q))
    (detect_placeholders doc).
Proof.
  apply (lines_sorted_of_starts (full_text_of doc)).
  - apply detect_placeholders_sorted.
  - apply Forall_forall. intros p Hp. by apply detected_line.
Qed.

(** Property X5.  Line numbers never decrease along the detected list,
    so sorting it by [line], as the upload does, changes nothing: the
    response of an upload lists the fields in detection order. *)
Theorem upload_keeps_detection_order (doc : container) :
  sort_by (λ p, line (base p)) (detect_placeholders doc)
  = detect_placeholders doc
  ∧ ∀ ci_eq name api_key data html resp,
      upload_document ci_eq name doc api_key data html = Ok resp →
      List.map ph (placeholders resp) = detect_placeholders doc.
Proof.
  assert (sort_by (λ p, line (base p)) (detect_placeholders doc)
          = detect_placeholders doc) as E
    by apply sort_by_sorted_id, detect_placeholders_lines_sorted.
  split; [done|]. intros ci_eq name api_key data html resp.
  unfold upload_document. destruct (negb _); [done|]. rewrite E.
  destruct (generate_field_guidance _ _ _) as [g|e]; [|done].
  simpl. intros [= <-]. simpl. rewrite List.map_map. apply List.map_id.
Qed.

(** ** The aligner does not depend on the order it is given *)

Lemma strict_key_inj {A} (key : A → nat) (l : list A) (x y : A) :
  StronglySorted (λ a b, key a < key b) l →
  x ∈ l → y ∈ l → key x = key y → x = y.
Proof.
  induction 1 as [|z l Hl IH Hz]; [by intros ?%elem_of_nil|].
  intros [->|Hx]%elem_of_cons [->|Hy]%elem_of_cons E; auto.
  - pose proof (proj1 (Forall_forall _ _) Hz y Hy) as H. simpl in H. lia.
  - pose proof (proj1 (Forall_forall _ _) Hz x Hx) as H. simpl in H. lia.
Qed.

Lemma sort_by_of_permutation {A} (key : A → nat) (l l' : list A) :
  StronglySorted (λ a b, key a < key b) l → l' ≡ₚ l → sort_by key l' = l.
Proof.
  intros Hl Hp.
  apply (StronglySorted_unique_strong (λ a b, key a ≤ key b)).
  - intros x1 x2 Hx1 Hx2 H1 H2.
    rewrite sort_by_Permutation, Hp in Hx1.
    apply (strict_key_inj key l); [done..|lia].
  - apply sort_by_sorted.
  - clear Hp. induction Hl as [|z l Hl IH Hz]; constructor; [done|].
    eapply Forall_impl; [exact Hz|]. simpl. intros. lia.
  - by rewrite sort_by_Permutation.
Qed.

(** Property X6.  Given the detected fields in any order, the aligner
    processes them in detection order: its result is that of a pass over
    [detect_placeholders doc] as returned. *)
Theorem alignment_ignores_given_order (ci_eq : char → char → bool)
    (html : pystr) (doc : container) (given : list placeholder) :
  given ≡ₚ detect_placeholders doc →
  create_marked_html ci_eq html given
  = (align_from ci_eq (html, ∅) (detect_placeholders doc)).1.
Proof.
  intros Hp. unfold create_marked_html.
  by rewrite (sort_by_of_permutation _ (detect_placeholders doc) given
                (detect_placeholders_sorted doc) Hp).
Qed.

Lemma alignment_ignores_given_order_witness :
  let doc := doc_of_texts [py "Pay [Sum]"; py "By:" ++ [TAB]] in
  let html := py "<p>Pay [Sum]</p><p>By:" ++ [TAB] ++ py "</p>" in
  rev (detect_placeholders doc) ≡ₚ detect_placeholders doc
  ∧ create_marked_html ascii_ci_eq html (rev (detect_placeholders doc))
    = (align_from ascii_ci_eq (html, ∅) (detect_placeholders doc)).1.
Proof.
  intros doc html.
  assert (rev (detect_placeholders doc) ≡ₚ detect_placeholders doc) as Hp
    by (symmetry; apply Permutation_rev).
  split; [exact Hp|].
  exact (alignment_ignores_given_order ascii_ci_eq html doc _ Hp).
Defined.

(** ** Filled signature lines *)

Lemma lstrip_head (s : pystr) :
  lstrip s = [] ∨ ∃ c r, lstrip s = c :: r ∧ is_space c = false.
Proof.
  induction s as [|c s IH]; [by left|]. simpl.
  destruct (is_space c) eqn:E; [done|]. right. eauto.
Qed.

Lemma strip_last (s : pystr) :
  strip s = [] ∨ ∃ x c, strip s = x ++ [c] ∧ is_space c = false.
Proof.
  unfold strip, rstrip.
  destruct (lstrip_head (rev (lstrip s))) as [->|(c & r & -> & Hc)];
    [by left|].
  right. exists (rev r), c. done.
Qed.






(** ** Paragraphs the injector leaves alone, and those it rewrites *)

Lemma map_id_on {A} (f : A → A) (l : list A) :
  Forall (λ x, f x = x) l → List.map f l = l.
Proof. induction 1 as [|x l Hx _ IH]; simpl; [done|]. by rewrite Hx, IH. Qed.

Lemma deep_paragraphs_cell (ps : list paragraph)
    (ts : list (list (list container))) table row cell (para : paragraph) :
  table ∈ ts → row ∈ table → cell ∈ row → para ∈ deep_paragraphs cell →
  para ∈ deep_paragraphs (Container ps ts).
Proof.
  intros Ht Hr Hc Hp. simpl. apply elem_of_app. right.
  apply list_elem_of_In, in_flat_map. exists table.
  split; [by apply list_elem_of_In|].
  apply in_flat_map. exists row. split; [by apply list_elem_of_In|].
  apply in_flat_map. exists cell. split; by apply list_elem_of_In.
Qed.

Lemma replace_text_identity bm sm (c : container) :
  (∀ para, para ∈ deep_paragraphs c → fill_paragraph bm sm para = para) →
  replace_text_in_run_container bm sm c = c.
Proof.
  induction c as [ps ts IH] using container_nested_ind. intros H.
  simpl. f_equal.
  - apply map_id_on, Forall_forall. intros para Hp. apply H.
    simpl. apply elem_of_app. by left.
  - apply map_id_on, Forall_forall. intros table Ht.
    apply map_id_on, Forall_forall. intros row Hr.
    apply map_id_on, Forall_forall. intros cell Hc.
    pose proof (proj1 (Forall_forall _ _) IH table Ht) as IH1.
    pose proof (proj1 (Forall_forall _ _) IH1 row Hr) as IH2.
    apply (proj1 (Forall_forall _ _) IH2 cell Hc).
    intros para Hp. apply H. by eapply deep_paragraphs_cell.
Qed.

(** Both loops of the injector go through a map and change the paragraph
    only under a key that occurs in its text; a change assigns
    [para.text]. *)
Section KeyedLoop.
Variable step : paragraph → pystr * pystr → paragraph.
Hypothesis step_absent :
  ∀ p kv, contains kv.1 (text p) = false → step p kv = p.
Hypothesis step_present :
  ∀ p kv, contains kv.1 (text p) = true → runs (step p kv) = [Run false].

Lemma loop_untouched (m : list (pystr * pystr)) (p : paragraph) :
  (∀ kv, kv ∈ m → contains kv.1 (text p) = false) → foldl step p m = p.
Proof.
  induction m as [|kv m IH]; intros H; simpl; [done|].
  rewrite step_absent by (apply H, list_elem_of_here).
  apply IH. intros kv' Hkv'. by apply H, list_elem_of_further.
Qed.


End KeyedLoop.

Lemma bracket_step_absent (p : paragraph) (kv : pystr * pystr) :
  contains kv.1 (text p) = false → bracket_step p kv = p.
Proof. unfold bracket_step. by intros ->. Qed.


Lemma sig_step_absent (p : paragraph) (kv : pystr * pystr) :
  contains kv.1 (text p) = false → sig_step p kv = p.
Proof. unfold sig_step. by intros ->. Qed.


Lemma fill_paragraph_untouched bm sm (p : paragraph) :
  (∀ kv, kv ∈ bm ++ sm → contains kv.1 (text p) = false) →
  fill_paragraph bm sm p = p.
Proof.
  intros H. unfold fill_paragraph.
  rewrite (loop_untouched bracket_step bracket_step_absent bm p)
    by (intros kv Hkv; apply H, elem_of_app; by left).
  apply (loop_untouched sig_step sig_step_absent).
  intros kv Hkv. apply H, elem_of_app. by right.
Qed.


(** Property X8.  When no key of the two replacement maps occurs in any
    paragraph of the document, nested table cells included, the filled
    document is the document itself: texts and runs are untouched. *)
Theorem fill_without_keys_is_identity (doc : container)
    (fs : list filled_field) :
  (∀ para kv,
     para ∈ deep_paragraphs doc →
     kv ∈ (build_maps fs).1 ++ (build_maps fs).2 →
     contains kv.1 (text para) = false) →
  fill_docx_placeholders doc fs = doc.
Proof.
  intros H. unfold fill_docx_placeholders.
  apply replace_text_identity. intros para Hp.
  apply fill_paragraph_untouched. intros kv Hkv. by apply H.
Qed.


Lemma fill_without_keys_is_identity_witness :
  let doc := Container [Paragraph (py "Dear Sir,") [Run true]]
                       [[[doc_of_texts [py "By: me"]]]] in
  let f := {| type := bracketed; value := py "[Name]"; label := [];
              start := 0; end_ := 6; line := 1; metadata := None |} in
  let fs := [FilledField f (Some (py "Acme"))] in
  fill_docx_placeholders doc fs = doc.
Proof.
  intros doc f fs. apply (fill_without_keys_is_identity doc fs).
  intros para kv Hp Hkv.
  vm_compute in Hkv. apply list_elem_of_singleton in Hkv as ->.
  vm_compute in Hp. apply elem_of_cons in Hp as [->|Hp]; [reflexivity|].
  apply list_elem_of_singleton in Hp as ->. reflexivity.
Defined.


(** ** The mapping the hint generator returns *)

Lemma guidance_entry_bind {B} (members : list (pystr * json)) (key : pystr)
    (k : option guidance → result B) (b : B) :
  (o ← guidance_entry members key ; k o) = Ok b →
  ∃ o, guidance_entry members key = Ok o ∧ k o = Ok b.
Proof. destruct (guidance_entry members key) as [o|e]; [eauto|done]. Qed.

(** What the first loop leaves under a key: the entry the answer holds
    for it when the key is the id of a listed field. *)
Lemma by_id_lookup (members : list (pystr * json)) (ps : list placeholder)
    (acc g : gmap pystr guidance) (i : pystr) :
  by_id members ps acc = Ok g →
  g !! i = if decide (i ∈ List.map id ps)
           then match guidance_entry members i with
                | Ok (Some e) => Some e
                | _ => acc !! i
                end
           else acc !! i.
Proof.
  revert acc. induction ps as [|p ps IH]; intros acc; cbn [by_id List.map].
  { intros [= <-]. by destruct (decide _) as [?%elem_of_nil|]. }
  intros (o & Ho & H)%guidance_entry_bind. apply IH in H. rewrite H. clear H.
  destruct (decide (i = id p)) as [->|Hne].
  - destruct (decide (id p ∈ id p :: List.map id ps)) as [_|Hn];
      [|destruct Hn; apply list_elem_of_here].
    rewrite Ho. destruct o as [e|].
    + rewrite lookup_insert_eq. by destruct (decide _).
    + by destruct (decide _).
  - assert ((match o with Some e => <[id p := e]> acc | None => acc end) !! i
            = acc !! i) as ->
      by (destruct o; [by rewrite lookup_insert_ne|done]).
    destruct (decide (i ∈ List.map id ps)) as [Hi|Hi];
      destruct (decide (i ∈ id p :: List.map id ps)) as [Hi'|Hi']; try done.
    + destruct Hi'. by apply list_elem_of_further.
    + by apply elem_of_cons in Hi' as [?|?].
Qed.

Lemma by_number_keys (members : list (pystr * json)) (n : nat)
    (ps : list placeholder) (acc g : gmap pystr guidance) (i : pystr) :
  by_number members n ps acc = Ok g →
  is_Some (g !! i) → is_Some (acc !! i) ∨ i ∈ List.map id ps.
Proof.
  revert n acc. induction ps as [|p ps IH]; intros n acc; simpl.
  { intros [= <-]. by left. }
  intros (o & Ho & H)%guidance_entry_bind Hi.
  destruct (IH _ _ H Hi) as [Hacc|Hin]; [|right; by apply list_elem_of_further].
  destruct o as [e|]; [|by left].
  destruct (decide (i = id p)) as [->|Hne]; [right; apply list_elem_of_here|].
  left. by rewrite lookup_insert_ne in Hacc.
Qed.

Lemma id_of_listed (ps : list placeholder) (i : pystr) :
  i ∈ List.map id ps → ∃ p, p ∈ ps ∧ id p = i.
Proof.
  intros (p & <- & Hp)%list_elem_of_In%in_map_iff.
  exists p. split; [by apply list_elem_of_In|done].
Qed.

(** Property X10.  Whatever keys the model's answer has, the mapping the
    hint generator returns is keyed by ids of the fields it was given
    only. *)
Theorem guidance_keys_are_field_ids (api_key : option pystr) (data : json)
    (ps : list placeholder) (g : gmap pystr guidance) (i : pystr) :
  generate_field_guidance api_key data ps = Ok g →
  is_Some (g !! i) → ∃ p, p ∈ ps ∧ id p = i.
Proof.
  unfold generate_field_guidance.
  assert (∀ h : gmap pystr guidance, Ok (A := gmap pystr guidance) ∅ = Ok h →
            is_Some (h !! i) → ∃ p, p ∈ ps ∧ id p = i) as Hempty.
  { intros h [= <-]. rewrite lookup_empty. by intros [? ?]. }
  destruct api_key as [[|c k]|]; [by apply Hempty| |by apply Hempty].
  destruct data as [|s|items|members];
    [by destruct ps; [apply Hempty|]..|].
  destruct (by_id members ps ∅) as [g0|e] eqn:E0; [|done]. simpl.
  pose proof (by_id_lookup members ps ∅ g0 i E0) as Hl.
  case_bool_decide as Hg0.
  - subst g0. intros H Hi.
    destruct (by_number_keys _ _ _ _ _ i H Hi) as [Hacc|Hin].
    + rewrite lookup_empty in Hacc. by destruct Hacc.
    + apply id_of_listed in Hin as (p & Hp & E). exists p. split; [|done].
      by apply (subseteq_take 120 ps).
  - intros [= <-] Hi. rewrite Hl in Hi.
    destruct (decide (i ∈ List.map id ps)) as [Hin|_].
    + by apply id_of_listed.
    + rewrite lookup_empty in Hi. by destruct Hi.
Qed.

(** Property X11.  When the answer is an object that has a usable entry
    under the id of one of the fields, the fields are served by id: the
    mapping holds for each field id exactly the entry the answer has
    under that id, and the numbered keys of the answer are not read. *)
Theorem guidance_is_served_by_id (c : char) (k : pystr)
    (members : list (pystr * json)) (ps : list placeholder)
    (g : gmap pystr guidance) (p : placeholder) (e : guidance) :
  generate_field_guidance (Some (c :: k)) (JObj members) ps = Ok g →
  p ∈ ps →
  guidance_entry members (id p) = Ok (Some e) →
  g !! id p = Some e
  ∧ ∀ q, q ∈ ps → guidance_entry members (id q) = Ok (g !! id q).
Proof.
  unfold generate_field_guidance.
  destruct (by_id members ps ∅) as [g0|e0] eqn:E0; [|done]. simpl.
  intros H Hp He.
  assert (g0 !! id p = Some e) as Hg0.
  { rewrite (by_id_lookup members ps ∅ g0 (id p) E0), He.
    destruct (decide _) as [_|Hn]; [done|]. destruct Hn.
    apply list_elem_of_In, in_map. by apply list_elem_of_In. }
  rewrite bool_decide_eq_false_2 in H
    by (intros ->; by rewrite lookup_empty in Hg0).
  injection H as <-. split; [done|].
  intros q Hq. rewrite (by_id_lookup members ps ∅ g0 (id q) E0).
  rewrite decide_True
    by (apply list_elem_of_In, in_map; by apply list_elem_of_In).
  rewrite lookup_empty.
  clear -E0 Hq. revert E0. generalize (∅ : gmap pystr guidance).
  induction ps as [|r ps IH]; [by apply elem_of_nil in Hq|].
  intros acc. simpl. intros (o & Ho & H)%guidance_entry_bind.
  apply elem_of_cons in Hq as [->|Hq]; [|by eapply IH].
  rewrite Ho. by destruct o.
Qed.

Lemma guidance_keys_are_field_ids_witness :
  let ps := detect_placeholders (doc_of_texts [py "Pay [Sum]"]) in
  let entry := JObj [(py "micro", JStr (py " Sum ")); (py "long", JStr (py "x"))] in
  let data := JObj [(py "1", entry); (py "7", entry)] in
  let g := <[py "bracketed@L1@0" := Guidance (py "Sum") (py "x") []]> ∅ in
  generate_field_guidance (Some (py "key")) data ps = Ok g
  ∧ ∃ p, p ∈ ps ∧ id p = py "bracketed@L1@0".
Proof.
  intros ps entry data g.
  assert (generate_field_guidance (Some (py "key")) data ps = Ok g) as Hg
    by (vm_compute; reflexivity).
  split; [exact Hg|].
  apply (guidance_keys_are_field_ids (Some (py "key")) data ps g _ Hg).
  unfold g. rewrite lookup_insert_eq. by eexists.
Defined.

Lemma guidance_is_served_by_id_witness :
  let ps := detect_placeholders (doc_of_texts [py "Pay [Sum]"; py "[Day]"]) in
  let entry := JObj [(py "micro", JStr (py " Sum ")); (py "long", JStr (py "x"))] in
  let data := [(py "bracketed@L1@0", entry); (py "2", entry)] in
  let e := Guidance (py "Sum") (py "x") [] in
  let g : gmap pystr guidance := <[py "bracketed@L1@0" := e]> ∅ in
  ∃ p, ps !! 0 = Some p
       ∧ g !! id p = Some e
       ∧ ∀ q, q ∈ ps → guidance_entry data (id q) = Ok (g !! id q).
Proof.
  intros ps entry data e g.
  eexists. split; [vm_compute; reflexivity|].
  apply (guidance_is_served_by_id 107%N (py "ey") data ps g _ e).
  - vm_compute. reflexivity.
  - vm_compute. apply list_elem_of_here.
  - vm_compute. reflexivity.
Defined.

(** ** File names *)

Lemma replace_char (c d : char) (s : pystr) :
  replace [c] [d] s = List.map (λ x, if (c =? x)%N then d else x) s.
Proof.
  unfold replace. induction s as [|x s IH]; [done|].
  cbn [replace_go List.map startswith length]. rewrite andb_true_r.
  destruct (c =? x)%N; simpl; by rewrite IH.
Qed.

Lemma safe_name_map (name : pystr) :
  safe_name name
  = List.map (λ x, if bool_decide (x = SLASH ∨ x = BACKSLASH)
                   then UNDERSCORE else x) name.
Proof.
  unfold safe_name.
  change (py "\") with [BACKSLASH]. change (py "/") with [SLASH].
  change (py "_") with [UNDERSCORE].
  rewrite !replace_char, List.map_map. apply map_ext. intros x.
  destruct (SLASH =? x)%N eqn:E1.
  - apply N.eqb_eq in E1 as <-. rewrite bool_decide_eq_true_2 by by left.
    done.
  - apply N.eqb_neq in E1. destruct (BACKSLASH =? x)%N eqn:E2.
    + apply N.eqb_eq in E2 as <-. by rewrite bool_decide_eq_true_2 by by right.
    + apply N.eqb_neq in E2.
      by rewrite bool_decide_eq_false_2 by (intros [?|?]; congruence).
Qed.

Lemma safe_name_drops (name : pystr) (d : char) :
  d = SLASH ∨ d = BACKSLASH → d ∉ safe_name name.
Proof.
  rewrite safe_name_map. intros Hd (x & E & _)%list_elem_of_In%in_map_iff.
  case_bool_decide as Hx; [by destruct Hd; subst d|].
  subst x. done.
Qed.

(** Property X12.  [_safe_name] changes a name character by character:
    the result has the length of the name, holds neither a slash nor a
    backslash, and keeps every other character in its place. *)
Theorem safe_name_has_no_separator (name : pystr) :
  length (safe_name name) = length name
  ∧ (SLASH ∉ safe_name name)
  ∧ (BACKSLASH ∉ safe_name name)
  ∧ ∀ i c, name !! i = Some c →
      safe_name name !! i
      = Some (if bool_decide (c = SLASH ∨ c = BACKSLASH)
              then UNDERSCORE else c).
Proof.
  split; [rewrite safe_name_map; apply length_map|].
  split; [apply safe_name_drops; by left|].
  split; [apply safe_name_drops; by right|].
  intros i c Hi. rewrite safe_name_map. change (List.map ?h ?l) with (h <$> l).
  by rewrite list_lookup_fmap, Hi.
Qed.

Lemma startswith_map (f : char → char) (k s : pystr) :
  Forall (λ c, ∀ x, (c =? x)%N = true → f x = c) k →
  startswith k s = true → startswith k (List.map f s) = true.
Proof.
  intros Hk. revert s. induction Hk as [|c k Hc _ IH]; intros s; [done|].
  destruct s as [|x s]; [done|]. simpl.
  intros [E Hs]%andb_true_iff. rewrite (Hc x E), N.eqb_refl. by apply IH.
Qed.

(** Property X13.  An upload succeeds only for a name that ends in
    [.docx]; the name it stores and returns still ends in [.docx] and
    holds no slash or backslash. *)
Theorem upload_stores_a_plain_docx_name (ci_eq : char → char → bool)
    (name : pystr) (doc : container) (api_key : option pystr) (data : json)
    (html : option pystr) (resp : response) :
  upload_document ci_eq name doc api_key data html = Ok resp →
  endswith (py ".docx") name = true
  ∧ filename resp = safe_name name
  ∧ endswith (py ".docx") (filename resp) = true
  ∧ (SLASH ∉ filename resp) ∧ (BACKSLASH ∉ filename resp).
Proof.
  unfold upload_document.
  destruct (endswith (py ".docx") name) eqn:Hname; [|done]. simpl.
  destruct (generate_field_guidance _ _ _) as [g|e]; [|done]. simpl.
  intros [= <-]. simpl.
  pose proof (safe_name_drops name SLASH (or_introl eq_refl)) as H1.
  pose proof (safe_name_drops name BACKSLASH (or_intror eq_refl)) as H2.
  repeat split; [|done..].
  unfold endswith in *. rewrite safe_name_map, <-map_rev.
  apply startswith_map; [|done].
  apply Forall_forall. intros c Hc x ->%N.eqb_eq. vm_compute in Hc.
  repeat (apply elem_of_cons in Hc as [->|Hc]; [by vm_compute|]).
  by apply elem_of_nil in Hc.
Qed.

Lemma upload_stores_a_plain_docx_name_witness :
  ∃ resp,
    upload_document ascii_ci_eq (py "a/b\form.docx")
      (doc_of_texts [py "Pay [Sum]"]) None JAtom None = Ok resp
    ∧ endswith (py ".docx") (py "a/b\form.docx") = true
    ∧ filename resp = safe_name (py "a/b\form.docx")
    ∧ endswith (py ".docx") (filename resp) = true
    ∧ (SLASH ∉ filename resp) ∧ (BACKSLASH ∉ filename resp).
Proof.
  eexists. split; [vm_compute; reflexivity|].
  eapply (upload_stores_a_plain_docx_name ascii_ci_eq (py "a/b\form.docx")
            (doc_of_texts [py "Pay [Sum]"]) None JAtom None).
  vm_compute. reflexivity.
Defined.

(** ** Answers on which the upload cannot fail *)

Lemma assoc_elem {V} (k : pystr) (d : list (pystr * V)) (v : V) :
  assoc k d = Some v → (k, v) ∈ d.
Proof.
  induction d as [|[k' v'] d IH]; simpl; [done|].
  destruct (decide (k' = k)) as [->|_].
  - intros [= ->]. apply list_elem_of_here.
  - intros H. by apply list_elem_of_further, IH.
Qed.

Lemma guidance_entry_ok (members : list (pystr * json)) (key : pystr) :
  (∀ k j, (k, j) ∈ members → strings_only j) →
  ∃ o, guidance_entry members key = Ok o.
Proof.
  intros Hwf. unfold guidance_entry.
  destruct (assoc key members) as [[| | |g]|] eqn:E; [eauto..| |eauto].
  apply assoc_elem, Hwf in E. simpl in E.
  destruct (assoc (py "micro") g) as [gm|] eqn:Em; [|eauto].
  destruct (assoc (py "long") g) as [gl|] eqn:El; [|eauto].
  apply assoc_elem, E in Em as [sm ->]. apply assoc_elem, E in El as [sl ->].
  destruct (assoc (py "demo") g) as [gd|] eqn:Ed.
  - apply assoc_elem, E in Ed as [sd ->]. simpl. eauto.
  - simpl. eauto.
Qed.

Lemma by_id_ok (members : list (pystr * json)) (ps : list placeholder)
    (acc : gmap pystr guidance) :
  (∀ k j, (k, j) ∈ members → strings_only j) →
  ∃ g, by_id members ps acc = Ok g.
Proof.
  intros Hwf. revert acc. induction ps as [|p ps IH]; intros acc; simpl;
    [eauto|].
  destruct (guidance_entry_ok members (id p) Hwf) as [o ->]. simpl.
  apply IH.
Qed.

Lemma by_number_ok (members : list (pystr * json)) (n : nat)
    (ps : list placeholder) (acc : gmap pystr guidance) :
  (∀ k j, (k, j) ∈ members → strings_only j) →
  ∃ g, by_number members n ps acc = Ok g.
Proof.
  intros Hwf. revert n acc.
  induction ps as [|p ps IH]; intros n acc; simpl; [eauto|].
  destruct (guidance_entry_ok members (str_of_nat n) Hwf) as [o ->]. simpl.
  apply IH.
Qed.

(** Property X14.  When the name ends in [.docx] and the model's answer
    is an object whose member objects hold strings only, the upload
    returns a response: no [strip] is called on a value without that
    method, whatever keys the answer has or lacks. *)
Theorem upload_succeeds_on_well_formed_answer (ci_eq : char → char → bool)
    (name : pystr) (doc : container) (api_key : option pystr) (data : json)
    (html : option pystr) :
  endswith (py ".docx") name = true →
  well_formed_answer data →
  ∃ resp,
    upload_document ci_eq name doc api_key data html = Ok resp
    ∧ List.map ph (placeholders resp) = detect_placeholders doc
    ∧ marked_html resp
      = (λ h, create_marked_html ci_eq h (detect_placeholders doc)) <$> html.
Proof.
  intros Hname (members & -> & Hwf). unfold upload_document.
  rewrite Hname. simpl.
  rewrite (sort_by_sorted_id _ _ (detect_placeholders_lines_sorted doc)).
  assert (∃ g, generate_field_guidance api_key (JObj members)
                 (detect_placeholders doc) = Ok g) as [g ->].
  { unfold generate_field_guidance.
    destruct api_key as [[|c k]|]; [eauto| |eauto].
    destruct (by_id_ok members (detect_placeholders doc) ∅ Hwf) as [g0 ->].
    simpl. case_bool_decide; [|eauto]. by apply by_number_ok. }
  simpl. eexists. split; [reflexivity|]. simpl. split; [|done].
  rewrite List.map_map. apply List.map_id.
Qed.

Lemma upload_succeeds_on_well_formed_answer_witness :
  let doc := doc_of_texts [py "Pay [Sum]"; py "By:" ++ [TAB]] in
  let entry := JObj [(py "micro", JStr (py "Sum")); (py "long", JStr (py "x"))] in
  let data := JObj [(py "1", entry); (py "note", JAtom)] in
  let html := Some (py "<p>Pay [Sum]</p>") in
  ∃ resp,
    upload_document ascii_ci_eq (py "form.docx") doc (Some (py "key")) data
                    html = Ok resp
    ∧ List.map ph (placeholders resp) = detect_placeholders doc
    ∧ marked_html resp
      = (λ h, create_marked_html ascii_ci_eq h (detect_placeholders doc))
        <$> html.
Proof.
  intros doc entry data html.
  apply (upload_succeeds_on_well_formed_answer ascii_ci_eq (py "form.docx")
           doc (Some (py "key")) data html eq_refl).
  exists [(py "1", entry); (py "note", JAtom)]. split; [reflexivity|].
  intros k j [E|E%list_elem_of_singleton]%elem_of_cons;
    injection E as _ ->; [|exact I].
  intros k' v [E|E%list_elem_of_singleton]%elem_of_cons;
    injection E as _ ->; eauto.
Defined.

(** ** Trimming a context for the prompt *)

(** Property X15.  For a limit of at least one character, [trim] returns
    a text within the limit as it is; from a longer text it keeps the
    first [max_chars // 2] characters and the last [max_chars] minus that
    many, with the five-character mark between them, so that the result
    has [max_chars + 5] characters. *)
Theorem trim_keeps_head_and_tail (text : pystr) (max_chars : Z) :
  (1 ≤ max_chars)%Z →
  ((Z.of_nat (length text) ≤ max_chars)%Z → trim text max_chars = text)
  ∧ ((max_chars < Z.of_nat (length text))%Z →
     ∃ h mid t,
       text = h ++ mid ++ t
       ∧ trim text max_chars = h ++ ELISION ++ t
       ∧ Z.of_nat (length h) = (max_chars / 2)%Z
       ∧ Z.of_nat (length t) = (max_chars - max_chars / 2)%Z
       ∧ Z.of_nat (length (trim text max_chars)) = (max_chars + 5)%Z).
Proof.
  intros Hmax. split.
  - intros Hle. unfold trim. destruct text as [|c text]; [done|].
    by rewrite (proj2 (Z.leb_le _ _)) by done.
  - intros Hlt.
    assert (0 ≤ max_chars / 2)%Z as Hh by (apply Z.div_pos; lia).
    assert (max_chars / 2 ≤ max_chars)%Z as Hh'
      by (apply Z.div_le_upper_bound; lia).
    assert ((- max_chars) / 2 = - (max_chars - max_chars / 2))%Z as Ht.
    { pose proof (Z.div_mod max_chars 2 ltac:(lia)) as E1.
      pose proof (Z.mod_pos_bound max_chars 2 ltac:(lia)) as B1.
      pose proof (Z.div_mod (- max_chars) 2 ltac:(lia)) as E2.
      pose proof (Z.mod_pos_bound (- max_chars) 2 ltac:(lia)) as B2.
      lia. }
    assert (max_chars / 2 < max_chars)%Z as Hh''
      by (apply Z.div_lt_upper_bound; lia).
    unfold trim. destruct text as [|c text]; [simpl in Hlt; lia|].
    rewrite (proj2 (Z.leb_gt _ _)) by done.
    unfold slice_to, slice_from. rewrite Ht. clear Ht.
    generalize dependent (max_chars / 2)%Z. intros q Hq Hq' Hq''.
    generalize dependent (c :: text). clear c text. intros text Hlt.
    rewrite (proj2 (Z.ltb_ge _ _)) by done.
    rewrite (proj2 (Z.ltb_lt _ _)) by lia.
    set (a := Z.to_nat q).
    set (b := Z.to_nat (Z.of_nat (length text) + - (max_chars - q))).
    assert (a ≤ b ∧ b < length text) as (Hab & Hb) by (unfold a, b; lia).
    exists (take a text), (take (b - a) (drop a text)), (drop b text).
    assert (length (take a text) = a) as La by (rewrite length_take; lia).
    assert (length (drop b text) = length text - b) as Lb
      by apply length_drop.
    split; [|split; [done|split; [|split]]].
    + rewrite <-(take_drop a text) at 1. f_equal.
      rewrite <-(take_drop (b - a) (drop a text)) at 1. f_equal.
      rewrite drop_drop. f_equal. lia.
    + rewrite La. unfold a. lia.
    + rewrite Lb. unfold b. lia.
    + rewrite !length_app, La, Lb. unfold ELISION. simpl length.
      unfold a, b. lia.
Qed.

Lemma trim_keeps_head_and_tail_witness :
  (1 ≤ 5)%Z ∧ (5 < Z.of_nat (length (py "abcdefgh")))%Z
  ∧ ∃ h mid t,
      py "abcdefgh" = h ++ mid ++ t
      ∧ trim (py "abcdefgh") 5 = h ++ ELISION ++ t
      ∧ Z.of_nat (length h) = (5 / 2)%Z
      ∧ Z.of_nat (length t) = (5 - 5 / 2)%Z
      ∧ Z.of_nat (length (trim (py "abcdefgh") 5)) = (5 + 5)%Z.
Proof.
  assert (1 ≤ 5)%Z as H1 by lia.
  assert (5 < Z.of_nat (length (py "abcdefgh")))%Z as H2 by (simpl; lia).
  split; [exact H1|]. split; [exact H2|].
  exact (proj2 (trim_keeps_head_and_tail (py "abcdefgh") 5 H1) H2).
Defined.

(** ** Paragraph offsets *)

(** Property X16.  [build_offsets] gives one offset per paragraph, and
    the full text read from the offset of a paragraph over the length of
    its text is that text; the next paragraph starts one character after
    its end. *)
Theorem paragraph_is_read_back_at_its_offset (texts : list pystr) (i : nat)
    (t : pystr) :
  texts !! i = Some t →
  ∃ o,
    build_offsets texts !! i = Some o
    ∧ slice o (o + length t) (join [NL] texts) = t
    ∧ o + length t ≤ length (join [NL] texts)
    ∧ (∀ t', texts !! S i = Some t' →
         build_offsets texts !! S i = Some (o + length t + 1)).
Proof.
  intros Hi.
  destruct (build_offsets_lookup texts i t Hi) as (post & Hj & Ho).
  exists (length (preceding i texts)). split; [done|]. split; [|split].
  - rewrite Hj.
    rewrite <-(Nat.add_0_r (length (preceding i texts))) at 1.
    by rewrite slice_middle by lia.
  - rewrite Hj, !length_app. lia.
  - intros t' Hi'.
    destruct (build_offsets_lookup texts (S i) t' Hi') as (_ & _ & ->).
    by rewrite (preceding_S i texts t Hi).
Qed.

Lemma paragraph_is_read_back_at_its_offset_witness :
  let texts := [py "Pay [Sum]"; py "By:" ++ [TAB]] in
  ∃ o,
    build_offsets texts !! 0 = Some o
    ∧ slice o (o + length (py "Pay [Sum]")) (join [NL] texts)
      = py "Pay [Sum]"
    ∧ o + length (py "Pay [Sum]") ≤ length (join [NL] texts)
    ∧ (∀ t', texts !! 1 = Some t' →
         build_offsets texts !! 1 = Some (o + length (py "Pay [Sum]") + 1)).
Proof.
  intros texts.
  exact (paragraph_is_read_back_at_its_offset texts 0 (py "Pay [Sum]")
           eq_refl).
Defined.

(** ** The summary *)

Lemma filter_all {A} (P : A → Prop) `{∀ x, Decision (P x)} (l : list A) :
  Forall P l → filter P l = l.
Proof.
  induction 1 as [|x l Hx _ IH]; [done|].
  by rewrite filter_cons_True, IH.
Qed.

Lemma filter_none {A} (P : A → Prop) `{∀ x, Decision (P x)} (l : list A) :
  Forall (λ x, ¬ P x) l → filter P l = [].
Proof.
  induction 1 as [|x l Hx _ IH]; [done|].
  by rewrite filter_cons_False.
Qed.

Lemma filter_base_length (ty : field_type) (ps : list placeholder) :
  length (filter (λ x, type (base x) = ty) ps)
  = length (filter (λ f, type f = ty) (List.map base ps)).
Proof.
  induction ps as [|p ps IH]; [done|]. cbn [List.map].
  destruct (decide (type (base p) = ty)) as [E|E].
  - rewrite !filter_cons_True by done. simpl. by rewrite IH.
  - by rewrite !filter_cons_False by done.
Qed.

Lemma detect_signature_lines_type paras (texts : list pystr) (ft : pystr) :
  Forall (λ f, type f = signature_line)
         (detect_signature_lines paras texts ft).
Proof.
  apply Forall_forall. intros f (i & para & t & _ & Hf)%detect_signature_lines_inv.
  unfold signature_line_of in Hf. destruct t as [|c t]; [done|].
  destruct (rfind [COLON] (c :: t)) as [colon_pos|]; [|done].
  destruct (_ || _); [done|]. by injection Hf as <-.
Qed.

Lemma detect_bracketed_type (ft : pystr) :
  Forall (λ f, type f = bracketed) (detect_bracketed ft).
Proof.
  apply Forall_forall. intros f Hf. by apply detect_bracketed_spec in Hf as [? _].
Qed.

Lemma length_omap_le {A B} (f : A → option B) (l : list A) :
  length (omap f l) ≤ length l.
Proof.
  induction l as [|x l IH]; [done|]. cbn [omap list_omap length].
  destruct (f x); cbn [length]; lia.
Qed.

(** Property X17.  The three counts of the summary fit together:
    [bracketed] is the number of matches of the bracket scanner,
    [signature_lines] the number of fields of the signature scanner,
    which is at most the number of paragraphs, and [total] is their
    sum. *)
Theorem summary_counts_add_up (doc : container) :
  let s := summary_of (detect_placeholders doc) in
  total s = n_bracketed s + n_signature_lines s
  ∧ n_bracketed s = length (detect_bracketed (full_text_of doc))
  ∧ n_signature_lines s
    = length (detect_signature_lines (all_paragraphs doc) (para_texts_of doc)
                                     (full_text_of doc))
  ∧ n_signature_lines s ≤ length (all_paragraphs doc).
Proof.
  set (B := detect_bracketed (full_text_of doc)).
  set (L := detect_signature_lines (all_paragraphs doc) (para_texts_of doc)
                                   (full_text_of doc)).
  assert (List.map base (detect_placeholders doc) ≡ₚ B ++ L) as Hp.
  { unfold detect_placeholders. rewrite attach_base. apply sort_by_Permutation. }
  assert (∀ ty, length (filter (λ x, type (base x) = ty)
                               (detect_placeholders doc))
                = length (filter (λ f, type f = ty) B)
                  + length (filter (λ f, type f = ty) L)) as Hty.
  { intros ty. rewrite filter_base_length, Hp, filter_app, length_app. done. }
  assert (length L ≤ length (all_paragraphs doc)) as HL.
  { unfold L, detect_signature_lines. rewrite signature_loop_spec. simpl.
    etrans; [apply length_omap_le|].
    rewrite length_imap, length_zip. lia. }
  assert (filter (λ f, type f = bracketed) B = B) as E1
    by apply filter_all, detect_bracketed_type.
  assert (filter (λ f, type f = signature_line) L = L) as E2
    by apply filter_all, detect_signature_lines_type.
  assert (filter (λ f, type f = bracketed) L = []) as E3.
  { apply filter_none. eapply Forall_impl;
      [apply detect_signature_lines_type|]. simpl. congruence. }
  assert (filter (λ f, type f = signature_line) B = []) as E4.
  { apply filter_none. eapply Forall_impl; [apply detect_bracketed_type|].
    simpl. congruence. }
  simpl. rewrite !Hty, E1, E2, E3, E4. simpl.
  repeat split; [|lia..].
  rewrite <-(length_map base), Hp, length_app. lia.
Qed.

(** ** Documents without fields *)

Lemma slice_subseteq (a b : nat) (s : pystr) (c : char) :
  c ∈ slice a b s → c ∈ s.
Proof.
  unfold slice. intros H%(subseteq_take (b - a)).
  by apply (subseteq_drop a s).
Qed.

Lemma empty_of_no_elem {A} (l : list A) : (∀ x, x ∉ l) → l = [].
Proof.
  destruct l as [|x l]; [done|]. intros H.
  destruct (H x). apply list_elem_of_here.
Qed.

Lemma detect_bracketed_needs_bracket (ft : pystr) :
  LBRACKET ∉ ft → detect_bracketed ft = [].
Proof.
  intros Hno. apply empty_of_no_elem. intros f Hf.
  apply detect_bracketed_spec in Hf
    as (_ & Hv & (pre & body & Hw & _) & _).
  apply Hno, (slice_subseteq (start f) (end_ f)). rewrite <-Hv, Hw.
  apply elem_of_app. right. apply list_elem_of_here.
Qed.

Lemma detect_signature_lines_needs_tab paras (texts : list pystr) :
  TAB ∉ join [NL] texts →
  detect_signature_lines paras texts (join [NL] texts) = [].
Proof.
  intros Hno. apply empty_of_no_elem.
  intros f (i & para & t & Ht & Hf)%detect_signature_lines_inv.
  apply signature_line_of_Some in Hf as (colon_pos & _ & _ & _ & Htab & _).
  apply build_offsets_lookup in Ht as (post & Hj & _).
  apply Hno. rewrite Hj. apply elem_of_app. right. apply elem_of_app. left.
  by apply (subseteq_drop (colon_pos + 1) t).
Qed.

(** Property X18.  Detection finds nothing it has no sign of: without an
    opening bracket in the full text there is no bracketed field, without
    a tab there is no signature line, and a document with neither has no
    field at all. *)
Theorem nothing_detected_without_bracket_or_tab (doc : container) :
  ((LBRACKET ∉ full_text_of doc) →
     detect_bracketed (full_text_of doc) = [])
  ∧ ((TAB ∉ full_text_of doc) →
     detect_signature_lines (all_paragraphs doc) (para_texts_of doc)
                            (full_text_of doc) = [])
  ∧ ((LBRACKET ∉ full_text_of doc) → (TAB ∉ full_text_of doc) →
     detect_placeholders doc = []).
Proof.
  split; [apply detect_bracketed_needs_bracket|].
  split; [apply detect_signature_lines_needs_tab|].
  intros Hb Ht. unfold detect_placeholders.
  fold (para_texts_of doc). fold (full_text_of doc).
  rewrite (detect_bracketed_needs_bracket _ Hb).
  unfold full_text_of in *.
  by rewrite (detect_signature_lines_needs_tab _ _ Ht).
Qed.

(** ** The label of a signature line *)

Lemma lstrip_subseteq (s : pystr) (c : char) : c ∈ lstrip s → c ∈ s.
Proof.
  induction s as [|x s IH]; [done|]. simpl.
  destruct (is_space x); [|done]. intros H. by apply list_elem_of_further, IH.
Qed.

Lemma strip_subseteq (s : pystr) (c : char) : c ∈ strip s → c ∈ s.
Proof.
  unfold strip, rstrip. intros H%list_elem_of_In%in_rev%list_elem_of_In.
  apply lstrip_subseteq in H.
  apply list_elem_of_In, in_rev, list_elem_of_In in H.
  by apply lstrip_subseteq.
Qed.

Lemma lstrip_snoc (u : pystr) (c : char) :
  is_space c = false → ∃ z, lstrip (u ++ [c]) = z ++ [c].
Proof.
  intros Hc. induction u as [|x u IH]; simpl.
  - rewrite Hc. by exists [].
  - destruct (is_space x); [done|]. by exists (x :: u).
Qed.

Lemma strip_head (s : pystr) (c : char) :
  head (strip s) = Some c → is_space c = false.
Proof.
  unfold strip, rstrip.
  destruct (lstrip_head s) as [->|(c0 & r & -> & Hc0)]; [done|].
  simpl rev. destruct (lstrip_snoc (rev r) c0 Hc0) as [z ->].
  rewrite rev_app_distr. simpl. by intros [= <-].
Qed.

Lemma strip_last_char (s : pystr) (c : char) :
  last (strip s) = Some c → is_space c = false.
Proof.
  destruct (strip_last s) as [->|(x & c0 & -> & Hc0)]; [done|].
  rewrite last_snoc. by intros [= <-].
Qed.

Lemma after_last_no_char (c : char) (s : pystr) : c ∉ after_last c s.
Proof.
  unfold after_last. destruct (rfind [c] s) as [i|] eqn:E.
  - by apply rfind_char_Some in E as (_ & _ & H).
  - by apply rfind_char_None.
Qed.

(** Property X19.  The label of a detected signature line is on one
    line and trimmed: it holds no newline and neither begins nor ends
    with a white-space character. *)
Theorem signature_label_is_one_trimmed_line (paras : list paragraph)
    (texts : list pystr) (ft : pystr) (f : field) :
  f ∈ detect_signature_lines paras texts ft →
  (NL ∉ label f)
  ∧ (∀ c, head (label f) = Some c → is_space c = false)
  ∧ (∀ c, last (label f) = Some c → is_space c = false).
Proof.
  intros (i & para & t & _ & Hf)%detect_signature_lines_inv.
  unfold signature_line_of in Hf. destruct t as [|c0 t]; [done|].
  destruct (rfind [COLON] (c0 :: t)) as [colon_pos|]; [|done].
  destruct (_ || _); [done|]. injection Hf as <-. cbn [label].
  case_bool_decide as Hnl.
  - split; [|split].
    + intros H%strip_subseteq. by apply after_last_no_char in H.
    + apply strip_head.
    + apply strip_last_char.
  - split; [done|]. split; [apply strip_head|apply strip_last_char].
Qed.

Lemma signature_label_is_one_trimmed_line_witness :
  let t := py " Signed" ++ [NL] ++ py " By :" ++ [TAB] in
  let f := {| type := signature_line; value := []; label := py "By";
              start := 13; end_ := 14; line := 2;
              metadata := Some (Metadata 1 0 false) |} in
  f ∈ detect_signature_lines [Paragraph t []] [t] t
  ∧ (NL ∉ label f)
  ∧ (∀ c, head (label f) = Some c → is_space c = false)
  ∧ (∀ c, last (label f) = Some c → is_space c = false).
Proof.
  intros t f.
  assert (f ∈ detect_signature_lines [Paragraph t []] [t] t) as Hf
    by (vm_compute; apply list_elem_of_here).
  split; [exact Hf|].
  exact (signature_label_is_one_trimmed_line [Paragraph t []] [t] t f Hf).
Defined.

(** ** The context of a field *)

Lemma sub_go_length (r : regex) (repl : pystr) (skip : nat) (s : pystr) :
  (∀ w, matches r w → length repl ≤ length w) →
  length (sub_go r repl skip s) ≤ length s - skip.
Proof.
  intros Hr. revert skip. induction s as [|x s IH]; intros skip; [simpl; lia|].
  cbn [sub_go]. destruct skip as [|n].
  - destruct (match_at r (x :: s)) as [n|] eqn:E.
    + apply match_at_sound in E as [Hn Hm]. apply Hr in Hm.
      rewrite length_take in Hm. rewrite length_app.
      pose proof (IH (n - 1)). simpl in *. lia.
    + pose proof (IH 0). simpl. lia.
  - pose proof (IH n). simpl. lia.
Qed.

Lemma sub_go_elem (r : regex) (repl : pystr) (skip : nat) (s : pystr)
    (c : char) :
  c ∈ sub_go r repl skip s → c ∈ repl ∨ c ∈ s.
Proof.
  revert skip. induction s as [|x s IH]; intros skip; [by right|].
  cbn [sub_go]. destruct skip as [|n].
  - destruct (match_at r (x :: s)) as [n|].
    + intros [?|H]%elem_of_app; [by left|].
      destruct (IH _ H); [by left|right; by apply list_elem_of_further].
    + intros [->|H]%elem_of_cons; [right; apply list_elem_of_here|].
      destruct (IH _ H); [by left|right; by apply list_elem_of_further].
  - intros H. destruct (IH _ H); [by left|right; by apply list_elem_of_further].
Qed.

Lemma sub_go_removes (r : regex) (repl : pystr) (skip : nat) (s : pystr)
    (c : char) :
  c ∉ repl → (∀ rest, is_Some (match_at r (c :: rest))) →
  c ∉ sub_go r repl skip s.
Proof.
  intros Hrepl Hm. revert skip. induction s as [|x s IH]; intros skip;
    [apply not_elem_of_nil|].
  cbn [sub_go]. destruct skip as [|n]; [|apply IH].
  destruct (match_at r (x :: s)) as [n|] eqn:E.
  - intros [?|H]%elem_of_app; [done|]. by apply IH in H.
  - intros [->|H]%elem_of_cons; [|by apply IH in H].
    destruct (Hm s) as [n Hn]. congruence.
Qed.

Lemma context_of_attach (ft : pystr) (idx : nat) (ps : list field)
    (p : placeholder) :
  p ∈ attach ft idx ps → context p = context_of ft (base p).
Proof.
  revert idx. induction ps as [|f ps IH]; intros idx; simpl;
    [by intros ?%elem_of_nil|].
  intros [->|H]%elem_of_cons; [done|by eapply IH].
Qed.

(** Property X20.  The context attached to a detected field holds no
    tab, and is at most [CONTEXT_CHARS] characters on either side longer
    than the field. *)
Theorem context_is_bounded_and_has_no_tab (doc : container)
    (p : placeholder) :
  p ∈ detect_placeholders doc →
  (TAB ∉ context p)
  ∧ length (context p)
    ≤ end_ (base p) - start (base p) + 2 * CONTEXT_CHARS.
Proof.
  intros Hp. unfold detect_placeholders in Hp.
  rewrite (context_of_attach _ _ _ _ Hp). unfold context_of, re_sub.
  split.
  - intros [H|H]%sub_go_elem.
    + by repeat (apply elem_of_cons in H as [H|H]; [done|]);
        apply elem_of_nil in H.
    + revert H. apply sub_go_removes.
      * intros H'%list_elem_of_singleton. discriminate H'.
      * intros rest. apply (match_at_complete blanks_re [TAB] rest).
        apply matches_plus_chr_all; [done|]. by repeat constructor.
  - etrans; [apply sub_go_length|].
    { intros w (w1 & w' & -> & (c1 & -> & _)%matches_chr_inv
                 & (w2 & w3 & -> & (c2 & -> & _)%matches_chr_inv & _)
                   %matches_cat_inv)%matches_cat_inv.
      simpl. lia. }
    etrans; [apply Nat.le_sub_l|].
    etrans; [apply sub_go_length|].
    { intros w [Hne _]%matches_plus_chr. destruct w; [done|]. simpl. lia. }
    unfold slice. rewrite length_take, length_drop. unfold CONTEXT_CHARS. lia.
Qed.

Lemma context_is_bounded_and_has_no_tab_witness :
  let doc := doc_of_texts [py "Pay" ++ [TAB; TAB] ++ py "[Sum]   now"] in
  ∃ p, detect_placeholders doc !! 0 = Some p
       ∧ (TAB ∉ context p)
       ∧ length (context p)
         ≤ end_ (base p) - start (base p) + 2 * CONTEXT_CHARS.
Proof.
  intros doc. eexists. split; [vm_compute; reflexivity|].
  apply (context_is_bounded_and_has_no_tab doc).
  vm_compute. apply list_elem_of_here.
Defined.

(** ** The numbered keys of an answer *)

Lemma by_number_lookup (members : list (pystr * json)) (n : nat)
    (ps : list placeholder) (acc g : gmap pystr guidance) :
  by_number members n ps acc = Ok g →
  NoDup (List.map id ps) →
  (∀ i p, ps !! i = Some p →
     ∃ o, guidance_entry members (str_of_nat (n + i)) = Ok o
          ∧ g !! id p = match o with Some e => Some e | None => acc !! id p end)
  ∧ (∀ k, k ∉ List.map id ps → g !! k = acc !! k).
Proof.
  revert n acc. induction ps as [|p ps IH]; intros n acc; cbn [by_number List.map].
  { intros [= <-] _. split; [by intros i p ?|done]. }
  intros (o & Ho & H)%guidance_entry_bind [Hp Hnd]%NoDup_cons.
  destruct (IH _ _ H Hnd) as [IH1 IH2]. clear IH H.
  assert (∀ k, k ≠ id p →
            (match o with Some e => <[id p := e]> acc | None => acc end) !! k
            = acc !! k) as Hacc
    by (intros k Hk; destruct o; [by rewrite lookup_insert_ne|done]).
  split.
  - intros [|i] q Hq.
    + injection Hq as <-. rewrite Nat.add_0_r. exists o. split; [done|].
      rewrite (IH2 _ Hp). destruct o; [by rewrite lookup_insert_eq|done].
    + destruct (IH1 i q Hq) as (o' & Ho' & Hg).
      exists o'. rewrite <-Nat.add_succ_comm. split; [done|].
      rewrite Hg, Hacc; [done|]. intros E. apply Hp. rewrite <-E.
      apply list_elem_of_In, in_map, list_elem_of_In.
      by eapply list_elem_of_lookup_2.
  - intros k [Hk1 Hk2]%not_elem_of_cons. by rewrite (IH2 _ Hk2), Hacc.
Qed.

Lemma by_id_nothing (members : list (pystr * json)) (ps : list placeholder)
    (g : gmap pystr guidance) :
  by_id members ps ∅ = Ok g →
  (∀ p, p ∈ ps → guidance_entry members (id p) = Ok None) → g = ∅.
Proof.
  intros Hg Hno. apply map_eq. intros i.
  rewrite (by_id_lookup members ps ∅ g i Hg), lookup_empty.
  destruct (decide _) as [(p & Hp & <-)%id_of_listed|]; [|done].
  by rewrite (Hno p Hp).
Qed.

(** Property X21.  When the answer has no usable entry under the id of
    any field, the fields are served by position: each of the first 120
    fields holds the entry the answer has under its 1-based position
    written in decimal, and no later field holds any. *)
Theorem guidance_falls_back_to_positions (c : char) (k : pystr)
    (members : list (pystr * json)) (ps : list placeholder)
    (g : gmap pystr guidance) :
  generate_field_guidance (Some (c :: k)) (JObj members) ps = Ok g →
  (∀ p, p ∈ ps → guidance_entry members (id p) = Ok None) →
  NoDup (List.map id ps) →
  ∀ i p, ps !! i = Some p →
    (i < 120 → guidance_entry members (str_of_nat (S i)) = Ok (g !! id p))
    ∧ (120 ≤ i → g !! id p = None).
Proof.
  unfold generate_field_guidance.
  destruct (by_id members ps ∅) as [g0|e0] eqn:E0; [|done]. simpl.
  intros H Hno Hnd i p Hi.
  rewrite (by_id_nothing _ _ _ E0 Hno) in H.
  rewrite bool_decide_eq_true_2 in H by done.
  assert (NoDup (List.map id (take 120 ps))) as Hnd'.
  { change (List.map id ?l) with (id <$> l). rewrite fmap_take.
    eapply sublist_NoDup; [exact Hnd|apply sublist_take]. }
  destruct (by_number_lookup _ _ _ _ _ H Hnd') as [H1 H2]. split.
  - intros Hlt.
    destruct (H1 i p) as (o & Ho & Hg); [by rewrite lookup_take_lt|].
    change (1 + i) with (S i) in Ho. rewrite Ho, Hg, lookup_empty.
    by destruct o.
  - intros Hge. rewrite H2, lookup_empty; [done|].
    change (List.map id ?l) with (id <$> l). rewrite fmap_take.
    intros (j & Hj & Hlt)%elem_of_take.
    assert ((id <$> ps) !! i = Some (id p)) as Hi'
      by (by rewrite list_lookup_fmap, Hi).
    change (List.map id ps) with (id <$> ps) in Hnd.
    pose proof (NoDup_lookup _ _ _ _ Hnd Hj Hi'). lia.
Qed.

Lemma guidance_falls_back_to_positions_witness :
  let ps := detect_placeholders (doc_of_texts [py "Pay [Sum]"; py "[Day]"]) in
  let entry := JObj [(py "micro", JStr (py " Day ")); (py "long", JStr (py "x"))] in
  let data := [(py "2", entry); (py "0", entry)] in
  let g : gmap pystr guidance :=
    <[py "bracketed@L2@1" := Guidance (py "Day") (py "x") []]> ∅ in
  ∃ p, ps !! 1 = Some p
       ∧ (1 < 120 → guidance_entry data (str_of_nat 2) = Ok (g !! id p))
       ∧ (120 ≤ 1 → g !! id p = None).
Proof.
  intros ps entry data g.
  eexists. split; [vm_compute; reflexivity|].
  apply (guidance_falls_back_to_positions 107%N (py "ey") data ps g).
  - vm_compute. reflexivity.
  - intros p Hp. vm_compute in Hp.
    repeat (apply elem_of_cons in Hp as [->|Hp]; [vm_compute; reflexivity|]).
    by apply elem_of_nil in Hp.
  - apply (bool_decide_unpack _). vm_compute. exact I.
  - vm_compute. reflexivity.
Defined.

(** ** The paragraphs detection reads and those the injector rewrites *)

Lemma sublist_flat_map {A B} (f g : A → list B) (l : list A) :
  (∀ x, x ∈ l → f x `sublist_of` g x) →
  flat_map f l `sublist_of` flat_map g l.
Proof.
  induction l as [|x l IH]; intros H; simpl; [constructor|].
  apply sublist_app; [apply H, list_elem_of_here|].
  apply IH. intros y Hy. by apply H, list_elem_of_further.
Qed.

Lemma flat_map_ext_in {A B} (f g : A → list B) (l : list A) :
  (∀ x, x ∈ l → f x = g x) → flat_map f l = flat_map g l.
Proof.
  induction l as [|x l IH]; intros H; simpl; [done|].
  rewrite (H x) by apply list_elem_of_here. f_equal.
  apply IH. intros y Hy. by apply H, list_elem_of_further.
Qed.

(** Property X22.  Detection reads the paragraphs of the body and of the
    cells of its tables; the injector rewrites these and those of tables
    nested in cells.  The paragraphs read are a subsequence of the
    paragraphs rewritten, and the same list when no cell holds a
    table. *)
Theorem detection_reads_what_the_injector_rewrites (doc : container) :
  all_paragraphs doc `sublist_of` deep_paragraphs doc
  ∧ ((∀ table row cell,
        table ∈ tables doc → row ∈ table → cell ∈ row → tables cell = []) →
     all_paragraphs doc = deep_paragraphs doc).
Proof.
  destruct doc as [ps ts]. unfold all_paragraphs. simpl. split.
  - apply sublist_app; [done|].
    apply sublist_flat_map. intros table _.
    apply sublist_flat_map. intros row _.
    apply sublist_flat_map. intros [ps' ts'] _. simpl.
    by apply sublist_inserts_r.
  - intros H. f_equal.
    apply flat_map_ext_in. intros table Ht.
    apply flat_map_ext_in. intros row Hr.
    apply flat_map_ext_in. intros [ps' ts'] Hc.
    specialize (H table row _ Ht Hr Hc). simpl in H. subst ts'. simpl.
    by rewrite app_nil_r.
Qed.
